(** * Debt ledger and information hub

    A shallow embedding of the two in-memory engines of the chat command
    service: [FlexiblePaymentSystem] (cost.py) and [InformationHub]
    (core/info_hub.py), with the properties stated about them.

    Modelling conventions.
    - Python objects that are mutated in place are threaded explicitly
      through a small state-and-exception monad [M]: a raised exception
      keeps the state reached so far, exactly as an interpreter would.
    - [defaultdict] look-ups ([d[k]]) are writes when the key is missing;
      this is modelled by [touch], and never elided.
    - Amounts are Python floats in the source.  They are modelled by exact
      rationals [Q]; the tolerance [1e-9] is the rational [1 # 10^9].
      Rounding of binary64 arithmetic is outside this model.
    - Iteration over a Python [set] (and over the keys of a [dict] that is
      about to be mutated) has no specified order.  Every definition that
      iterates takes the order as a function [set_iter], about which only
      "it enumerates the set" is assumed. *)

From Stdlib Require Import QArith Qabs Lqa Ascii.
From stdpp Require Import gmap strings list fin_maps sorting.
From Equations Require Import Equations.

#[local] Set Warnings "-clear-no-such-hyp".

(** ** Exceptions and the state monad *)

Inductive exn : Set :=
| ValueError
| KeyError
| OverflowError
| IndexError.

Inductive outcome (A : Type) : Type :=
| Return (a : A)
| Raise (e : exn).
Arguments Return {A} a.
Arguments Raise {A} e.

Definition M (St A : Type) : Type := St → outcome A * St.

Definition ret {St A} (a : A) : M St A := λ s, (Return a, s).

Definition raise {St A} (e : exn) : M St A := λ s, (Raise e, s).

Definition bind {St A B} (m : M St A) (k : A → M St B) : M St B :=
  λ s, match m s with
       | (Return a, s') => k a s'
       | (Raise e, s') => (Raise e, s')
       end.

Definition get {St} : M St St := λ s, (Return s, s).

Definition modify {St} (f : St → St) : M St unit := λ s, (Return tt, f s).

Notation "x <- m ;; k" := (bind m (λ x, k))
  (at level 100, m at next level, right associativity).
Notation "m ;;; k" := (bind m (λ _, k))
  (at level 100, right associativity).

(** [for x in l: body x] *)
Fixpoint for_each {St A} (l : list A) (body : A → M St unit) : M St unit :=
  match l with
  | [] => ret tt
  | x :: l' => body x ;;; for_each l' body
  end.

(** [for x in l: acc = body acc x] *)
Fixpoint fold_M {St A B} (body : B → A → M St B) (acc : B) (l : list A) : M St B :=
  match l with
  | [] => ret acc
  | x :: l' => acc' <- body acc x ;; fold_M body acc' l'
  end.

(** ** Rational comparisons as booleans *)

Definition Qltb (x y : Q) : bool := negb (Qle_bool y x).

Lemma Qltb_lt x y : Qltb x y = true ↔ (x < y)%Q.
Proof.
  unfold Qltb. rewrite negb_true_iff. split.
  - intros H. apply Qnot_le_lt. intros Hle.
    apply Qle_bool_iff in Hle. congruence.
  - intros H. destruct (Qle_bool y x) eqn:E; [|done].
    apply Qle_bool_iff in E. lra.
Qed.

Lemma Qltb_ge x y : Qltb x y = false ↔ (y <= x)%Q.
Proof.
  destruct (Qltb x y) eqn:E.
  - apply Qltb_lt in E. split; [done | lra].
  - split; [|done]. intros _. apply Qnot_lt_le. intros H.
    apply Qltb_lt in H. congruence.
Qed.

(** Python's [min(a, b)]: the first argument unless the second is smaller. *)
Definition py_min (a b : Q) : Q := if Qltb b a then b else a.

(** * The debt ledger (cost.py) *)

Module Ledger.

(** The tolerance [1e-9]. *)
Definition eps : Q := 1 # 1000000000.

Abbreviation row := (gmap string Q).
Abbreviation graph := (gmap string (gmap string Q)).

Record FlexiblePaymentSystem : Type := mkSystem {
  original_debts : graph;
  optimized_debts : graph;
  members : gset string;
  group_id : string;
}.

(** [FlexiblePaymentSystem(group_id)] *)
Definition new_system (gid : string) : FlexiblePaymentSystem :=
  {| original_debts := ∅; optimized_debts := ∅; members := ∅; group_id := gid |}.

(** The two graphs are passed around by reference ([debt_graph] in
    [_get_net_balance], [graph] in [get_member_debts]); a [graph_type]
    names the object that is aliased. *)
Inductive graph_type : Set := original | optimized.

Definition get_graph (gt : graph_type) (s : FlexiblePaymentSystem) : graph :=
  match gt with
  | original => original_debts s
  | optimized => optimized_debts s
  end.

Definition set_graph (gt : graph_type) (g : graph) (s : FlexiblePaymentSystem)
  : FlexiblePaymentSystem :=
  match gt with
  | original => mkSystem g (optimized_debts s) (members s) (group_id s)
  | optimized => mkSystem (original_debts s) g (members s) (group_id s)
  end.

Definition set_members (ms : gset string) (s : FlexiblePaymentSystem)
  : FlexiblePaymentSystem :=
  mkSystem (original_debts s) (optimized_debts s) ms (group_id s).

(** *** [defaultdict] primitives on a graph *)

(** [g[k]] on [defaultdict(lambda: defaultdict(float))]: a missing key is
    inserted with an empty row. *)
Definition touch (k : string) (g : graph) : graph :=
  match g !! k with
  | Some _ => g
  | None => <[k := ∅]> g
  end.

Definition row_of (k : string) (g : graph) : row := default ∅ (g !! k).

(** The weight stored on the edge [(a, b)], if the key is present. *)
Definition weight (g : graph) (a b : string) : option Q := g !! a ≫= (.!! b).

(** [g[a][b] = x] *)
Definition set_edge (a b : string) (x : Q) (g : graph) : graph :=
  <[a := <[b := x]> (row_of a g)]> g.

(** The number of (debtor, creditor) entries stored in a graph. *)
Definition entries (g : graph) : nat :=
  sum_list_with (λ kr, size kr.2) (map_to_list g).

(** *** The settlement heaps

    [heapq] is used with tuples [(balance, member)]: [heappop] returns the
    least tuple in Python's lexicographic tuple order.  The heap is
    modelled by the sequence of its tuples in that order. *)

Abbreviation entry := (Q * string)%type.

Definition entry_lt (a b : entry) : bool :=
  match (a.1 ?= b.1)%Q with
  | Lt => true
  | Eq => String.ltb a.2 b.2
  | Gt => false
  end.

Fixpoint heappush (x : entry) (h : list entry) : list entry :=
  match h with
  | [] => [x]
  | y :: t => if entry_lt x y then x :: h else y :: heappush x t
  end.

(** [if amt > 1e-9: heapq.heappush(h, (-amt, m))] *)
Definition push_back (amt : Q) (m : string) (h : list entry) : list entry :=
  if Qltb eps amt then heappush (- amt, m)%Q h else h.

Lemma heappush_length x h : length (heappush x h) = S (length h).
Proof.
  induction h as [|y t IH]; simpl; [done|].
  destruct (entry_lt x y); simpl; lia.
Qed.

Lemma push_back_length amt m h :
  length (push_back amt m h) = if Qltb eps amt then S (length h) else length h.
Proof. unfold push_back. destruct (Qltb eps amt); [apply heappush_length | done]. Qed.

(** After one settlement at least one of the two parties is exhausted. *)
Lemma settlement_exhausts (d c : Q) :
  Qltb eps (d - py_min d c) && Qltb eps (c - py_min d c) = false.
Proof.
  unfold py_min. destruct (Qltb c d) eqn:E.
  - apply andb_false_iff. right. apply Qltb_ge. unfold eps. lra.
  - apply andb_false_iff. left. apply Qltb_ge. unfold eps. lra.
Qed.

(** The [while debtors and creditors:] loop of [optimized_payment_process],
    acting on [self.optimized_debts]. *)
Equations? settle (debtors creditors : list entry) (opt : graph) : graph
  by wf (length debtors + length creditors)%nat lt :=
  settle [] _ opt := opt;
  settle _ [] opt := opt;
  settle ((d, debtor) :: ds) ((c, creditor) :: cs) opt :=
    settle (push_back (- d - py_min (- d) (- c)) debtor ds)
           (push_back (- c - py_min (- d) (- c)) creditor cs)
           (set_edge debtor creditor (py_min (- d) (- c)) opt).
Proof.
  rewrite !push_back_length.
  pose proof (settlement_exhausts (- d) (- c)) as Hx.
  destruct (Qltb eps (- d - _)), (Qltb eps (- c - _)); simpl in *;
    first [lia | discriminate].
Qed.

(** [if balance < -1e-9: push debtors elif balance > 1e-9: push creditors] *)
Definition classify (hs : list entry * list entry) (mb : string * Q)
  : list entry * list entry :=
  let '(member, balance) := mb in
  if Qltb balance (- eps) then (heappush (balance, member) hs.1, hs.2)
  else if Qltb eps balance then (hs.1, heappush (- balance, member)%Q hs.2)
  else hs.

(** [for other in self.members: if other != member_id: ...; break] *)
Definition first_other (member_id : string) (ms : list string) : option string :=
  head (filter (λ o, o ≠ member_id) ms).

(** *** Pure readings of the balance computation *)

(** [g[a].get(b, 0)] *)
Definition wt (g : graph) (a b : string) : Q := default 0%Q (weight g a b).

(** The value computed by the two loops of [_get_net_balance]. *)
Definition net_of (ms : list string) (m : string) (g : graph) : Q :=
  foldl (λ net other, net - wt g m other)%Q
        (foldl (λ net other, net + wt g other m)%Q 0%Q ms) ms.

(** The rows created on the way by the [defaultdict] look-ups. *)
Definition touch_list (ks : list string) (g : graph) : graph :=
  foldl (λ g k, touch k g) g ks.

Definition touched (ms : list string) (m : string) (g : graph) : graph :=
  foldl (λ g _, touch m g) (touch_list ms g) ms.

(** [sum(f(x) for x in l)] *)
Definition Qsum {A} (f : A → Q) (l : list A) : Q :=
  foldr (λ x acc, f x + acc)%Q 0%Q l.

(** [s'] is [s] up to rows that [defaultdict] look-ups created in
    [original_debts]: same members, same optimized graph, the same weight on
    every edge, and no key of [original_debts] lost. *)
Definition only_touched (s s' : FlexiblePaymentSystem) : Prop :=
  members s' = members s ∧
  optimized_debts s' = optimized_debts s ∧
  group_id s' = group_id s ∧
  (∀ a b, weight (original_debts s') a b = weight (original_debts s) a b) ∧
  (∀ k, is_Some (original_debts s !! k) → is_Some (original_debts s' !! k)).

Section Operations.

(** The order in which a set of strings is iterated. *)
Variable set_iter : gset string → list string.

Abbreviation Sys := FlexiblePaymentSystem.

(** [self.<graph>[k]]: returns the row, inserting it if missing. *)
Definition graph_getitem (gt : graph_type) (k : string) : M Sys row :=
  λ s, let g := touch k (get_graph gt s) in (Return (row_of k g), set_graph gt g s).

(** [self.<graph>[a][b] = x] *)
Definition graph_setitem (gt : graph_type) (a b : string) (x : Q) : M Sys unit :=
  r <- graph_getitem gt a ;;
  modify (λ s, set_graph gt (<[a := <[b := x]> r]> (get_graph gt s)) s).

(** [del self.<graph>[a][b]]: [KeyError] when the inner key is missing. *)
Definition graph_delitem (gt : graph_type) (a b : string) : M Sys unit :=
  r <- graph_getitem gt a ;;
  match r !! b with
  | Some _ => modify (λ s, set_graph gt (<[a := delete b r]> (get_graph gt s)) s)
  | None => raise KeyError
  end.

Definition add_member (member_id : string) : M Sys unit :=
  modify (λ s, set_members ({[member_id]} ∪ members s) s).

Definition _get_net_balance (member_id : string) (gt : graph_type) : M Sys Q :=
  s <- get ;;
  net <- fold_M (λ net other,
           r <- graph_getitem gt other ;;
           ret (net + default 0 (r !! member_id))%Q) 0%Q (set_iter (members s)) ;;
  fold_M (λ net other,
           r <- graph_getitem gt member_id ;;
           ret (net - default 0 (r !! other))%Q) net (set_iter (members s)).

Definition update (from_member to_member : string) (amount : Q) : M Sys unit :=
  s <- get ;;
  (if decide (from_member ∈ members s) then ret tt else add_member from_member) ;;;
  s <- get ;;
  (if decide (to_member ∈ members s) then ret tt else add_member to_member) ;;;
  r <- graph_getitem original from_member ;;
  modify (λ s, set_graph original
     (<[from_member := <[to_member := (default 0 (r !! to_member) + amount)%Q]> r]>
        (original_debts s)) s).

(** The two deletion loops of [remove_member], for one graph. *)
Definition clear_edges (gt : graph_type) (member_id : string) : M Sys unit :=
  r <- graph_getitem gt member_id ;;
  for_each (set_iter (dom r)) (λ other,
    graph_delitem gt member_id other ;;;
    graph_delitem gt other member_id).

(** [if not self.<graph>[member_id]: del self.<graph>[member_id]] *)
Definition drop_empty_row (gt : graph_type) (member_id : string) : M Sys unit :=
  r <- graph_getitem gt member_id ;;
  if Nat.eqb (size r) 0
  then modify (λ s, set_graph gt (delete member_id (get_graph gt s)) s)
  else ret tt.

Definition remove_member (member_id : string) : M Sys bool :=
  s <- get ;;
  if decide (member_id ∈ members s) then
    net_balance <- _get_net_balance member_id original ;;
    if Qltb eps (Qabs net_balance) then raise ValueError else
    modify (λ s, set_members (members s ∖ {[member_id]}) s) ;;;
    clear_edges original member_id ;;;
    clear_edges optimized member_id ;;;
    drop_empty_row original member_id ;;;
    drop_empty_row optimized member_id ;;;
    ret true
  else ret false.

Definition optimized_payment_process : M Sys graph :=
  s <- get ;;
  if decide (members s = ∅) then ret ∅ else
  net_balances <- fold_M (λ acc member,
      b <- _get_net_balance member original ;;
      ret (acc ++ [(member, b)])) [] (set_iter (members s)) ;;
  let hs := foldl classify ([], []) net_balances in
  modify (set_graph optimized ∅) ;;;
  modify (λ s, set_graph optimized (settle hs.1 hs.2 (optimized_debts s)) s) ;;;
  s <- get ;;
  ret (optimized_debts s).

Definition force_remove_member (member_id : string) (settle_first : bool) : M Sys bool :=
  s <- get ;;
  if decide (member_id ∈ members s) then
    (if settle_first then
       net_balance <- _get_net_balance member_id original ;;
       s <- get ;;
       (if Qltb eps net_balance then
          match first_other member_id (set_iter (members s)) with
          | Some other => graph_setitem original other member_id net_balance
          | None => ret tt
          end
        else if Qltb net_balance (- eps) then
          match first_other member_id (set_iter (members s)) with
          | Some other => graph_setitem original member_id other (- net_balance)
          | None => ret tt
          end
        else ret tt) ;;;
       _ <- optimized_payment_process ;;
       ret tt
     else ret tt) ;;;
    remove_member member_id
  else ret false.

(** Running a list of [update(from, to, amount)] calls. *)
Definition run_updates (calls : list (string * string * Q)) : M Sys unit :=
  for_each calls (λ '(f, t, a), update f t a).

(** The net balance of a member as [_get_net_balance] returns it. *)
Definition net_balance_in (gt : graph_type) (s : Sys) (member_id : string) : Q :=
  match (_get_net_balance member_id gt s).1 with
  | Return q => q
  | Raise _ => 0%Q
  end.

(** [sum(self._get_net_balance(m, self.original_debts) for m in self.members)] *)
Definition total_net_balance : M Sys Q :=
  s <- get ;;
  fold_M (λ acc member,
            b <- _get_net_balance member original ;;
            ret (acc + b)%Q) 0%Q (set_iter (members s)).

(** *** Facts about the [defaultdict] primitives *)

Lemma get_set_graph gt g s : get_graph gt (set_graph gt g s) = g.
Proof. by destruct gt. Qed.

Lemma set_set_graph gt g g' s : set_graph gt g' (set_graph gt g s) = set_graph gt g' s.
Proof. by destruct gt. Qed.

Lemma set_get_graph gt s : set_graph gt (get_graph gt s) s = s.
Proof. by destruct gt, s. Qed.

Lemma members_set_graph gt g s : members (set_graph gt g s) = members s.
Proof. by destruct gt. Qed.

Lemma weight_touch k g a b : weight (touch k g) a b = weight g a b.
Proof.
  unfold weight, touch. destruct (g !! k) eqn:E; [done|].
  destruct (decide (k = a)) as [->|Hne].
  - by rewrite lookup_insert_eq, E.
  - by rewrite lookup_insert_ne.
Qed.

Lemma wt_touch k g a b : wt (touch k g) a b = wt g a b.
Proof. unfold wt. by rewrite weight_touch. Qed.

Lemma row_of_touch_any k k' g : row_of k' (touch k g) = row_of k' g.
Proof.
  unfold row_of, touch. destruct (g !! k) eqn:E; [done|].
  destruct (decide (k = k')) as [->|Hne].
  - by rewrite lookup_insert_eq, E.
  - by rewrite lookup_insert_ne.
Qed.

Lemma row_of_touch k g : row_of k (touch k g) = row_of k g.
Proof. apply row_of_touch_any. Qed.

Lemma row_of_lookup k g b : row_of k g !! b = weight g k b.
Proof. unfold row_of, weight. by destruct (g !! k). Qed.

Lemma touch_is_Some k g : is_Some (touch k g !! k).
Proof.
  unfold touch. destruct (g !! k) eqn:E; [by rewrite E|].
  rewrite lookup_insert_eq. eauto.
Qed.

Lemma touch_lookup k g : touch k g !! k = Some (row_of k g).
Proof.
  unfold touch, row_of. destruct (g !! k) eqn:E; [by rewrite E|].
  by rewrite lookup_insert_eq.
Qed.

Lemma touch_dom k g j : is_Some (g !! j) → is_Some (touch k g !! j).
Proof.
  unfold touch. destruct (g !! k) eqn:E; [done|]. intros Hj.
  destruct (decide (k = j)) as [->|Hne].
  - rewrite lookup_insert_eq. eauto.
  - by rewrite lookup_insert_ne.
Qed.

Lemma touch_list_weight ks g a b : weight (touch_list ks g) a b = weight g a b.
Proof.
  revert g. induction ks as [|k ks IH]; intros g; simpl; [done|].
  by rewrite IH, weight_touch.
Qed.

Lemma touch_list_row ks g k : row_of k (touch_list ks g) = row_of k g.
Proof.
  revert g. induction ks as [|j ks IH]; intros g; simpl; [done|].
  by rewrite IH, row_of_touch_any.
Qed.

Lemma touch_list_dom ks g j : is_Some (g !! j) → is_Some (touch_list ks g !! j).
Proof.
  revert g. induction ks as [|k ks IH]; intros g Hj; simpl; [done|].
  by apply IH, touch_dom.
Qed.

Lemma touched_weight ms m g a b : weight (touched ms m g) a b = weight g a b.
Proof.
  unfold touched. generalize (touch_list_weight ms g a b).
  generalize (touch_list ms g). intros g0 <-. clear g.
  generalize ms at 1. intros l. revert g0.
  induction l as [|x l IH]; intros g0; simpl; [done|].
  by rewrite IH, weight_touch.
Qed.

Lemma touched_row ms m g k : row_of k (touched ms m g) = row_of k g.
Proof.
  apply map_eq. intros b. by rewrite !row_of_lookup, touched_weight.
Qed.

Lemma touched_dom ms m g j : is_Some (g !! j) → is_Some (touched ms m g !! j).
Proof.
  intros Hj. unfold touched. apply (touch_list_dom ms) in Hj.
  revert Hj. generalize (touch_list ms g). generalize ms at 1.
  intros l. induction l as [|x l IH]; intros g0 Hj; simpl; [done|].
  by apply IH, touch_dom.
Qed.

Lemma foldl_pointwise {A B} (f f' : B → A → B) (l : list A) (b : B) :
  (∀ b x, f b x = f' b x) → foldl f b l = foldl f' b l.
Proof.
  intros H. revert b. induction l as [|x l IH]; intros b; simpl; [done|].
  rewrite IH. f_equal. apply H.
Qed.

Lemma net_of_ext ms m g g' :
  (∀ a b, weight g a b = weight g' a b) → net_of ms m g = net_of ms m g'.
Proof.
  intros H. unfold net_of.
  assert (Hwt : ∀ a b, wt g a b = wt g' a b) by (intros; unfold wt; by rewrite H).
  rewrite (foldl_pointwise (λ net other, net + wt g other m)%Q
                           (λ net other, net + wt g' other m)%Q).
  - apply foldl_pointwise. intros. by rewrite Hwt.
  - intros. by rewrite Hwt.
Qed.

(** *** What [_get_net_balance] returns and what it writes *)

Lemma owed_loop gt m l acc s :
  fold_M (λ net other,
            r <- graph_getitem gt other ;;
            ret (net + default 0 (r !! m))%Q) acc l s
  = (Return (foldl (λ net o, net + wt (get_graph gt s) o m)%Q acc l),
     set_graph gt (touch_list l (get_graph gt s)) s).
Proof.
  revert acc s. induction l as [|x l IH]; intros acc s; simpl.
  - unfold ret. by rewrite set_get_graph.
  - unfold bind at 1. unfold graph_getitem at 1. unfold bind at 1. simpl.
    rewrite IH, get_set_graph, set_set_graph, row_of_touch, row_of_lookup.
    fold (wt (get_graph gt s) x m). do 2 f_equal.
    apply foldl_pointwise. intros. by rewrite wt_touch.
Qed.

Lemma owes_loop gt m l acc s :
  fold_M (λ net other,
            r <- graph_getitem gt m ;;
            ret (net - default 0 (r !! other))%Q) acc l s
  = (Return (foldl (λ net o, net - wt (get_graph gt s) m o)%Q acc l),
     set_graph gt (foldl (λ g _, touch m g) (get_graph gt s) l) s).
Proof.
  revert acc s. induction l as [|x l IH]; intros acc s; simpl.
  - unfold ret. by rewrite set_get_graph.
  - unfold bind at 1. unfold graph_getitem at 1. unfold bind at 1. simpl.
    rewrite IH, get_set_graph, set_set_graph, row_of_touch, row_of_lookup.
    fold (wt (get_graph gt s) m x). do 2 f_equal.
    apply foldl_pointwise. intros. by rewrite wt_touch.
Qed.

Lemma get_net_balance_spec m gt s :
  _get_net_balance m gt s
  = (Return (net_of (set_iter (members s)) m (get_graph gt s)),
     set_graph gt (touched (set_iter (members s)) m (get_graph gt s)) s).
Proof.
  unfold _get_net_balance. unfold bind at 1, get at 1. simpl.
  unfold bind at 1. rewrite owed_loop. rewrite owes_loop.
  rewrite get_set_graph, set_set_graph. unfold net_of, touched.
  do 2 f_equal. apply foldl_pointwise. intros.
  unfold wt. by rewrite touch_list_weight.
Qed.

Lemma net_balance_in_spec gt s m :
  net_balance_in gt s m = net_of (set_iter (members s)) m (get_graph gt s).
Proof. unfold net_balance_in. by rewrite get_net_balance_spec. Qed.

Lemma only_touched_refl s : only_touched s s.
Proof. by repeat split. Qed.

Lemma only_touched_trans s1 s2 s3 :
  only_touched s1 s2 → only_touched s2 s3 → only_touched s1 s3.
Proof.
  intros (Hm & Ho & Hg & Hw & Hd) (Hm' & Ho' & Hg' & Hw' & Hd').
  split; [congruence|]. split; [congruence|]. split; [congruence|]. split.
  - intros a b. by rewrite Hw', Hw.
  - intros k Hk. by apply Hd', Hd.
Qed.

Lemma get_net_balance_only_touched m s :
  only_touched s (_get_net_balance m original s).2.
Proof.
  rewrite get_net_balance_spec. simpl. repeat split.
  - intros a b. apply touched_weight.
  - intros k. apply touched_dom.
Qed.

(** *** Sums of rationals *)

Lemma foldl_Qplus {A} (f : A → Q) (l : list A) (acc : Q) :
  (foldl (λ n o, n + f o) acc l == acc + Qsum f l)%Q.
Proof.
  revert acc. induction l as [|x l IH]; intros acc; simpl.
  - ring.
  - rewrite IH. ring.
Qed.

Lemma foldl_Qminus {A} (f : A → Q) (l : list A) (acc : Q) :
  (foldl (λ n o, n - f o) acc l == acc - Qsum f l)%Q.
Proof.
  revert acc. induction l as [|x l IH]; intros acc; simpl.
  - ring.
  - rewrite IH. ring.
Qed.

Lemma Qsum_ext {A} (f f' : A → Q) (l : list A) :
  (∀ x, x ∈ l → f x == f' x)%Q → (Qsum f l == Qsum f' l)%Q.
Proof.
  induction l as [|x l IH]; intros H; simpl; [reflexivity|].
  rewrite (H x), IH; [reflexivity| |by left].
  intros y Hy. apply H. by right.
Qed.

Lemma Qsum_plus {A} (f f' : A → Q) (l : list A) :
  (Qsum (λ x, f x + f' x) l == Qsum f l + Qsum f' l)%Q.
Proof. induction l as [|x l IH]; simpl; [ring|]. rewrite IH. ring. Qed.

Lemma Qsum_minus {A} (f f' : A → Q) (l : list A) :
  (Qsum (λ x, f x - f' x) l == Qsum f l - Qsum f' l)%Q.
Proof. induction l as [|x l IH]; simpl; [ring|]. rewrite IH. ring. Qed.

Lemma Qsum_opp {A} (f : A → Q) (l : list A) :
  (Qsum (λ x, - f x) l == - Qsum f l)%Q.
Proof. induction l as [|x l IH]; simpl; [ring|]. rewrite IH. ring. Qed.

Lemma Qsum_zero {A} (l : list A) : (Qsum (λ _, 0) l == 0)%Q.
Proof. induction l as [|x l IH]; simpl; [reflexivity|]. rewrite IH. ring. Qed.

Lemma Qsum_swap {A B} (f : A → B → Q) (l1 : list A) (l2 : list B) :
  (Qsum (λ a, Qsum (λ b, f a b) l2) l1 == Qsum (λ b, Qsum (λ a, f a b) l1) l2)%Q.
Proof.
  induction l1 as [|a l1 IH]; simpl.
  - symmetry. apply Qsum_zero.
  - rewrite IH. symmetry. apply Qsum_plus.
Qed.

Lemma net_of_sum ms m g :
  (net_of ms m g == Qsum (λ o, wt g o m) ms - Qsum (wt g m) ms)%Q.
Proof. unfold net_of. rewrite foldl_Qminus, foldl_Qplus. ring. Qed.

(** Conservation: over any graph and any list of members, the net balances
    add up to zero. *)
Lemma net_of_total ms g : (Qsum (λ m, net_of ms m g) ms == 0)%Q.
Proof.
  rewrite (Qsum_ext _ (λ m, Qsum (λ o, wt g o m) ms - Qsum (wt g m) ms)%Q)
    by (intros; apply net_of_sum).
  rewrite Qsum_minus, (Qsum_swap (λ m o, wt g o m)).
  exact (Qplus_opp_r _).
Qed.

(** *** [update] and sequences of updates *)

Lemma update_returns f t a s : ∃ s', update f t a s = (Return tt, s').
Proof.
  unfold update, bind, get, add_member, modify, graph_getitem, ret. simpl.
  destruct (decide (f ∈ members s)); simpl;
    match goal with |- context [decide (t ∈ ?X)] => destruct (decide (t ∈ X)) end;
    simpl; eauto.
Qed.

Lemma run_updates_returns calls s : ∃ s', run_updates calls s = (Return tt, s').
Proof.
  unfold run_updates. revert s. induction calls as [|[[f t] a] calls IH]; intros s; simpl.
  - by eexists.
  - unfold bind. destruct (update_returns f t a s) as [s1 ->]. apply IH.
Qed.

Lemma total_loop l acc s :
  ∃ s', fold_M (λ acc member,
                  b <- _get_net_balance member original ;;
                  ret (acc + b)%Q) acc l s
        = (Return (foldl (λ acc m,
                      acc + net_of (set_iter (members s)) m (original_debts s))%Q acc l), s')
        ∧ only_touched s s'.
Proof.
  revert acc s. induction l as [|x l IH]; intros acc s; simpl.
  - eexists. split; [done | apply only_touched_refl].
  - unfold bind at 1. unfold bind at 1.
    pose (s1 := (_get_net_balance x original s).2).
    assert (Hs1 : _get_net_balance x original s
                  = (Return (net_of (set_iter (members s)) x (original_debts s)), s1))
      by (unfold s1; by rewrite get_net_balance_spec).
    assert (Ht : only_touched s s1) by apply get_net_balance_only_touched.
    clearbody s1. rewrite Hs1. unfold ret at 1.
    destruct (IH (acc + net_of (set_iter (members s)) x (original_debts s))%Q s1)
      as (s' & -> & Ht').
    exists s'. split; [|by eapply only_touched_trans].
    do 2 f_equal. destruct Ht as (Hm & _ & _ & Hw & _). rewrite Hm.
    apply foldl_pointwise. intros q y. f_equal. by apply net_of_ext.
Qed.

Lemma total_net_balance_spec s :
  ∃ s' total, total_net_balance s = (Return total, s') ∧ only_touched s s' ∧
              (total == 0)%Q.
Proof.
  unfold total_net_balance. unfold bind at 1, get at 1. cbv beta iota.
  destruct (total_loop (set_iter (members s)) 0%Q s) as (s' & -> & Ht).
  eexists _, _. split; [done|]. split; [done|].
  rewrite (foldl_Qplus (λ m, net_of (set_iter (members s)) m (original_debts s))).
  rewrite net_of_total. ring.
Qed.


(** *** [remove_member] on a member that still owes or is owed *)


End Operations.

(** *** Edges of the settlement graph *)

Lemma weight_set_edge a b x g a' b' :
  weight (set_edge a b x g) a' b'
  = if decide (a' = a ∧ b' = b) then Some x else weight g a' b'.
Proof.
  unfold weight, set_edge. destruct (decide (a' = a)) as [->|Ha].
  - rewrite lookup_insert_eq. simpl. destruct (decide (b' = b)) as [->|Hb].
    + rewrite lookup_insert_eq. by rewrite decide_True.
    + rewrite lookup_insert_ne by done.
      rewrite decide_False by (intros [_ ?]; done). apply row_of_lookup.
  - rewrite lookup_insert_ne by done.
    by rewrite decide_False by (intros [? _]; done).
Qed.

Lemma wt_set_edge a b x g a' b' :
  wt (set_edge a b x g) a' b' = if decide (a' = a ∧ b' = b) then x else wt g a' b'.
Proof. unfold wt. rewrite weight_set_edge. by case_decide. Qed.

Lemma entries_empty : entries ∅ = 0%nat.
Proof. unfold entries. by rewrite map_to_list_empty. Qed.

Lemma entries_insert_None (g : graph) k r :
  g !! k = None → entries (<[k := r]> g) = (size r + entries g)%nat.
Proof. intros H. unfold entries. by rewrite map_to_list_insert. Qed.

Lemma entries_delete (g : graph) k r :
  g !! k = Some r → entries g = (size r + entries (delete k g))%nat.
Proof. intros H. unfold entries. by rewrite <- (map_to_list_delete g k r). Qed.

Lemma entries_set_edge a b x g : (entries (set_edge a b x g) ≤ S (entries g))%nat.
Proof.
  unfold set_edge, row_of.
  pose proof (map_size_insert b x (default ∅ (g !! a))) as Hsz.
  destruct (g !! a) as [r|] eqn:E; simpl in *.
  - rewrite <- insert_delete_eq.
    rewrite entries_insert_None by apply lookup_delete_eq.
    rewrite (entries_delete g a r E), Hsz.
    destruct (r !! b); simpl; lia.
  - rewrite entries_insert_None by done.
    rewrite Hsz, lookup_empty. simpl. rewrite map_size_empty. lia.
Qed.

(** *** The heaps as collections *)

Lemma heappush_Permutation x h : heappush x h ≡ₚ x :: h.
Proof.
  induction h as [|y t IH]; simpl; [done|].
  destruct (entry_lt x y); [done|]. rewrite IH. apply perm_swap.
Qed.

Lemma elem_of_push_back amt m h e :
  e ∈ push_back amt m h ↔ e ∈ h ∨ (Qltb eps amt = true ∧ e = (- amt, m)%Q).
Proof.
  unfold push_back. destruct (Qltb eps amt).
  - rewrite heappush_Permutation, elem_of_cons. naive_solver.
  - naive_solver.
Qed.

Lemma push_back_names amt m h :
  (push_back amt m h).*2 ≡ₚ if Qltb eps amt then m :: h.*2 else h.*2.
Proof.
  unfold push_back. destruct (Qltb eps amt); [|done].
  by rewrite heappush_Permutation.
Qed.

Lemma push_back_submseteq amt m h : (push_back amt m h).*2 ⊆+ m :: h.*2.
Proof.
  rewrite push_back_names. destruct (Qltb eps amt); [done|].
  by apply submseteq_cons.
Qed.

Lemma NoDup_submseteq_inv {A} (l k : list A) : l ⊆+ k → NoDup k → NoDup l.
Proof.
  intros [k' Hk]%submseteq_Permutation Hnd. rewrite Hk in Hnd.
  by apply NoDup_app in Hnd as [? _].
Qed.

(** *** Sums over a duplicate-free list *)

Lemma Qsum_update `{EqDecision A} (f f' : A → Q) (l : list A) (d : A) :
  NoDup l → d ∈ l → (∀ o, o ∈ l → o ≠ d → f' o == f o)%Q →
  (Qsum f' l == Qsum f l + (f' d - f d))%Q.
Proof.
  induction l as [|x l IH]; intros Hnd Hd Hext; [by apply elem_of_nil in Hd|].
  apply NoDup_cons in Hnd as [Hx Hnd]. simpl.
  destruct (decide (x = d)) as [->|Hne].
  - rewrite (Qsum_ext f' f l); [ring|].
    intros o Ho. apply Hext; [by right|]. intros ->. done.
  - apply elem_of_cons in Hd as [->|Hd]; [done|].
    rewrite IH; [|done|done|].
    + rewrite (Hext x); [ring|by left|done].
    + intros o Ho. apply Hext. by right.
Qed.

Lemma Qsum_nonneg {A} (f : A → Q) (l : list A) :
  (∀ x, x ∈ l → 0 <= f x)%Q → (0 <= Qsum f l)%Q.
Proof.
  induction l as [|x l IH]; intros H; simpl; [lra|].
  assert (0 <= f x)%Q by (apply H; by left).
  assert (0 <= Qsum f l)%Q by (apply IH; intros; apply H; by right). lra.
Qed.

Lemma Qsum_nonneg_zero {A} (f : A → Q) (l : list A) :
  (∀ x, x ∈ l → 0 <= f x)%Q → (Qsum f l == 0)%Q → ∀ x, x ∈ l → (f x == 0)%Q.
Proof.
  induction l as [|y l IH]; intros H H0 x Hx; [by apply elem_of_nil in Hx|].
  simpl in H0.
  assert (0 <= f y)%Q by (apply H; by left).
  assert (0 <= Qsum f l)%Q by (apply Qsum_nonneg; intros; apply H; by right).
  apply elem_of_cons in Hx as [->|Hx]; [lra|].
  apply IH; [intros; apply H; by right | lra | done].
Qed.

(** The effect of one settlement entry on the derived net balances. *)
Lemma net_of_set_edge ms m d c x g :
  NoDup ms → d ∈ ms → c ∈ ms → weight g d c = None →
  (net_of ms m (set_edge d c x g)
   == net_of ms m g + (if decide (m = c) then x else 0)
                    - (if decide (m = d) then x else 0))%Q.
Proof.
  intros Hnd Hd Hc Hfresh. rewrite !net_of_sum.
  assert (Hdc : wt g d c = 0%Q) by (unfold wt; by rewrite Hfresh).
  assert (Hin : (Qsum (λ o, wt (set_edge d c x g) o m) ms
                 == Qsum (λ o, wt g o m) ms + (if decide (m = c) then x else 0))%Q).
  { destruct (decide (m = c)) as [->|Hm].
    - rewrite (Qsum_update (λ o, wt g o c) (λ o, wt (set_edge d c x g) o c) ms d);
        [|done|done|].
      + rewrite wt_set_edge, decide_True by done. rewrite Hdc. ring.
      + intros o _ Ho. rewrite wt_set_edge, decide_False by (intros [? _]; done).
        reflexivity.
    - rewrite (Qsum_ext _ (λ o, wt g o m)); [ring|].
      intros o _. rewrite wt_set_edge, decide_False by (intros [_ ?]; done).
      reflexivity. }
  assert (Hout : (Qsum (wt (set_edge d c x g) m) ms
                  == Qsum (wt g m) ms + (if decide (m = d) then x else 0))%Q).
  { destruct (decide (m = d)) as [->|Hm].
    - rewrite (Qsum_update (wt g d) (wt (set_edge d c x g) d) ms c); [|done|done|].
      + rewrite wt_set_edge, decide_True by done. rewrite Hdc. ring.
      + intros o _ Ho. rewrite wt_set_edge, decide_False by (intros [_ ?]; done).
        reflexivity.
    - rewrite (Qsum_ext _ (wt g m)); [ring|].
      intros o _. rewrite wt_set_edge, decide_False by (intros [? _]; done).
      reflexivity. }
  rewrite Hin, Hout. ring.
Qed.

(** *** The settlement loop

    [ms] are the members, [net] their net balances over [original_debts],
    and [u] a unit above the tolerance of which every balance is a whole
    multiple. *)

Section Settlement.

Variable ms : list string.
Variable net : string → Q.
Variable u : Q.
Hypothesis ms_NoDup : NoDup ms.
Hypothesis u_above_eps : (eps < u)%Q.

Definition on_grid (v : Q) : Prop := ∃ k : Z, (v == inject_Z k * u)%Q.

Lemma on_grid_opp v : on_grid v → on_grid (- v).
Proof.
  intros [k Hk]. exists (- k)%Z. rewrite inject_Z_opp, Hk. ring.
Qed.

Lemma on_grid_minus v w : on_grid v → on_grid w → on_grid (v - w).
Proof.
  intros [k Hk] [j Hj]. exists (k - j)%Z.
  unfold Z.sub. rewrite inject_Z_plus, inject_Z_opp, Hk, Hj. ring.
Qed.

Lemma on_grid_py_min v w : on_grid v → on_grid w → on_grid (py_min v w).
Proof. unfold py_min. by destruct (Qltb w v). Qed.

Lemma on_grid_proper v w : (v == w)%Q → on_grid v → on_grid w.
Proof. intros Hvw [k Hk]. exists k. by rewrite <- Hvw. Qed.

(** A multiple of the unit inside the tolerance band is zero. *)
Lemma on_grid_small v : on_grid v → (0 <= v)%Q → (v <= eps)%Q → (v == 0)%Q.
Proof.
  intros [k Hk] H0 Heps.
  assert (Hu : (0 < u)%Q) by (unfold eps in *; lra).
  destruct (Z_le_gt_dec k 0) as [Hle|Hgt].
  - rewrite Zle_Qle in Hle. change (inject_Z 0) with 0%Q in Hle.
    assert (inject_Z k * u <= 0 * u)%Q by (apply Qmult_le_compat_r; lra).
    lra.
  - assert (1 <= k)%Z as Hk1 by lia.
    rewrite Zle_Qle in Hk1. change (inject_Z 1) with 1%Q in Hk1.
    assert (1 * u <= inject_Z k * u)%Q by (apply Qmult_le_compat_r; lra).
    lra.
Qed.

(** The invariant of the loop.  [rem] is the signed balance that the plan
    has not yet settled for each member. *)
Record settle_inv (hd hc : list entry) (g : graph) (rem : string → Q) : Prop := {
  inv_NoDup : NoDup (hd.*2 ++ hc.*2);
  inv_members : ∀ x, x ∈ hd.*2 ++ hc.*2 → x ∈ ms;
  inv_debtors : ∀ v x, (v, x) ∈ hd → (v < 0)%Q ∧ (rem x == v)%Q ∧ on_grid v;
  inv_creditors : ∀ v x, (v, x) ∈ hc → (v < 0)%Q ∧ (rem x == - v)%Q ∧ on_grid v;
  inv_settled : ∀ x, x ∈ ms → x ∉ hd.*2 ++ hc.*2 → (rem x == 0)%Q;
  inv_net : ∀ m, m ∈ ms → (net_of ms m g + rem m == net m)%Q;
  inv_fresh : ∀ a b, a ∈ hd.*2 → b ∈ hc.*2 → weight g a b = None;
}.

Definition rem_step (d c : Q) (debtor creditor : string) (rem : string → Q)
  : string → Q :=
  λ x, if decide (x = debtor) then (- (- d - py_min (- d) (- c)))%Q
       else if decide (x = creditor) then (- c - py_min (- d) (- c))%Q
       else rem x.

Lemma elem_of_names (h : list entry) (v : Q) (x : string) : (v, x) ∈ h → x ∈ h.*2.
Proof. intros H. apply list_elem_of_fmap. by exists (v, x). Qed.

Lemma push_back_keeps amt m h x : x ∈ h.*2 → x ∈ (push_back amt m h).*2.
Proof.
  intros Hx. rewrite push_back_names. destruct (Qltb eps amt); [by right | done].
Qed.

Lemma push_back_name_inv amt m h x :
  x ∈ (push_back amt m h).*2 → x ∈ h.*2 ∨ (x = m ∧ Qltb eps amt = true).
Proof.
  rewrite push_back_names. destruct (Qltb eps amt); [|by left].
  intros [->|?]%elem_of_cons; [by right | by left].
Qed.

Lemma settle_inv_step d debtor ds c creditor cs g rem :
  settle_inv ((d, debtor) :: ds) ((c, creditor) :: cs) g rem →
  settle_inv (push_back (- d - py_min (- d) (- c)) debtor ds)
             (push_back (- c - py_min (- d) (- c)) creditor cs)
             (set_edge debtor creditor (py_min (- d) (- c)) g)
             (rem_step d c debtor creditor rem).
Proof.
  intros [Hnd Hms Hd Hc Hset Hnet Hfresh].
  set (s := py_min (- d) (- c)) in *.
  set (rd := (- d - s)%Q) in *. set (rc := (- c - s)%Q) in *.
  destruct (Hd d debtor) as (Hd0 & Hremd & Hgd); [by left|].
  destruct (Hc c creditor) as (Hc0 & Hremc & Hgc); [by left|].
  assert (Hs : (s == - d ∨ s == - c)%Q ∧ (s <= - d)%Q ∧ (s <= - c)%Q).
  { unfold s, py_min. destruct (Qltb (- c) (- d)) eqn:E.
    - apply Qltb_lt in E. split; [by right|]. lra.
    - apply Qltb_ge in E. split; [by left|]. lra. }
  destruct Hs as (Hs & Hsd & Hsc).
  assert (Hrd : (0 <= rd)%Q) by (unfold rd; lra).
  assert (Hrc : (0 <= rc)%Q) by (unfold rc; lra).
  assert (Hgs : on_grid s) by (apply on_grid_py_min; by apply on_grid_opp).
  assert (Hgrd : on_grid rd) by (apply on_grid_minus; [by apply on_grid_opp | done]).
  assert (Hgrc : on_grid rc) by (apply on_grid_minus; [by apply on_grid_opp | done]).
  assert (Hex : Qltb eps rd && Qltb eps rc = false) by apply settlement_exhausts.
  simpl in Hnd, Hms.
  assert (Hall : NoDup (debtor :: ds.*2 ++ creditor :: cs.*2)) by done.
  apply NoDup_cons in Hnd as [Hdeb Hnd].
  apply NoDup_app in Hnd as (Hnds & Hdisj & Hndc).
  apply NoDup_cons in Hndc as [Hcre Hndc]. change (creditor ∉ cs.*2) in Hcre.
  assert (Hne : debtor ≠ creditor).
  { intros ->. apply Hdeb. apply elem_of_app. right. by left. }
  assert (Hdeb_ds : debtor ∉ ds.*2) by (intros ?; apply Hdeb, elem_of_app; by left).
  assert (Hdeb_cs : debtor ∉ cs.*2).
  { intros ?. apply Hdeb, elem_of_app. right. by right. }
  assert (Hcre_ds : creditor ∉ ds.*2).
  { intros H. apply (Hdisj _ H). by left. }
  assert (Hdebm : debtor ∈ ms) by (apply Hms; by left).
  assert (Hcrem : creditor ∈ ms).
  { apply Hms. right. apply elem_of_app. right. by left. }
  split.
  - eapply NoDup_submseteq_inv; [|exact Hall].
    change (debtor :: ds.*2 ++ creditor :: cs.*2)
      with ((debtor :: ds.*2) ++ (creditor :: cs.*2)).
    apply submseteq_app; apply push_back_submseteq.
  - intros x Hx. apply Hms.
    change (x ∈ (debtor :: ds.*2) ++ (creditor :: cs.*2)).
    apply elem_of_app in Hx as [Hx|Hx]; apply elem_of_app; [left|right];
      eapply elem_of_submseteq; eauto using push_back_submseteq.
  - intros v x [Hx|[Hp [= -> ->]]]%elem_of_push_back.
    + destruct (Hd v x) as (? & ? & ?); [by right|].
      apply elem_of_names in Hx. unfold rem_step.
      rewrite !decide_False by congruence. done.
    + apply Qltb_lt in Hp. unfold rem_step. rewrite decide_True by done.
      fold s. fold rd. split; [unfold eps in *; lra|].
      split; [reflexivity | by apply on_grid_opp].
  - intros v x [Hx|[Hp [= -> ->]]]%elem_of_push_back.
    + destruct (Hc v x) as (? & ? & ?); [by right|].
      apply elem_of_names in Hx. unfold rem_step.
      rewrite !decide_False by congruence. done.
    + apply Qltb_lt in Hp. unfold rem_step.
      rewrite decide_False by done. rewrite decide_True by done.
      fold s. fold rc. split; [unfold eps in *; lra|].
      split; [ring | by apply on_grid_opp].
  - intros x Hx Hnot. unfold rem_step. fold s. fold rd. fold rc.
    destruct (decide (x = debtor)) as [->|Hxd].
    + assert (Qltb eps rd = false) as Hp.
      { destruct (Qltb eps rd) eqn:E; [|done]. exfalso. apply Hnot.
        apply elem_of_app. left. rewrite push_back_names.
        fold s. fold rd. rewrite E. by left. }
      apply Qltb_ge in Hp. rewrite (on_grid_small rd); [ring|done..].
    + destruct (decide (x = creditor)) as [->|Hxc].
      * assert (Qltb eps rc = false) as Hp.
        { destruct (Qltb eps rc) eqn:E; [|done]. exfalso. apply Hnot.
          apply elem_of_app. right. rewrite push_back_names.
          fold s. fold rc. rewrite E. by left. }
        apply Qltb_ge in Hp. by apply on_grid_small.
      * apply Hset; [done|]. intros Hin. apply Hnot.
        change (x ∈ (debtor :: ds.*2) ++ (creditor :: cs.*2)) in Hin.
        apply elem_of_app in Hin as [Hin|Hin]; apply elem_of_cons in Hin as [?|Hin];
          try done; apply elem_of_app; [left|right]; by apply push_back_keeps.
  - intros m Hm. rewrite net_of_set_edge; [|done|done|done|].
    2:{ apply Hfresh; by left. }
    specialize (Hnet m Hm). unfold rem_step. fold s.
    destruct (decide (m = debtor)) as [->|Hmd].
    + rewrite decide_False by done. lra.
    + destruct (decide (m = creditor)) as [->|Hmc]; lra.
  - intros a b Ha Hb. rewrite weight_set_edge.
    apply push_back_name_inv in Ha, Hb. fold s in Ha, Hb. fold rd in Ha. fold rc in Hb.
    destruct (decide (a = debtor ∧ b = creditor)) as [[-> ->]|Hab].
    + destruct Ha as [?|[_ Ha]]; [done|]. destruct Hb as [?|[_ Hb]]; [done|].
      rewrite Ha, Hb in Hex. done.
    + apply Hfresh.
      * destruct Ha as [?|[-> _]]; [by right | by left].
      * destruct Hb as [?|[-> _]]; [by right | by left].
Qed.

Lemma settle_inv_final hd hc g rem :
  settle_inv hd hc g rem →
  ∃ hd' hc' rem', settle_inv hd' hc' (settle hd hc g) rem' ∧ (hd' = [] ∨ hc' = []).
Proof.
  revert rem. funelim (settle hd hc g); intros rem Hinv.
  - exists [], creditors, rem. auto.
  - exists (p :: l), [], rem. auto.
  - eapply H. by apply settle_inv_step.
Qed.

Hypothesis net_balanced : (Qsum net ms == 0)%Q.

(** When the loop stops, nothing is left to settle: the plan reproduces
    every net balance. *)
Lemma settle_exact hd hc g rem :
  settle_inv hd hc g rem →
  ∀ m, m ∈ ms → (net_of ms m (settle hd hc g) == net m)%Q.
Proof.
  intros Hinv. destruct (settle_inv_final _ _ _ _ Hinv) as (hd' & hc' & rem' & Hfin & Hstop).
  destruct Hfin as [Hnd Hms Hd Hc Hset Hnet Hfresh].
  assert (Hsum : (Qsum rem' ms == 0)%Q).
  { rewrite (Qsum_ext rem' (λ m, net m - net_of ms m (settle hd hc g))%Q).
    - rewrite Qsum_minus, net_balanced, net_of_total. ring.
    - intros x Hx. specialize (Hnet x Hx). lra. }
  assert (Hrem : ∀ x, x ∈ ms → (rem' x == 0)%Q).
  { destruct Hstop as [-> | ->].
    - apply Qsum_nonneg_zero; [|done]. intros x Hx.
      destruct (decide (x ∈ hc'.*2)) as [Hin|Hout].
      + apply list_elem_of_fmap in Hin as ([v y] & -> & Hin).
        destruct (Hc v y Hin) as (? & Hr & _). simpl. rewrite Hr. lra.
      + rewrite Hset; [lra | done | done].
    - intros x Hx.
      assert (Hneg : (Qsum (λ x, - rem' x) ms == 0)%Q).
      { rewrite Qsum_opp, Hsum. ring. }
      cut (- rem' x == 0)%Q; [lra|].
      apply (Qsum_nonneg_zero (λ x, - rem' x)%Q ms); [|done|done].
      intros y Hy. destruct (decide (y ∈ hd'.*2)) as [Hin|Hout].
      + apply list_elem_of_fmap in Hin as ([v z] & -> & Hin).
        destruct (Hd v z Hin) as (? & Hr & _). simpl. rewrite Hr. lra.
      + rewrite Hset; [lra | done |]. by rewrite app_nil_r. }
  intros m Hm. specialize (Hnet m Hm). rewrite (Hrem m Hm) in Hnet. lra.
Qed.

(** Each round adds at most one entry and retires at least one party. *)
Lemma settle_entries hd hc g :
  (entries (settle hd hc g) ≤ entries g + pred (length hd + length hc))%nat.
Proof.
  funelim (settle hd hc g).
  - lia.
  - lia.
  - etrans; [exact H|].
    pose proof (entries_set_edge debtor creditor (py_min (- d) (- c)) opt).
    pose proof (settlement_exhausts (- d) (- c)) as Hx.
    rewrite !push_back_length. simpl.
    destruct (Qltb eps (- d - _)), (Qltb eps (- c - _)); simpl in *;
      first [discriminate | lia].
Qed.

(** The heaps built from the net balances. *)
Definition is_debtor (x : string) : Prop := Is_true (Qltb (net x) (- eps)).
Definition is_creditor (x : string) : Prop := Is_true (Qltb eps (net x)).

Definition balances (l : list string) : list (string * Q) := (λ m, (m, net m)) <$> l.

Lemma debtor_not_creditor x : is_debtor x → is_creditor x → False.
Proof.
  unfold is_debtor, is_creditor. intros H1%Is_true_true%Qltb_lt H2%Is_true_true%Qltb_lt.
  unfold eps in *. lra.
Qed.

Lemma classify_spec l hd0 hc0 :
  let hs := foldl classify (hd0, hc0) (balances l) in
  hs.1.*2 ++ hs.2.*2 ⊆+ (hd0.*2 ++ hc0.*2) ++ l ∧
  (∀ v x, (v, x) ∈ hs.1 ↔ (v, x) ∈ hd0 ∨ (x ∈ l ∧ v = net x ∧ is_debtor x)) ∧
  (∀ v x, (v, x) ∈ hs.2 ↔ (v, x) ∈ hc0 ∨ (x ∈ l ∧ v = (- net x)%Q ∧ is_creditor x)) ∧
  length hs.1 = (length hd0 + length (filter is_debtor l))%nat ∧
  length hs.2 = (length hc0 + length (filter is_creditor l))%nat.
Proof.
  revert hd0 hc0. induction l as [|m l IH]; intros hd0 hc0; simpl.
  - rewrite app_nil_r. split; [done|]. split; [|split; [|lia]].
    + intros v x. rewrite elem_of_nil. naive_solver.
    + intros v x. rewrite elem_of_nil. naive_solver.
  - unfold classify at 2. simpl.
    destruct (Qltb (net m) (- eps)) eqn:Ed; [|destruct (Qltb eps (net m)) eqn:Ec].
    + assert (is_debtor m) as Hd by (unfold is_debtor; by rewrite Ed).
      assert (¬ is_creditor m) as Hc by (intros ?; by eapply debtor_not_creditor).
      destruct (IH (heappush (net m, m) hd0) hc0) as (H1 & H2 & H3 & H4 & H5).
      rewrite filter_cons_True by done. rewrite filter_cons_False by done.
      split; [|split; [|split; [|split]]].
      * etrans; [exact H1|]. rewrite heappush_Permutation. simpl.
        by rewrite <- Permutation_middle.
      * intros v x. rewrite H2, heappush_Permutation, !elem_of_cons. naive_solver.
      * intros v x. rewrite H3, !elem_of_cons. naive_solver.
      * rewrite H4, heappush_length. simpl. lia.
      * rewrite H5. lia.
    + assert (is_creditor m) as Hc by (unfold is_creditor; by rewrite Ec).
      assert (¬ is_debtor m) as Hd by (unfold is_debtor; rewrite Ed; intros []).
      destruct (IH hd0 (heappush (- net m, m)%Q hc0)) as (H1 & H2 & H3 & H4 & H5).
      rewrite filter_cons_False by done. rewrite filter_cons_True by done.
      split; [|split; [|split; [|split]]].
      * etrans; [exact H1|]. rewrite heappush_Permutation. simpl.
        by rewrite <- !Permutation_middle.
      * intros v x. rewrite H2, !elem_of_cons. naive_solver.
      * intros v x. rewrite H3, heappush_Permutation, !elem_of_cons. naive_solver.
      * rewrite H4. lia.
      * rewrite H5, heappush_length. simpl. lia.
    + assert (¬ is_creditor m) as Hc by (unfold is_creditor; rewrite Ec; intros []).
      assert (¬ is_debtor m) as Hd by (unfold is_debtor; rewrite Ed; intros []).
      destruct (IH hd0 hc0) as (H1 & H2 & H3 & H4 & H5).
      rewrite !filter_cons_False by done.
      split; [|split; [|split; [|split]]]; try done.
      * etrans; [exact H1|]. rewrite <- Permutation_middle. by apply submseteq_cons.
      * intros v x. rewrite H2, !elem_of_cons. naive_solver.
      * intros v x. rewrite H3, !elem_of_cons. naive_solver.
Qed.

Lemma net_of_empty l m : (net_of l m ∅ == 0)%Q.
Proof.
  rewrite net_of_sum.
  rewrite (Qsum_ext (λ o, wt ∅ o m) (λ _, 0%Q)) by (intros; reflexivity).
  rewrite (Qsum_ext (wt ∅ m) (λ _, 0%Q)) by (intros; reflexivity).
  rewrite Qsum_zero. ring.
Qed.

Hypothesis net_on_grid : ∀ m, m ∈ ms → on_grid (net m).

Lemma settle_inv_initial :
  let hs := foldl classify ([], []) (balances ms) in
  settle_inv hs.1 hs.2 ∅ net.
Proof.
  destruct (classify_spec ms [] []) as (Hsub & Hd & Hc & _). simpl in *.
  split.
  - by eapply NoDup_submseteq_inv.
  - intros x Hx. eapply elem_of_submseteq; eauto.
  - intros v x [[]%elem_of_nil|(Hx & -> & Hdeb)]%Hd.
    apply Is_true_true, Qltb_lt in Hdeb.
    split; [unfold eps in *; lra|]. split; [reflexivity | by apply net_on_grid].
  - intros v x [[]%elem_of_nil|(Hx & -> & Hcre)]%Hc.
    apply Is_true_true, Qltb_lt in Hcre.
    split; [unfold eps in *; lra|]. split; [ring | by apply on_grid_opp, net_on_grid].
  - intros x Hx Hnot.
    assert (¬ is_debtor x) as Hnd.
    { intros H. apply Hnot, elem_of_app. left. apply (elem_of_names _ (net x)).
      apply Hd. right. done. }
    assert (¬ is_creditor x) as Hnc.
    { intros H. apply Hnot, elem_of_app. right. apply (elem_of_names _ (- net x)%Q).
      apply Hc. right. done. }
    unfold is_debtor, is_creditor in *.
    rewrite Is_true_true in Hnd, Hnc.
    apply not_true_is_false, Qltb_ge in Hnd.
    apply not_true_is_false, Qltb_ge in Hnc.
    destruct (Qlt_le_dec (net x) 0) as [Hneg|Hpos].
    + cut (- net x == 0)%Q; [lra|].
      apply on_grid_small; [by apply on_grid_opp, net_on_grid | lra | lra].
    + apply on_grid_small; [by apply net_on_grid | lra | lra].
  - intros m Hm. rewrite net_of_empty. ring.
  - intros a b _ _. done.
Qed.

(** The plan computed from the net balances, as a function of them. *)
Definition plan : graph :=
  let hs := foldl classify ([], []) (balances ms) in settle hs.1 hs.2 ∅.

Lemma plan_exact m : m ∈ ms → (net_of ms m plan == net m)%Q.
Proof. apply (settle_exact _ _ _ net). apply settle_inv_initial. Qed.

End Settlement.

(** *** [optimized_payment_process] *)

Section Process.

Variable set_iter : gset string → list string.
Hypothesis set_iter_perm : ∀ X, set_iter X ≡ₚ elements X.

Lemma set_iter_NoDup X : NoDup (set_iter X).
Proof. rewrite set_iter_perm. apply NoDup_elements. Qed.

Lemma elem_of_set_iter x X : x ∈ set_iter X ↔ x ∈ X.
Proof. rewrite set_iter_perm. apply elem_of_elements. Qed.

(** The members that the first loop pushes on each heap. *)
Definition debtors (s : FlexiblePaymentSystem) : list string :=
  filter (is_debtor (net_balance_in set_iter original s)) (set_iter (members s)).

Definition creditors (s : FlexiblePaymentSystem) : list string :=
  filter (is_creditor (net_balance_in set_iter original s)) (set_iter (members s)).

Lemma balances_loop l acc s :
  ∃ s', fold_M (λ acc member,
                  b <- _get_net_balance set_iter member original ;;
                  ret (acc ++ [(member, b)])) acc l s
        = (Return (acc ++ balances (net_balance_in set_iter original s) l), s')
        ∧ only_touched s s'.
Proof.
  revert acc s. induction l as [|x l IH]; intros acc s; simpl.
  - rewrite app_nil_r. eexists. split; [done | apply only_touched_refl].
  - unfold bind at 1. unfold bind at 1.
    pose (s1 := (_get_net_balance set_iter x original s).2).
    assert (Hs1 : _get_net_balance set_iter x original s
                  = (Return (net_balance_in set_iter original s x), s1)).
    { unfold s1, net_balance_in. by rewrite get_net_balance_spec. }
    assert (Ht : only_touched s s1) by apply get_net_balance_only_touched.
    clearbody s1. rewrite Hs1. unfold ret at 1.
    destruct (IH (acc ++ [(x, net_balance_in set_iter original s x)]) s1)
      as (s' & -> & Ht').
    exists s'. split; [|by eapply only_touched_trans].
    rewrite <- app_assoc. simpl. do 4 f_equal.
    apply list_fmap_ext. intros _ m _. f_equal.
    rewrite !net_balance_in_spec. destruct Ht as (Hm & _ & _ & Hw & _).
    rewrite Hm. by apply net_of_ext.
Qed.

Lemma optimized_payment_process_spec s :
  members s ≠ ∅ →
  ∃ s1, only_touched s s1 ∧
    optimized_payment_process set_iter s
    = (Return (plan (set_iter (members s)) (net_balance_in set_iter original s)),
       set_graph optimized
         (plan (set_iter (members s)) (net_balance_in set_iter original s)) s1).
Proof.
  intros Hne. unfold optimized_payment_process.
  unfold bind at 1, get at 1. cbv beta iota.
  rewrite decide_False by done. unfold bind at 1.
  destruct (balances_loop (set_iter (members s)) [] s) as (s1 & -> & Ht).
  exists s1. split; [done|]. simpl. unfold bind, modify, get, ret. simpl.
  done.
Qed.

(** On a ledger without members the call returns a fresh empty plan and
    writes nothing, not even [optimized_debts]. *)
Lemma optimized_payment_process_no_members s :
  members s = ∅ → optimized_payment_process set_iter s = (Return ∅, s).
Proof.
  intros He. unfold optimized_payment_process, bind, get. simpl.
  by rewrite decide_True.
Qed.


End Process.

(** *** Concrete ledgers *)

(** A fresh ledger after [update("A", "B", 100)]. *)
Definition ledger_AB : FlexiblePaymentSystem :=
  (update "A" "B" 100 (new_system "g")).2.

(** A fresh ledger after [update("A", "A", 5)]. *)
Definition ledger_self : FlexiblePaymentSystem :=
  (update "A" "A" 5 (new_system "g")).2.

(** The ledger of the worked example: [update("A", "B", 100)] then
    [update("B", "A", 30)]. *)
Definition ledger_example : FlexiblePaymentSystem :=
  (update "B" "A" 30 ledger_AB).2.

(** A fresh ledger after [update("A", "B", 2 ** -34)]: a debt below the
    tolerance. *)
Definition ledger_tiny : FlexiblePaymentSystem :=
  (update "A" "B" (1 # 17179869184) (new_system "g")).2.

(** The worked example: the plan is the single entry "A owes B 70". *)
Example optimized_payment_process_example :
  ∃ s', optimized_payment_process elements ledger_example
        = (Return (optimized_debts s'), s') ∧
        optimized_debts s' = {[ "A" := {[ "B" := 70%Q ]} ]}.
Proof.
  exists (optimized_payment_process elements ledger_example).2.
  split; by vm_compute.
Qed.





(** C4, at a failing input.  On [ledger_AB] the member "A" owes 100 and "B"
    is owed 100.  [force_remove_member] writes the corrective edge, which
    leaves the balance where it was, and the removal is refused with
    [ValueError]; the same happens for the creditor "B". *)
Theorem force_remove_member_does_not_settle :
  (net_balance_in elements original ledger_AB "A" == - (100))%Q ∧
  (∃ s', force_remove_member elements "A" true ledger_AB = (Raise ValueError, s') ∧
         "A" ∈ members s' ∧
         (net_balance_in elements original s' "A" == - (100))%Q) ∧
  (∃ s', force_remove_member elements "B" true ledger_AB = (Raise ValueError, s') ∧
         "B" ∈ members s' ∧
         (net_balance_in elements original s' "B" == 100)%Q).
Proof.
  split; [by vm_compute|]. split.
  - eexists. split; [by vm_compute|]. split; by vm_compute.
  - eexists. split; [by vm_compute|]. split; by vm_compute.
Qed.

(** C10, at a failing input.  After [update("A", "A", 5)] the member "A" has
    a zero net balance and only a self-edge, and [remove_member] raises
    [KeyError]: the second [del] of the loop finds the key already gone. *)
Theorem remove_member_self_edge_raises :
  "A" ∈ members ledger_self ∧
  weight (original_debts ledger_self) "A" "A" = Some 5%Q ∧
  (net_balance_in elements original ledger_self "A" == 0)%Q ∧
  ∃ s', remove_member elements "A" ledger_self = (Raise KeyError, s').
Proof.
  split; [by vm_compute|]. split; [by vm_compute|]. split; [by vm_compute|].
  eexists. by vm_compute.
Qed.

(** ** Further properties of the ledger operations *)

(** *** [update] *)

(** The state after [update(from, to, amount)]. *)
Lemma update_spec f t a s :
  ∃ s', update f t a s = (Return tt, s') ∧
        members s' = {[f; t]} ∪ members s ∧
        optimized_debts s' = optimized_debts s ∧
        group_id s' = group_id s ∧
        original_debts s'
        = set_edge f t (wt (original_debts s) f t + a) (original_debts s).
Proof.
  assert (Hg : ∀ g : graph,
            <[f := <[t := (default 0 (row_of f (touch f g) !! t) + a)%Q]>
                     (row_of f (touch f g))]> (touch f g)
            = set_edge f t (wt g f t + a) g).
  { intros g. unfold set_edge, wt. rewrite row_of_touch, row_of_lookup.
    unfold touch. destruct (g !! f) eqn:E; [done|]. by rewrite insert_insert_eq. }
  unfold update, bind, get, add_member, modify, ret, graph_getitem.
  destruct (decide (f ∈ members s)) as [Hf|Hf]; simpl;
    (destruct (decide (t ∈ _)) as [Ht|Ht]; simpl in *;
     eexists; (split; [reflexivity|]); simpl;
     (split; [set_solver|]); (split; [done|]); (split; [done|]); apply Hg).
Qed.


(** The names mentioned by a list of [update] calls, and the total amount
    the calls put on the edge [(x, y)]. *)
Definition call_names (calls : list (string * string * Q)) : gset string :=
  ⋃ ((λ c, {[c.1.1; c.1.2]}) <$> calls).

Definition call_total (x y : string) (calls : list (string * string * Q)) : Q :=
  Qsum (λ c, if decide (c.1.1 = x ∧ c.1.2 = y) then c.2 else 0%Q) calls.

(** Every entry of [original_debts] joins two members. *)
Definition edges_within_members (s : FlexiblePaymentSystem) : Prop :=
  ∀ x y, is_Some (weight (original_debts s) x y) → x ∈ members s ∧ y ∈ members s.

Lemma update_within f t a s :
  edges_within_members s → edges_within_members (update f t a s).2.
Proof.
  intros Hw. destruct (update_spec f t a s) as (s' & Hrun & Hm & _ & _ & Hg).
  rewrite Hrun. simpl. intros x y. rewrite Hg, Hm, weight_set_edge.
  case_decide as Hxy.
  - destruct Hxy as [-> ->]. set_solver.
  - intros H. destruct (Hw x y H). set_solver.
Qed.

Lemma run_updates_spec calls s :
  ∃ s', run_updates calls s = (Return tt, s') ∧
        members s' = call_names calls ∪ members s ∧
        optimized_debts s' = optimized_debts s ∧
        (∀ x y, wt (original_debts s') x y
                == wt (original_debts s) x y + call_total x y calls)%Q ∧
        (edges_within_members s → edges_within_members s').
Proof.
  revert s. induction calls as [|[[f t] a] calls IH]; intros s.
  - exists s. split; [done|]. split; [unfold call_names; simpl; set_solver|].
    split; [done|].
    split; [|done]. intros x y. unfold call_total. simpl. ring.
  - pose proof (update_within f t a s) as Hwithin.
    destruct (update_spec f t a s) as (s1 & Hrun & Hm & Ho & _ & Hg).
    rewrite Hrun in Hwithin. simpl in Hwithin.
    destruct (IH s1) as (s' & Hrest & Hm' & Ho' & Hw' & Hin').
    exists s'. split.
    { unfold run_updates in *. simpl. unfold bind at 1. by rewrite Hrun. }
    split. { rewrite Hm', Hm. unfold call_names. simpl. set_solver. }
    split; [congruence|]. split; [|by auto].
    intros x y. rewrite Hw', Hg, wt_set_edge. unfold call_total. simpl.
    destruct (decide (x = f ∧ y = t)) as [[-> ->]|Hxy].
    + rewrite decide_True by done. ring.
    + rewrite decide_False by (intros [<- <-]; by apply Hxy). ring.
Qed.


Lemma Qsum_perm {A} (f : A → Q) (l l' : list A) : l ≡ₚ l' → (Qsum f l == Qsum f l')%Q.
Proof.
  induction 1 as [|x l l' _ IH|x y l|l l' l'' _ IH1 _ IH2]; simpl.
  - reflexivity.
  - by rewrite IH.
  - ring.
  - by rewrite IH1.
Qed.

(** A sum over a larger list without repetition is the sum over the
    smaller one when the function vanishes on the difference. *)
Lemma Qsum_superset `{EqDecision A} (f : A → Q) (l l' : list A) :
  NoDup l → NoDup l' → (∀ x, x ∈ l → x ∈ l') →
  (∀ x, x ∈ l' → x ∉ l → f x == 0)%Q → (Qsum f l' == Qsum f l)%Q.
Proof.
  intros Hl Hl'. revert l Hl. induction Hl' as [|x l' Hx Hl' IH]; intros l Hl Hsub Hz.
  - destruct l as [|y l]; [reflexivity|].
    exfalso. eapply not_elem_of_nil, (Hsub y). by left.
  - destruct (decide (x ∈ l)) as [Hin|Hout].
    + apply elem_of_Permutation in Hin as [k Hk].
      rewrite (Qsum_perm f l (x :: k) Hk). simpl.
      rewrite Hk in Hl. apply NoDup_cons in Hl as [Hxk Hndk].
      rewrite (IH k); [reflexivity | done | |].
      * intros y Hy. assert (y ∈ x :: l') as Hy'.
        { apply Hsub. rewrite Hk. by right. }
        apply elem_of_cons in Hy' as [->|?]; [done|done].
      * intros y Hy Hyk. apply Hz; [by right|]. rewrite Hk.
        intros [->|?]%elem_of_cons; done.
    + simpl. rewrite (Hz x); [|by left|done].
      rewrite (IH l); [ring | done | |].
      * intros y Hy. assert (y ∈ x :: l') as Hy' by by apply Hsub.
        apply elem_of_cons in Hy' as [->|?]; done.
      * intros y Hy Hyl. apply Hz; [by right | done].
Qed.

Section Balances.

Variable set_iter : gset string → list string.
Hypothesis set_iter_perm : ∀ X, set_iter X ≡ₚ elements X.


End Balances.

(** *** The shape of the settlement plan *)

Lemma py_min_cases (a b : Q) :
  (py_min a b = a ∧ (a <= b)%Q) ∨ (py_min a b = b ∧ (b < a)%Q).
Proof.
  unfold py_min. destruct (Qltb b a) eqn:E.
  - right. split; [done|]. by apply Qltb_lt.
  - left. split; [done|]. by apply Qltb_ge.
Qed.

Section PlanShape.

Variable net : string → Q.
Variable ms : list string.

(** What is left to settle for the parties waiting in the two heaps. *)
Definition debtors_ok (hd : list entry) : Prop :=
  ∀ v x, (v, x) ∈ hd → x ∈ ms ∧ (eps < - v)%Q ∧ (- v <= - net x)%Q.

Definition creditors_ok (hc : list entry) : Prop :=
  ∀ v x, (v, x) ∈ hc → x ∈ ms ∧ (eps < - v)%Q ∧ (- v <= net x)%Q.

(** Every entry is a payment above the tolerance from a member who owes at
    least that much to a member who is owed at least that much. *)
Definition plan_ok (g : graph) : Prop :=
  ∀ a b x, weight g a b = Some x →
           a ∈ ms ∧ b ∈ ms ∧ (eps < x)%Q ∧ (x <= - net a)%Q ∧ (x <= net b)%Q.

Lemma settle_plan_ok hd hc g :
  debtors_ok hd → creditors_ok hc → plan_ok g → plan_ok (settle hd hc g).
Proof.
  funelim (settle hd hc g); intros Hd Hc Hg; [done | done |].
  destruct (Hd d debtor) as (Hdm & Hd1 & Hd2); [by left|].
  destruct (Hc c creditor) as (Hcm & Hc1 & Hc2); [by left|].
  pose proof (py_min_cases (- d) (- c)) as Hmin.
  apply H.
  - intros v x [Hin | [Hpush [= -> ->]]]%elem_of_push_back.
    + apply Hd. by right.
    + apply Qltb_lt in Hpush. split; [done|].
      destruct Hmin as [[Hm ?]|[Hm ?]]; rewrite Hm in Hpush |- *;
        unfold eps in *; split; lra.
  - intros v x [Hin | [Hpush [= -> ->]]]%elem_of_push_back.
    + apply Hc. by right.
    + apply Qltb_lt in Hpush. split; [done|].
      destruct Hmin as [[Hm ?]|[Hm ?]]; rewrite Hm in Hpush |- *;
        unfold eps in *; split; lra.
  - intros a b x. rewrite weight_set_edge. case_decide as Hab.
    + destruct Hab as [-> ->]. intros [= <-]. split; [done|]. split; [done|].
      destruct Hmin as [[Hm ?]|[Hm ?]]; rewrite Hm; unfold eps in *;
        repeat split; lra.
    + apply Hg.
Qed.

Lemma plan_shape : plan_ok (plan ms net).
Proof.
  unfold plan. destruct (classify_spec net ms [] []) as (_ & Hd & Hc & _).
  cbv zeta in Hd, Hc. apply settle_plan_ok.
  - intros v x [Hin|(Hx & -> & Hdeb)]%Hd; [by apply elem_of_nil in Hin|].
    unfold is_debtor in Hdeb. apply Is_true_true, Qltb_lt in Hdeb.
    unfold eps in *. split; [done|]. split; lra.
  - intros v x [Hin|(Hx & -> & Hcre)]%Hc; [by apply elem_of_nil in Hin|].
    unfold is_creditor in Hcre. apply Is_true_true, Qltb_lt in Hcre.
    unfold eps in *. split; [done|]. split; lra.
  - intros a b x Hw. by vm_compute in Hw.
Qed.

End PlanShape.

Section Plan.

Variable set_iter : gset string → list string.
Hypothesis set_iter_perm : ∀ X, set_iter X ≡ₚ elements X.

Lemma optimized_payment_process_runs (s : FlexiblePaymentSystem) :
  ∃ p s', optimized_payment_process set_iter s = (Return p, s') ∧
          members s' = members s ∧
          ∀ a b, weight (original_debts s') a b = weight (original_debts s) a b.
Proof.
  clear set_iter_perm.
  destruct (decide (members s = ∅)) as [He|Hne].
  - exists ∅, s. by rewrite optimized_payment_process_no_members.
  - destruct (optimized_payment_process_spec set_iter s Hne)
      as (s1 & (Hm & _ & _ & Hw & _) & Hrun).
    eexists _, _. split; [exact Hrun|]. done.
Qed.

(** X4.  [optimized_payment_process] never raises and never changes the
    members or an entry of [original_debts].  On a ledger with members it
    replaces [optimized_debts] by the plan it returns; on a ledger without
    members it returns an empty plan and leaves [optimized_debts], stale or
    not, as it was. *)
Theorem optimized_payment_process_frame (s : FlexiblePaymentSystem) :
  ∃ p s', optimized_payment_process set_iter s = (Return p, s') ∧
          members s' = members s ∧
          (∀ a b, weight (original_debts s') a b = weight (original_debts s) a b) ∧
          (members s ≠ ∅ → optimized_debts s' = p) ∧
          (members s = ∅ → p = ∅ ∧ s' = s).
Proof.
  clear set_iter_perm.
  destruct (decide (members s = ∅)) as [He|Hne].
  - exists ∅, s. rewrite optimized_payment_process_no_members by done. done.
  - destruct (optimized_payment_process_spec set_iter s Hne)
      as (s1 & (Hm & _ & _ & Hw & _) & Hrun).
    eexists _, _. split; [exact Hrun|]. simpl. done.
Qed.


End Plan.

(** *** [remove_member] past the balance check *)

(** [del g[a][b]] on a graph, when the entry is there. *)
Definition del_edge (a b : string) (g : graph) : graph :=
  <[a := delete b (row_of a g)]> g.

Lemma weight_del_edge a b g x y :
  weight (del_edge a b g) x y
  = if decide (x = a ∧ y = b) then None else weight g x y.
Proof.
  unfold weight, del_edge. destruct (decide (x = a)) as [->|Hx].
  - rewrite lookup_insert_eq. simpl. destruct (decide (y = b)) as [->|Hy].
    + rewrite decide_True by done. apply lookup_delete_eq.
    + rewrite decide_False by (intros [_ ?]; done).
      rewrite lookup_delete_ne by done. apply row_of_lookup.
  - rewrite lookup_insert_ne by done. by rewrite decide_False by (intros [? _]; done).
Qed.

Lemma graph_delitem_run gt a b s w :
  weight (get_graph gt s) a b = Some w →
  graph_delitem gt a b s
  = (Return tt, set_graph gt (del_edge a b (get_graph gt s)) s).
Proof.
  intros Hw. unfold graph_delitem, bind, graph_getitem. simpl.
  rewrite row_of_touch, row_of_lookup, Hw. unfold modify.
  rewrite get_set_graph, set_set_graph. do 2 f_equal.
  unfold del_edge, touch. destruct (get_graph gt s !! a) eqn:E; [done|].
  by rewrite insert_insert_eq.
Qed.

Lemma graph_delitem_missing gt a b s :
  weight (get_graph gt s) a b = None →
  graph_delitem gt a b s
  = (Raise KeyError, set_graph gt (touch a (get_graph gt s)) s).
Proof.
  intros Hw. unfold graph_delitem, bind, graph_getitem. simpl.
  by rewrite row_of_touch, row_of_lookup, Hw.
Qed.

Definition other_graph (gt : graph_type) : graph_type :=
  match gt with original => optimized | optimized => original end.

Lemma other_set_graph gt g s :
  get_graph (other_graph gt) (set_graph gt g s) = get_graph (other_graph gt) s.
Proof. by destruct gt. Qed.

Section RemoveMember.

Variable set_iter : gset string → list string.
Hypothesis set_iter_perm : ∀ X, set_iter X ≡ₚ elements X.

(** The deletion loop over the keys [l] of the member's row, when every
    edge has its reverse. *)
Lemma unlink_loop_run gt m l s :
  NoDup l → m ∉ l →
  (∀ o, o ∈ l → is_Some (weight (get_graph gt s) m o)
                ∧ is_Some (weight (get_graph gt s) o m)) →
  ∃ s', for_each l (λ other, graph_delitem gt m other ;;;
                             graph_delitem gt other m) s = (Return tt, s') ∧
        members s' = members s ∧
        get_graph (other_graph gt) s' = get_graph (other_graph gt) s ∧
        ∀ x y, weight (get_graph gt s') x y
               = if decide ((x = m ∧ y ∈ l) ∨ (y = m ∧ x ∈ l)) then None
                 else weight (get_graph gt s) x y.
Proof.
  clear set_iter_perm.
  intros Hnd. revert s. induction Hnd as [|o l Ho Hnd IH]; intros s Hm Hall.
  - exists s. split; [done|]. split; [done|]. split; [done|].
    intros x y. rewrite decide_False; [done|].
    intros [[_ H]|[_ H]]; by apply elem_of_nil in H.
  - apply not_elem_of_cons in Hm as [Hmo Hm].
    destruct (Hall o) as [[w1 H1] [w2 H2]]; [by left|].
    set (s1 := set_graph gt (del_edge m o (get_graph gt s)) s).
    assert (H2' : weight (get_graph gt s1) o m = Some w2).
    { unfold s1. rewrite get_set_graph, weight_del_edge.
      by rewrite decide_False by (intros [? _]; done). }
    set (s2 := set_graph gt (del_edge o m (get_graph gt s1)) s1).
    assert (Hw2 : ∀ x y, weight (get_graph gt s2) x y
                         = if decide ((x = m ∧ y = o) ∨ (x = o ∧ y = m)) then None
                           else weight (get_graph gt s) x y).
    { intros x y. unfold s2. rewrite get_set_graph, weight_del_edge.
      unfold s1. rewrite get_set_graph, weight_del_edge.
      repeat case_decide; naive_solver. }
    destruct (IH s2 Hm) as (s' & Hrun & Hmem & Hoth & Hw).
    { intros o' Ho'. rewrite !Hw2.
      assert (o' ≠ o) by (intros ->; done).
      assert (o' ≠ m) by (intros ->; done).
      rewrite !decide_False by naive_solver. apply Hall. by right. }
    exists s'. split.
    { cbn [for_each]. unfold bind at 1. unfold bind at 1.
      rewrite (graph_delitem_run gt m o s w1 H1). fold s1.
      rewrite (graph_delitem_run gt o m s1 w2 H2'). fold s2. exact Hrun. }
    split. { rewrite Hmem. unfold s2, s1. by rewrite !members_set_graph. }
    split. { rewrite Hoth. unfold s2, s1. by rewrite !other_set_graph. }
    intros x y. rewrite Hw, Hw2.
    repeat case_decide; try done; exfalso; set_solver.
Qed.

(** The deletion loop, when an edge of the row lacks its reverse or is a
    self-loop: it stops with [KeyError]. *)
Lemma unlink_loop_fails gt m l s :
  NoDup l →
  (∀ o, o ∈ l → is_Some (weight (get_graph gt s) m o)) →
  (∃ o, o ∈ l ∧ (o = m ∨ weight (get_graph gt s) o m = None)) →
  ∃ s', for_each l (λ other, graph_delitem gt m other ;;;
                             graph_delitem gt other m) s = (Raise KeyError, s') ∧
        members s' = members s.
Proof.
  clear set_iter_perm.
  intros Hnd. revert s. induction Hnd as [|o l Ho Hnd IH]; intros s Hall Hbad.
  - destruct Hbad as (o & Ho & _). by apply elem_of_nil in Ho.
  - destruct (Hall o) as [w1 H1]; [by left|].
    set (s1 := set_graph gt (del_edge m o (get_graph gt s)) s).
    cbn [for_each]. unfold bind at 1. unfold bind at 1.
    rewrite (graph_delitem_run gt m o s w1 H1). fold s1.
    destruct (weight (get_graph gt s1) o m) as [w2|] eqn:H2.
    + set (s2 := set_graph gt (del_edge o m (get_graph gt s1)) s1).
      rewrite (graph_delitem_run gt o m s1 w2 H2). fold s2.
      assert (Hom : o ≠ m).
      { intros ->. unfold s1 in H2. rewrite get_set_graph, weight_del_edge in H2.
        by rewrite decide_True in H2. }
      assert (H2' : weight (get_graph gt s) o m = Some w2).
      { unfold s1 in H2. rewrite get_set_graph, weight_del_edge in H2.
        by rewrite decide_False in H2 by (intros [? _]; done). }
      assert (Hw2 : ∀ x y, weight (get_graph gt s2) x y
                           = if decide ((x = m ∧ y = o) ∨ (x = o ∧ y = m)) then None
                             else weight (get_graph gt s) x y).
      { intros x y. unfold s2. rewrite get_set_graph, weight_del_edge.
        unfold s1. rewrite get_set_graph, weight_del_edge.
        repeat case_decide; naive_solver. }
      destruct (IH s2) as (s' & Hrun & Hmem).
      * intros o' Ho'. rewrite Hw2.
        assert (o' ≠ o) by (intros ->; done).
        rewrite decide_False by naive_solver. apply Hall. by right.
      * destruct Hbad as (b & [->|Hb]%elem_of_cons & Hbad).
        { destruct Hbad as [?|Hnone]; [done | congruence]. }
        exists b. split; [done|]. destruct Hbad as [?|Hnone]; [by left|].
        right. rewrite Hw2. case_decide; [done | exact Hnone].
      * exists s'. split; [exact Hrun|]. rewrite Hmem.
        unfold s2, s1. by rewrite !members_set_graph.
    + rewrite (graph_delitem_missing gt o m s1 H2).
      eexists. split; [reflexivity|]. unfold s1. by rewrite !members_set_graph.
Qed.

End RemoveMember.

Lemma bind_Return {St A B} (m : M St A) (k : A → M St B) s a s' :
  m s = (Return a, s') → bind m k s = k a s'.
Proof. unfold bind. by intros ->. Qed.

Lemma bind_Raise {St A B} (m : M St A) (k : A → M St B) s e s' :
  m s = (Raise e, s') → bind m k s = (Raise e, s').
Proof. unfold bind. by intros ->. Qed.

Section RemoveMemberOutcome.

Variable set_iter : gset string → list string.
Hypothesis set_iter_perm : ∀ X, set_iter X ≡ₚ elements X.

(** Every edge out of [m] in the graph has its reverse, and is no
    self-loop. *)
Definition paired (gt : graph_type) (m : string) (s : FlexiblePaymentSystem) : Prop :=
  ∀ o, is_Some (weight (get_graph gt s) m o) →
       o ≠ m ∧ is_Some (weight (get_graph gt s) o m).

(** Some edge out of [m] is a self-loop or lacks its reverse. *)
Definition unpaired (gt : graph_type) (m : string) (s : FlexiblePaymentSystem) : Prop :=
  ∃ o, is_Some (weight (get_graph gt s) m o) ∧
       (o = m ∨ weight (get_graph gt s) o m = None).

Lemma elem_of_row_keys gt m s o :
  o ∈ set_iter (dom (row_of m (touch m (get_graph gt s))))
  ↔ is_Some (weight (get_graph gt s) m o).
Proof.
  rewrite (elem_of_set_iter set_iter set_iter_perm), elem_of_dom.
  by rewrite row_of_touch, row_of_lookup.
Qed.

Lemma clear_edges_run gt m s :
  paired gt m s →
  ∃ s', clear_edges set_iter gt m s = (Return tt, s') ∧
        members s' = members s ∧
        get_graph (other_graph gt) s' = get_graph (other_graph gt) s ∧
        ∀ x y, weight (get_graph gt s') x y
               = if decide (x = m ∨ (y = m ∧ is_Some (weight (get_graph gt s) m x)))
                 then None else weight (get_graph gt s) x y.
Proof.
  intros Hp. unfold clear_edges, bind at 1, graph_getitem at 1. cbv beta iota zeta.
  set (l := set_iter (dom (row_of m (touch m (get_graph gt s))))).
  set (s0 := set_graph gt (touch m (get_graph gt s)) s).
  assert (Hw0 : ∀ x y, weight (get_graph gt s0) x y = weight (get_graph gt s) x y).
  { intros x y. unfold s0. by rewrite get_set_graph, weight_touch. }
  destruct (unlink_loop_run gt m l s0) as (s' & Hrun & Hmem & Hoth & Hw).
  - apply (set_iter_NoDup set_iter set_iter_perm).
  - intros Hin. apply elem_of_row_keys in Hin. by destruct (Hp m Hin).
  - intros o Ho. apply elem_of_row_keys in Ho. rewrite !Hw0.
    split; [done|]. by destruct (Hp o Ho).
  - exists s'. split; [exact Hrun|].
    split. { rewrite Hmem. unfold s0. by rewrite members_set_graph. }
    split. { rewrite Hoth. unfold s0. by rewrite other_set_graph. }
    intros x y. rewrite Hw, Hw0.
    destruct (decide ((x = m ∧ y ∈ l) ∨ (y = m ∧ x ∈ l))) as [H2|H2];
      destruct (decide (x = m ∨ (y = m ∧ is_Some (weight (get_graph gt s) m x))))
        as [H1|H1]; try done.
    + exfalso. apply H1. destruct H2 as [[-> _]|[-> Hx]]; [by left|].
      right. split; [done|]. by apply elem_of_row_keys.
    + destruct H1 as [->|[-> Hx]].
      * destruct (weight (get_graph gt s) m y) eqn:E; [|done].
        exfalso. apply H2. left. split; [done|]. apply elem_of_row_keys.
        by rewrite E.
      * exfalso. apply H2. right. split; [done|]. by apply elem_of_row_keys.
Qed.

Lemma clear_edges_fails gt m s :
  unpaired gt m s →
  ∃ s', clear_edges set_iter gt m s = (Raise KeyError, s') ∧ members s' = members s.
Proof.
  intros (o & Ho & Hbad). unfold clear_edges, bind at 1, graph_getitem at 1.
  cbv beta iota zeta.
  set (l := set_iter (dom (row_of m (touch m (get_graph gt s))))).
  set (s0 := set_graph gt (touch m (get_graph gt s)) s).
  assert (Hw0 : ∀ x y, weight (get_graph gt s0) x y = weight (get_graph gt s) x y).
  { intros x y. unfold s0. by rewrite get_set_graph, weight_touch. }
  destruct (unlink_loop_fails gt m l s0) as (s' & Hrun & Hmem).
  - apply (set_iter_NoDup set_iter set_iter_perm).
  - intros o' Ho'. apply elem_of_row_keys in Ho'. by rewrite Hw0.
  - exists o. split; [by apply elem_of_row_keys|]. by rewrite Hw0.
  - exists s'. split; [exact Hrun|]. rewrite Hmem. unfold s0.
    by rewrite members_set_graph.
Qed.

Lemma drop_empty_row_run gt m s :
  (∀ y, weight (get_graph gt s) m y = None) →
  drop_empty_row gt m s = (Return tt, set_graph gt (delete m (get_graph gt s)) s).
Proof.
  intros Hrow. unfold drop_empty_row, bind, graph_getitem. cbv beta iota zeta.
  assert (row_of m (touch m (get_graph gt s)) = ∅) as ->.
  { apply map_empty. intros y. by rewrite row_of_touch, row_of_lookup. }
  rewrite map_size_empty. simpl. unfold modify.
  rewrite get_set_graph, set_set_graph. do 2 f_equal.
  unfold touch. destruct (get_graph gt s !! m) eqn:E; [done|].
  by rewrite delete_insert_eq.
Qed.

Lemma weight_delete_row m (g : graph) x y :
  (∀ y, weight g m y = None) → weight (delete m g) x y = weight g x y.
Proof.
  intros Hrow. unfold weight. destruct (decide (x = m)) as [->|Hx].
  - rewrite lookup_delete_eq. simpl. symmetry. apply Hrow.
  - by rewrite lookup_delete_ne.
Qed.

Lemma paired_ext gt m s s' :
  (∀ x y, weight (get_graph gt s') x y = weight (get_graph gt s) x y) →
  paired gt m s → paired gt m s'.
Proof. intros Hw Hp o. rewrite !Hw. apply Hp. Qed.

Lemma unpaired_ext gt m s s' :
  (∀ x y, weight (get_graph gt s') x y = weight (get_graph gt s) x y) →
  unpaired gt m s → unpaired gt m s'.
Proof. intros Hw (o & Ho & Hbad). exists o. by rewrite !Hw. Qed.

(** The state in which [remove_member] starts to delete: the balance has
    been computed and the member taken out of [members]. *)
Lemma remove_member_passes_check m s :
  m ∈ members s →
  (Qabs (net_balance_in set_iter original s m) <= eps)%Q →
  ∃ s2, members s2 = members s ∖ {[m]} ∧
        (∀ gt x y, weight (get_graph gt s2) x y = weight (get_graph gt s) x y) ∧
        remove_member set_iter m s
        = (clear_edges set_iter original m ;;;
           clear_edges set_iter optimized m ;;;
           drop_empty_row original m ;;;
           drop_empty_row optimized m ;;;
           ret true) s2.
Proof.
  clear set_iter_perm.
  intros Hm Hbal. rewrite net_balance_in_spec in Hbal.
  unfold remove_member. unfold bind at 1, get at 1. cbv beta iota.
  rewrite decide_True by done.
  rewrite (bind_Return _ _ _ _ _ (get_net_balance_spec set_iter m original s)).
  apply Qltb_ge in Hbal. cbn [get_graph] in *. rewrite Hbal.
  set (s1 := set_graph original
               (touched (set_iter (members s)) m (original_debts s)) s).
  exists (set_members (members s1 ∖ {[m]}) s1).
  split; [done|]. split; [|done].
  intros [] x y; simpl; [apply touched_weight | done].
Qed.



End RemoveMemberOutcome.

(** *** Reading the graphs: [get_member_debts], [get_total_debts] *)

(** [self.original_debts if graph_type == 'original' else self.optimized_debts] *)
Definition select_graph (name : string) : graph_type :=
  if decide (name = "original") then original else optimized.

(** [get_member_debts]: [dict(graph[member_id])], a copy of the row; the
    look-up is one on a [defaultdict]. *)
Definition get_member_debts (member_id : string) (name : string)
  : M FlexiblePaymentSystem row :=
  graph_getitem (select_graph name) member_id.

Section Reading.

Variable set_iter : gset string → list string.
Hypothesis set_iter_perm : ∀ X, set_iter X ≡ₚ elements X.

(** [get_total_debts]:
    [{member: dict(graph[member]) for member in self.members}]. *)
Definition get_total_debts (name : string)
  : M FlexiblePaymentSystem (gmap string row) :=
  s <- get ;;
  fold_M (λ (acc : gmap string row) member,
            r <- graph_getitem (select_graph name) member ;;
            ret (<[member := r]> acc)) ∅ (set_iter (members s)).

Lemma total_debts_loop gt l (acc : gmap string row) s :
  fold_M (λ (acc : gmap string row) member,
            r <- graph_getitem gt member ;;
            ret (<[member := r]> acc)) acc l s
  = (Return (foldl (λ (acc : gmap string row) m,
                      <[m := row_of m (get_graph gt s)]> acc) acc l),
     set_graph gt (touch_list l (get_graph gt s)) s).
Proof.
  revert acc s. induction l as [|x l IH]; intros acc s; simpl.
  - by rewrite set_get_graph.
  - unfold bind at 1. unfold bind at 1, graph_getitem at 1. cbv beta iota zeta.
    unfold ret at 1. rewrite IH, get_set_graph, set_set_graph, row_of_touch.
    do 2 f_equal. apply foldl_pointwise. intros acc' m.
    by rewrite row_of_touch_any.
Qed.

Lemma lookup_foldl_rows (g : graph) l (acc : gmap string row) m :
  foldl (λ (acc : gmap string row) m, <[m := row_of m g]> acc) acc l !! m
  = if decide (m ∈ l) then Some (row_of m g) else acc !! m.
Proof.
  revert acc. induction l as [|x l IH]; intros acc; cbn [foldl].
  - case_decide as H; [by apply elem_of_nil in H | done].
  - rewrite IH. destruct (decide (m ∈ l)) as [Hin|Hout].
    + rewrite decide_True; [done | by right].
    + destruct (decide (m = x)) as [->|Hne].
      * rewrite decide_True by by left. apply lookup_insert_eq.
      * rewrite decide_False by (intros [?|?]%elem_of_cons; done).
        by apply lookup_insert_ne.
Qed.

(** X8.  [get_total_debts] never raises.  The snapshot has one key per
    member, holding that member's row of the selected graph (empty when
    the member has none); rows of names that are not members are left out.
    The graph selected is [original_debts] for the name "original" and
    [optimized_debts] for every other name.  No member and no entry of
    either graph changes. *)
Theorem get_total_debts_snapshot (name : string) (s : FlexiblePaymentSystem) :
  ∃ res s', get_total_debts name s = (Return res, s') ∧
            (∀ m r, res !! m = Some r
                    ↔ m ∈ members s ∧ r = row_of m (get_graph (select_graph name) s)) ∧
            members s' = members s ∧
            ∀ gt a b, weight (get_graph gt s') a b = weight (get_graph gt s) a b.
Proof.
  unfold get_total_debts, bind at 1, get at 1. cbv beta iota.
  rewrite total_debts_loop. eexists _, _. split; [reflexivity|]. split; [|split].
  - intros m r. rewrite lookup_foldl_rows, lookup_empty.
    rewrite <- (elem_of_set_iter set_iter set_iter_perm).
    case_decide; naive_solver.
  - apply members_set_graph.
  - intros gt a b. destruct (select_graph name), gt; simpl;
      first [apply touch_list_weight | done].
Qed.

End Reading.

(** The calls of the [try] block of [MoneyTransactionHandler.execute]
    (handlers/handler.py), once the command is parsed:
    [update(left, right, final_amount)], [optimized_payment_process()],
    [debts = get_member_debts(left)]. *)
Definition record_transaction (set_iter : gset string → list string)
    (left right : string) (final_amount : Q) : M FlexiblePaymentSystem row :=
  update left right final_amount ;;;
  _ <- optimized_payment_process set_iter ;;
  get_member_debts left "original".


(** *** Concrete ledgers for the properties above *)

(** "A" owes "B" 5 and "B" owes "A" 5. *)
Definition ledger_mutual : FlexiblePaymentSystem :=
  (update "B" "A" 5 (update "A" "B" 5 (new_system "g")).2).2.

(** "A" owes "B" 5 and "C" owes "A" 5. *)
Definition ledger_chain : FlexiblePaymentSystem :=
  (update "C" "A" 5 (update "A" "B" 5 (new_system "g")).2).2.

Lemma new_system_within gid : edges_within_members (new_system gid).
Proof. intros x y [w Hw]. by vm_compute in Hw. Qed.





Lemma get_total_debts_snapshot_witness :
  ∃ res s', get_total_debts elements "original" ledger_example = (Return res, s') ∧
            res !! "B" = Some {[ "A" := 30%Q ]}.
Proof.
  destruct (get_total_debts_snapshot elements (λ X, reflexivity (elements X))
              "original" ledger_example) as (res & s' & Hrun & Hres & _).
  exists res, s'. split; [done|]. apply Hres. split; by vm_compute.
Defined.

(** *** [force_remove_member] and the corrective entry *)

Lemma graph_setitem_run gt a b x s :
  graph_setitem gt a b x s
  = (Return tt, set_graph gt (set_edge a b x (get_graph gt s)) s).
Proof.
  unfold graph_setitem, bind, graph_getitem, modify. cbv zeta.
  rewrite get_set_graph, set_set_graph, row_of_touch. do 2 f_equal.
  unfold set_edge, touch. destruct (get_graph gt s !! a) eqn:E; [done|].
  by rewrite insert_insert_eq.
Qed.

(** Assigning the entries [(o, m)] and [(m, o)], seen from [m]. *)
Lemma net_of_assign_in ms m o x g :
  NoDup ms → o ∈ ms → o ≠ m →
  (net_of ms m (set_edge o m x g) == net_of ms m g + (x - wt g o m))%Q.
Proof.
  intros Hnd Ho Hom. rewrite !net_of_sum.
  rewrite (Qsum_update (λ o', wt g o' m) (λ o', wt (set_edge o m x g) o' m) ms o Hnd Ho).
  - rewrite (Qsum_ext (wt (set_edge o m x g) m) (wt g m) ms).
    + rewrite wt_set_edge, decide_True by done. ring.
    + intros o' _. rewrite wt_set_edge.
      rewrite decide_False by (intros [? _]; congruence). reflexivity.
  - intros o' _ Hne. rewrite wt_set_edge.
    rewrite decide_False by (intros [? _]; done). reflexivity.
Qed.

Lemma net_of_assign_out ms m o x g :
  NoDup ms → o ∈ ms → o ≠ m →
  (net_of ms m (set_edge m o x g) == net_of ms m g - (x - wt g m o))%Q.
Proof.
  intros Hnd Ho Hom. rewrite !net_of_sum.
  rewrite (Qsum_update (wt g m) (wt (set_edge m o x g) m) ms o Hnd Ho).
  - rewrite (Qsum_ext (λ o', wt (set_edge m o x g) o' m) (λ o', wt g o' m) ms).
    + rewrite wt_set_edge, decide_True by done. ring.
    + intros o' _. rewrite wt_set_edge.
      rewrite decide_False by (intros [_ ?]; congruence). reflexivity.
  - intros o' _ Hne. rewrite wt_set_edge.
    rewrite decide_False by (intros [_ ?]; done). reflexivity.
Qed.

Section ForceRemove.

Variable set_iter : gset string → list string.
Hypothesis set_iter_perm : ∀ X, set_iter X ≡ₚ elements X.

Lemma remove_member_check_fails m s :
  m ∈ members s →
  (eps < Qabs (net_of (set_iter (members s)) m (original_debts s)))%Q →
  ∃ s', remove_member set_iter m s = (Raise ValueError, s') ∧
        members s' = members s ∧
        ∀ a b, weight (original_debts s') a b = weight (original_debts s) a b.
Proof.
  clear set_iter_perm.
  intros Hm Hbal. unfold remove_member. unfold bind at 1, get at 1. cbv beta iota.
  rewrite decide_True by done.
  rewrite (bind_Return _ _ _ _ _ (get_net_balance_spec set_iter m original s)).
  apply Qltb_lt in Hbal. cbn [get_graph]. rewrite Hbal.
  eexists. split; [reflexivity|]. split; [done|].
  intros a b. apply touched_weight.
Qed.

Lemma first_other_Some m ms o : first_other m ms = Some o → o ∈ ms ∧ o ≠ m.
Proof.
  unfold first_other. intros H.
  assert (o ∈ filter (λ o, o ≠ m) ms) as Hin.
  { destruct (filter (λ o, o ≠ m) ms) as [|x l]; [done|].
    injection H as ->. by left. }
  by apply list_elem_of_filter in Hin as [? ?].
Qed.

(** The tail of [force_remove_member] after the corrective entry is
    written: the plan is recomputed and the balance checked again. *)
Lemma reoptimize_then_refuse m s :
  m ∈ members s →
  (eps < Qabs (net_of (set_iter (members s)) m (original_debts s)))%Q →
  ∃ s1 s', (_ <- optimized_payment_process set_iter ;; ret tt) s = (Return tt, s1) ∧
        remove_member set_iter m s1 = (Raise ValueError, s') ∧
        members s' = members s ∧
        ∀ a b, weight (original_debts s') a b = weight (original_debts s) a b.
Proof.
  clear set_iter_perm.
  intros Hm Hbal.
  destruct (optimized_payment_process_runs set_iter s) as (p & s1 & Hrun & Hm1 & Hw1).
  destruct (remove_member_check_fails m s1) as (s' & Hrem & Hm' & Hw').
  { by rewrite Hm1. }
  { rewrite Hm1. by rewrite (net_of_ext _ _ _ (original_debts s)). }
  exists s1, s'. split; [by rewrite (bind_Return _ _ _ _ _ Hrun)|].
  split; [done|]. split; [congruence|]. intros a b. by rewrite Hw', Hw1.
Qed.


End ForceRemove.

Section Replan.

Variable set_iter : gset string → list string.

Lemma plan_ext ms (net net' : string → Q) :
  (∀ m, m ∈ ms → net m = net' m) → plan ms net = plan ms net'.
Proof.
  intros H. unfold plan. replace (balances net' ms) with (balances net ms); [done|].
  unfold balances. apply list_fmap_ext. intros i m Hm. f_equal. apply H.
  by eapply list_elem_of_lookup_2.
Qed.

(** X26.  Recomputing the plan when nothing was recorded in between gives
    the same plan again: the rows that the first call creates in
    [original_debts] while reading the balances do not change what the
    second call returns or stores. *)
Theorem optimized_payment_process_again (s : FlexiblePaymentSystem) :
  ∃ p s1 s2, optimized_payment_process set_iter s = (Return p, s1) ∧
             optimized_payment_process set_iter s1 = (Return p, s2) ∧
             optimized_debts s2 = optimized_debts s1 ∧
             members s2 = members s.
Proof.
  destruct (decide (members s = ∅)) as [He|Hne].
  { exists ∅, s, s. by rewrite optimized_payment_process_no_members. }
  destruct (optimized_payment_process_spec set_iter s Hne)
    as (s1 & (Hm & _ & _ & Hw & _) & Hrun).
  set (p := plan (set_iter (members s)) (net_balance_in set_iter original s)) in *.
  set (s1' := set_graph optimized p s1) in *.
  assert (Hne' : members s1' ≠ ∅) by (unfold s1'; simpl; by rewrite Hm).
  destruct (optimized_payment_process_spec set_iter s1' Hne')
    as (s2 & (Hm2 & _ & _ & _) & Hrun2).
  assert (Hp : plan (set_iter (members s1')) (net_balance_in set_iter original s1') = p).
  { unfold s1' at 1. simpl. rewrite Hm. apply plan_ext. intros m _.
    rewrite !net_balance_in_spec. unfold s1'. simpl. rewrite Hm.
    by apply net_of_ext. }
  rewrite Hp in Hrun2.
  exists p, s1', (set_graph optimized p s2).
  split; [done|]. split; [done|]. split; [done|]. simpl. rewrite Hm2.
  unfold s1'. simpl. done.
Qed.

End Replan.


End Ledger.

(** * The information hub (core/info_hub.py) *)

Module Hub.

(** ** Documents and postings *)

Record Information : Type := mkInformation {
  title : string;
  content : string;
  id : Z;
  deleted : bool;
}.

(** A posting [(doc_id, position)]. *)
Abbreviation posting := (Z * Z)%type.
Abbreviation index := (gmap string (list (Z * Z))).

Record InformationHub : Type := mkHub {
  documents : list (option Information);
  next_id : Z;
  group_id : string;
  group_prefix : Z;
  deleted_ids : gset Z;
  title_index : index;
  content_index : index;
  doc_title_words : gmap Z (gset string);
  doc_content_words : gmap Z (gset string);
}.

(** The title and the content are indexed by the same code, written twice
    in the source; [field] names the copy. *)
Inductive field : Set := Title | Content.

Definition text (f : field) (doc : Information) : string :=
  match f with Title => title doc | Content => content doc end.

Definition get_index (f : field) (h : InformationHub) : index :=
  match f with Title => title_index h | Content => content_index h end.

Definition get_words (f : field) (h : InformationHub) : gmap Z (gset string) :=
  match f with Title => doc_title_words h | Content => doc_content_words h end.

Definition set_index (f : field) (idx : index) (h : InformationHub) : InformationHub :=
  match f with
  | Title => mkHub (documents h) (next_id h) (group_id h) (group_prefix h)
               (deleted_ids h) idx (content_index h)
               (doc_title_words h) (doc_content_words h)
  | Content => mkHub (documents h) (next_id h) (group_id h) (group_prefix h)
               (deleted_ids h) (title_index h) idx
               (doc_title_words h) (doc_content_words h)
  end.

Definition set_words (f : field) (ws : gmap Z (gset string)) (h : InformationHub)
  : InformationHub :=
  match f with
  | Title => mkHub (documents h) (next_id h) (group_id h) (group_prefix h)
               (deleted_ids h) (title_index h) (content_index h)
               ws (doc_content_words h)
  | Content => mkHub (documents h) (next_id h) (group_id h) (group_prefix h)
               (deleted_ids h) (title_index h) (content_index h)
               (doc_title_words h) ws
  end.

Definition set_documents (ds : list (option Information)) (h : InformationHub)
  : InformationHub :=
  mkHub ds (next_id h) (group_id h) (group_prefix h) (deleted_ids h)
        (title_index h) (content_index h) (doc_title_words h) (doc_content_words h).

Definition set_next_id (n : Z) (h : InformationHub) : InformationHub :=
  mkHub (documents h) n (group_id h) (group_prefix h) (deleted_ids h)
        (title_index h) (content_index h) (doc_title_words h) (doc_content_words h).

Definition set_deleted_ids (X : gset Z) (h : InformationHub) : InformationHub :=
  mkHub (documents h) (next_id h) (group_id h) (group_prefix h) X
        (title_index h) (content_index h) (doc_title_words h) (doc_content_words h).

Definition set_deleted (b : bool) (doc : Information) : Information :=
  mkInformation (title doc) (content doc) (id doc) b.

Definition set_text (f : field) (s : string) (doc : Information) : Information :=
  match f with
  | Title => mkInformation s (content doc) (id doc) (deleted doc)
  | Content => mkInformation (title doc) s (id doc) (deleted doc)
  end.

(** ** Python list indexing

    [l[i]] with [0 <= i < len(l)] is the [i]-th element, with
    [-len(l) <= i < 0] it counts from the end, and anything else raises
    [IndexError]. *)
Definition py_index (len : nat) (i : Z) : option nat :=
  if decide (0 ≤ i < Z.of_nat len)%Z then Some (Z.to_nat i)
  else if decide (- Z.of_nat len ≤ i < 0)%Z then Some (Z.to_nat (Z.of_nat len + i))
  else None.

(** ** Tuple comparison and [bisect]

    Postings are compared as Python tuples.  The probe of the range
    deletion, [(doc_id, float('inf'))], has a second component above every
    position; [PosInf] stands for it. *)
Inductive pos_key : Set := Pos (p : Z) | PosInf.

Definition pos_lt (a b : pos_key) : bool :=
  match a, b with
  | Pos p, Pos q => (p <? q)%Z
  | Pos _, PosInf => true
  | PosInf, _ => false
  end.

Definition pos_eq (a b : pos_key) : bool :=
  match a, b with
  | Pos p, Pos q => (p =? q)%Z
  | PosInf, PosInf => true
  | _, _ => false
  end.

Abbreviation key := (Z * pos_key)%type.

Definition key_of (e : Z * Z) : key := (e.1, Pos e.2).

(** [a < b] on tuples: the first components decide unless they are equal. *)
Definition key_lt (a b : key) : bool :=
  if (a.1 =? b.1)%Z then pos_lt a.2 b.2 else (a.1 <? b.1)%Z.

Lemma midpoint_bounds (lo hi : nat) : lo < hi → lo ≤ (lo + hi) / 2 < hi.
Proof.
  intros H. pose proof (Nat.div_mod (lo + hi) 2 ltac:(lia)).
  pose proof (Nat.mod_upper_bound (lo + hi) 2 ltac:(lia)). lia.
Qed.

Section Bisect.

Context {A : Type}.
Variable go_right : A → bool.
Variable a : list A.

(** The loop shared by [bisect_left] and [bisect_right]:
    [while lo < hi: mid = (lo + hi) // 2; if <go right>: lo = mid + 1
    else: hi = mid].  [a[mid]] is always in range when [hi <= len(a)]. *)
Equations? bisect_loop (lo hi : nat) : nat by wf (hi - lo) lt :=
  bisect_loop lo hi with decide (lo < hi) => {
    | right _ => lo
    | left _ with a !! ((lo + hi) / 2) => {
        | None => lo
        | Some e with go_right e => {
            | true => bisect_loop ((lo + hi) / 2 + 1) hi
            | false => bisect_loop lo ((lo + hi) / 2) } } }.
Proof.
  all: change (Nat.divmod (lo + hi) 1 0 1).1 with ((lo + hi) / 2).
  all: pose proof (midpoint_bounds lo hi l); lia.
Qed.

End Bisect.

(** [bisect.bisect_left(a, x)]: go right while [a[mid] < x]. *)
Definition bisect_left (a : list (Z * Z)) (x : key) : nat :=
  bisect_loop (λ e, key_lt (key_of e) x) a 0 (length a).

(** [bisect.bisect_right(a, x)]: go left when [x < a[mid]]. *)
Definition bisect_right (a : list (Z * Z)) (x : key) : nat :=
  bisect_loop (λ e, negb (key_lt x (key_of e))) a 0 (length a).

(** [bisect.insort(a, x)]: [a.insert(bisect_right(a, x), x)]. *)
Definition insort (a : list (Z * Z)) (x : Z * Z) : list (Z * Z) :=
  let lo := bisect_right a (key_of x) in take lo a ++ x :: drop lo a.

(** [for i in reversed(range(left, right)): del entries[i]] *)
Definition del_range (left right : nat) (entries : list (Z * Z)) : list (Z * Z) :=
  foldl (λ l i, delete i l) entries (reverse (seq left (right - left))).

(** [enumerate(l)] *)
Fixpoint enumerate_from {A} (n : nat) (l : list A) : list (nat * A) :=
  match l with
  | [] => []
  | x :: l' => (n, x) :: enumerate_from (S n) l'
  end.

Definition enumerate {A} (l : list A) : list (nat * A) := enumerate_from 0 l.

(** ** Index maintenance *)

(** [idx.get(word, [])], also the list that [idx[word]] yields. *)
Definition postings (idx : index) (word : string) : list (Z * Z) :=
  default [] (idx !! word).

(** The body of the removal loops of [delete_document] and
    [update_document], for one word. *)
Definition remove_postings (doc_id : Z) (idx : index) (word : string) : index :=
  let entries := postings idx word in
  let left := bisect_left entries (doc_id, Pos 0) in
  let right := bisect_right entries (doc_id, PosInf) in
  let entries := del_range left right entries in
  match entries with
  | [] => delete word idx
  | _ => <[word := entries]> idx
  end.

(** [bisect.insort(idx[word], (doc_id, pos))] *)
Definition insert_posting (doc_id : Z) (idx : index) (pw : nat * string) : index :=
  <[pw.2 := insort (postings idx pw.2) (doc_id, Z.of_nat pw.1)]> idx.

(** [words[doc_id].add(word)] on a [defaultdict(set)] *)
Definition add_word (doc_id : Z) (ws : gmap Z (gset string)) (word : string)
  : gmap Z (gset string) :=
  <[doc_id := default ∅ (ws !! doc_id) ∪ {[word]}]> ws.

(** The indexing loop of [add_document] and [update_document] for one
    field: [for pos, word in enumerate(tokens): insort ...; add ...]. *)
Definition index_tokens (f : field) (doc_id : Z) (tokens : list string)
  (h : InformationHub) : InformationHub :=
  foldl (λ h pw,
           set_words f (add_word doc_id (get_words f h) pw.2)
             (set_index f (insert_posting doc_id (get_index f h) pw) h))
        h (enumerate tokens).

(** The removal loop for one field: [for word in words: ...]. *)
Definition unindex_words (f : field) (doc_id : Z) (words : list string)
  (h : InformationHub) : InformationHub :=
  foldl (λ h word, set_index f (remove_postings doc_id (get_index f h) word) h)
        h words.

(** [get_document]: it neither raises nor writes. *)
Definition get_document (doc_id : Z) (h : InformationHub) : option Information :=
  if decide (doc_id < 1 ∨ doc_id > Z.of_nat (length (documents h)))%Z then None
  else match documents h !! Z.to_nat (doc_id - 1) with
       | Some (Some doc) => if deleted doc then None else Some doc
       | _ => None
       end.

Section Operations.

(** [_tokenize]: [re.findall(r'\b\w+\b', text.lower())]. *)
Variable tokenize : string → list string.
(** Python's [hash] on strings. *)
Variable hash : string → Z.
(** The order in which a set of words, and a set of ids, is iterated. *)
Variable iter_words : gset string → list string.
Variable iter_ids : gset Z → list Z.

Abbreviation St := InformationHub.

(** [InformationHub(group_id)] *)
Definition new_hub (gid : string) : InformationHub :=
  {| documents := []; next_id := 1; group_id := gid;
     group_prefix := (Z.abs (hash gid) mod 1000)%Z;
     deleted_ids := ∅; title_index := ∅; content_index := ∅;
     doc_title_words := ∅; doc_content_words := ∅ |}.

(** [self.documents[i]] *)
Definition documents_getitem (i : Z) : M St (option Information) :=
  h <- get ;;
  match py_index (length (documents h)) i with
  | Some n => match documents h !! n with
              | Some d => ret d
              | None => raise IndexError
              end
  | None => raise IndexError
  end.

(** [self.documents[i] = d] *)
Definition documents_setitem (i : Z) (d : option Information) : M St unit :=
  h <- get ;;
  match py_index (length (documents h)) i with
  | Some n => modify (set_documents (<[n := d]> (documents h)))
  | None => raise IndexError
  end.

(** [set.pop()] removes and returns an arbitrary element, here the first
    in iteration order; on an empty set it raises [KeyError]. *)
Definition _allocate_id : M St Z :=
  h <- get ;;
  if decide (deleted_ids h ≠ ∅) then
    match iter_ids (deleted_ids h) with
    | x :: _ => modify (set_deleted_ids (deleted_ids h ∖ {[x]})) ;;; ret x
    | [] => raise KeyError
    end
  else
    let id_val := next_id h in
    modify (set_next_id (next_id h + 1)%Z) ;;;
    if decide (id_val > 999)%Z then raise OverflowError
    else ret (group_prefix h * 1000 + id_val)%Z.

(** [while len(self.documents) < doc_id: self.documents.append(None)] *)
Definition pad_documents (doc_id : Z) (h : InformationHub) : InformationHub :=
  set_documents
    (documents h ++ replicate (Z.to_nat (doc_id - Z.of_nat (length (documents h)))) None) h.

Definition add_document (t c : string) : M St Z :=
  doc_id <- _allocate_id ;;
  modify (pad_documents doc_id) ;;;
  documents_setitem (doc_id - 1) (Some (mkInformation t c doc_id false)) ;;;
  modify (index_tokens Title doc_id (tokenize t)) ;;;
  modify (index_tokens Content doc_id (tokenize c)) ;;;
  ret doc_id.

(** The look-up [self.doc_<field>_words[doc_id]] of the removal loops
    creates the entry when it is missing. *)
Definition words_getitem (f : field) (doc_id : Z) : M St (gset string) :=
  h <- get ;;
  let ws := default ∅ (get_words f h !! doc_id) in
  modify (set_words f (<[doc_id := ws]> (get_words f h))) ;;;
  ret ws.

Definition unindex (f : field) (doc_id : Z) : M St unit :=
  ws <- words_getitem f doc_id ;;
  modify (unindex_words f doc_id (iter_words ws)).

Definition delete_document (doc_id : Z) : M St bool :=
  h <- get ;;
  if decide (doc_id < 1 ∨ doc_id > Z.of_nat (length (documents h)))%Z then ret false else
  slot <- documents_getitem (doc_id - 1) ;;
  match slot with
  | None => ret false
  | Some doc =>
    if deleted doc then ret false else
    documents_setitem (doc_id - 1) (Some (set_deleted true doc)) ;;;
    unindex Title doc_id ;;;
    unindex Content doc_id ;;;
    modify (λ h, set_words Title (delete doc_id (doc_title_words h)) h) ;;;
    modify (λ h, set_words Content (delete doc_id (doc_content_words h)) h) ;;;
    modify (λ h, set_deleted_ids (deleted_ids h ∪ {[doc_id]}) h) ;;;
    ret true
  end.

Definition update_document (doc_id : Z) (new_title new_content : option string)
  : M St bool :=
  h <- get ;;
  if decide (doc_id < 1 ∨ doc_id > Z.of_nat (length (documents h)))%Z then ret false else
  slot <- documents_getitem (doc_id - 1) ;;
  match slot with
  | None => ret false
  | Some doc =>
    if deleted doc then ret false else
    unindex Title doc_id ;;;
    unindex Content doc_id ;;;
    modify (λ h, set_words Title (<[doc_id := ∅]> (doc_title_words h)) h) ;;;
    modify (λ h, set_words Content (<[doc_id := ∅]> (doc_content_words h)) h) ;;;
    let doc := match new_title with Some t => set_text Title t doc | None => doc end in
    let doc := match new_content with Some c => set_text Content c doc | None => doc end in
    documents_setitem (doc_id - 1) (Some doc) ;;;
    modify (index_tokens Title doc_id (tokenize (title doc))) ;;;
    modify (index_tokens Content doc_id (tokenize (content doc))) ;;;
    ret true
  end.

(** [_filter_deleted]: the list comprehension, element by element. *)
Fixpoint _filter_deleted (doc_ids : list Z) : M St (list Z) :=
  match doc_ids with
  | [] => ret []
  | doc_id :: rest =>
    h <- get ;;
    keep <- (if decide (doc_id ≤ Z.of_nat (length (documents h)))%Z then
               slot <- documents_getitem (doc_id - 1) ;;
               match slot with
               | Some doc => ret (negb (deleted doc))
               | None => ret false
               end
             else ret false) ;;
    kept <- _filter_deleted rest ;;
    ret (if keep : bool then doc_id :: kept else kept)
  end.

(** [results.append(self.documents[doc_id - 1])] for each id. *)
Fixpoint collect (doc_ids : list Z) : M St (list (option Information)) :=
  match doc_ids with
  | [] => ret []
  | doc_id :: rest =>
    slot <- documents_getitem (doc_id - 1) ;;
    more <- collect rest ;;
    ret (slot :: more)
  end.

Definition matches (idx : index) (term : string) : gset Z :=
  list_to_set (postings idx term).*1.

Definition search (keyword : string) : M St (list (option Information)) :=
  h <- get ;;
  match tokenize keyword with
  | [] => ret []
  | search_term :: _ =>
    let title_matches := matches (title_index h) search_term in
    let content_matches := matches (content_index h) search_term in
    let content_only_matches := content_matches ∖ title_matches in
    title_ids <- _filter_deleted (iter_ids title_matches) ;;
    content_ids <- _filter_deleted (iter_ids content_only_matches) ;;
    first <- collect title_ids ;;
    second <- collect content_ids ;;
    ret (first ++ second)
  end.

End Operations.

(** ** The order on postings *)

(** [a < b] on postings, as a proposition. *)
Definition plt (a b : Z * Z) : Prop := (a.1 < b.1 ∨ (a.1 = b.1 ∧ a.2 < b.2))%Z.

(** [a < b] on keys, as a proposition. *)
Definition klt (a b : key) : Prop :=
  (a.1 < b.1)%Z ∨ (a.1 = b.1 ∧ pos_lt a.2 b.2 = true).

Lemma key_lt_klt a b : key_lt a b = true ↔ klt a b.
Proof.
  unfold key_lt, klt. destruct (Z.eqb_spec a.1 b.1) as [He|Hne].
  - split; [by right | intros [?|[_ ?]]; [lia | done]].
  - rewrite Z.ltb_lt. split; [by left | intros [?|[? _]]; [done | lia]].
Qed.

Lemma pos_lt_trans a b c : pos_lt a b = true → pos_lt b c = true → pos_lt a c = true.
Proof.
  destruct a, b, c; simpl; try done. rewrite !Z.ltb_lt. lia.
Qed.

Lemma pos_lt_irrefl a : pos_lt a a = false.
Proof. destruct a; simpl; [apply Z.ltb_irrefl | done]. Qed.

Lemma klt_trans a b c : klt a b → klt b c → klt a c.
Proof.
  unfold klt. intros [H1|[H1 H1']] [H2|[H2 H2']].
  - left. lia.
  - left. lia.
  - left. lia.
  - right. split; [lia | by eapply pos_lt_trans].
Qed.

Lemma klt_key_of a b : klt (key_of a) (key_of b) ↔ plt a b.
Proof. unfold klt, plt, key_of. simpl. by rewrite Z.ltb_lt. Qed.

Global Instance plt_trans : Transitive plt.
Proof. intros a b c. rewrite <- !klt_key_of. apply klt_trans. Qed.

Lemma plt_irrefl a : ¬ plt a a.
Proof. unfold plt. lia. Qed.

Lemma plt_trichotomy a b : plt a b ∨ a = b ∨ plt b a.
Proof.
  destruct a as [a1 a2], b as [b1 b2]. unfold plt. simpl.
  destruct (Z.lt_trichotomy a1 b1) as [?|[->|?]]; [by left; left | | by right; right; left].
  destruct (Z.lt_trichotomy a2 b2) as [?|[->|?]].
  - left. right. done.
  - right. left. done.
  - right. right. right. done.
Qed.

Lemma StronglySorted_lookup_lt {A} (R : relation A) (l : list A) i j x y :
  StronglySorted R l → i < j → l !! i = Some x → l !! j = Some y → R x y.
Proof.
  intros Hs. revert i j. induction Hs as [|z l Hs IH Hall]; intros i j Hij Hi Hj.
  - done.
  - destruct j as [|j]; [lia|]. destruct i as [|i]; simpl in *.
    + injection Hi as ->. rewrite Forall_forall in Hall. apply Hall.
      by eapply list_elem_of_lookup_2.
    + apply (IH i j); [lia | done | done].
Qed.

Lemma StronglySorted_NoDup_plt (l : list (Z * Z)) : StronglySorted plt l → NoDup l.
Proof.
  induction 1 as [|x l Hs IH Hall]; [constructor|].
  apply NoDup_cons. split; [|done].
  intros Hx. rewrite Forall_forall in Hall. by apply (plt_irrefl x), Hall.
Qed.

(** Two increasing lists with the same elements are the same list. *)
Lemma StronglySorted_plt_ext (l k : list (Z * Z)) :
  StronglySorted plt l → StronglySorted plt k → (∀ e, e ∈ l ↔ e ∈ k) → l = k.
Proof.
  intros Hl Hk Hext.
  apply (StronglySorted_unique_strong plt); [|done|done|].
  - intros x y _ _ Hxy Hyx. exfalso. apply (plt_irrefl x). by etrans.
  - apply NoDup_Permutation; auto using StronglySorted_NoDup_plt.
Qed.

(** ** Binary search on a list that is split by the test *)

Section BisectSpec.

Context {A : Type}.
Variable go_right : A → bool.
Variable a : list A.

(** The test holds on a prefix of [a] and fails on the rest. *)
Hypothesis split_by_test : ∀ i j x y,
  i ≤ j → a !! i = Some x → a !! j = Some y → go_right y = true → go_right x = true.

Lemma bisect_loop_spec lo hi :
  lo ≤ hi ≤ length a →
  (∀ i x, i < lo → a !! i = Some x → go_right x = true) →
  (∀ i x, hi ≤ i → a !! i = Some x → go_right x = false) →
  lo ≤ bisect_loop go_right a lo hi ≤ hi ∧
  (∀ i x, i < bisect_loop go_right a lo hi → a !! i = Some x → go_right x = true) ∧
  (∀ i x, bisect_loop go_right a lo hi ≤ i → a !! i = Some x → go_right x = false).
Proof.
  funelim (bisect_loop go_right a lo hi); intros Hb Hlo Hhi.
  - assert (lo = hi) as -> by lia. split; [lia|]. split; [done|done].
  - exfalso. pose proof (midpoint_bounds lo hi l).
    apply lookup_ge_None in Heq. lia.
  - pose proof (midpoint_bounds lo hi l) as Hm.
    destruct H as (H1 & H2 & H3).
    + lia.
    + intros i x Hi Hx. eapply (split_by_test i ((lo + hi) / 2)); eauto. lia.
    + done.
    + split; [lia|]. split; done.
  - pose proof (midpoint_bounds lo hi l) as Hm.
    destruct H as (H1 & H2 & H3).
    + lia.
    + done.
    + intros i x Hi Hx. destruct (go_right x) eqn:Hgx; [|done].
      rewrite (split_by_test ((lo + hi) / 2) i e x) in Heq; eauto.
    + split; [lia|]. split; done.
Qed.

(** The index found cuts [a] into the elements that pass the test and
    those that fail it. *)
Lemma bisect_loop_cut :
  Forall (λ x, go_right x = true) (take (bisect_loop go_right a 0 (length a)) a) ∧
  Forall (λ x, go_right x = false) (drop (bisect_loop go_right a 0 (length a)) a) ∧
  bisect_loop go_right a 0 (length a) ≤ length a.
Proof.
  destruct (bisect_loop_spec 0 (length a)) as (Hr & Ht & Hd).
  { lia. } { intros; lia. } { intros i x Hi Hx. apply lookup_lt_Some in Hx. lia. }
  set (r := bisect_loop go_right a 0 (length a)) in *.
  split; [|split; [|lia]].
  - apply Forall_lookup. intros i x Hx.
    destruct (decide (i < r)) as [Hi|Hi].
    + rewrite lookup_take_lt in Hx by done. by eapply Ht.
    + rewrite lookup_take_ge in Hx by lia. done.
  - apply Forall_lookup. intros i x Hx. rewrite lookup_drop in Hx.
    apply (Hd (r + i) x); [lia | done].
Qed.

End BisectSpec.

(** ** Lists of postings *)

Lemma filter_all {A} (P : A → Prop) `{∀ x, Decision (P x)} (l : list A) :
  Forall P l → filter P l = l.
Proof.
  induction 1 as [|x l Hx Hl IH]; [done|]. by rewrite filter_cons_True, IH.
Qed.

Lemma filter_none {A} (P : A → Prop) `{∀ x, Decision (P x)} (l : list A) :
  Forall (λ x, ¬ P x) l → filter P l = [].
Proof.
  induction 1 as [|x l Hx Hl IH]; [done|]. by rewrite filter_cons_False.
Qed.

Lemma take_filter {A} (P : A → Prop) `{∀ x, Decision (P x)} (r : nat) (l : list A) :
  Forall P (take r l) → Forall (λ x, ¬ P x) (drop r l) → take r l = filter P l.
Proof.
  intros Ht Hd. rewrite <- (take_drop r l) at 2.
  rewrite filter_app, (filter_all P (take r l)) by done.
  by rewrite (filter_none P (drop r l)), app_nil_r.
Qed.

Lemma drop_filter {A} (P : A → Prop) `{∀ x, Decision (P x)} (r : nat) (l : list A) :
  Forall (λ x, ¬ P x) (take r l) → Forall P (drop r l) → drop r l = filter P l.
Proof.
  intros Ht Hd. rewrite <- (take_drop r l) at 2.
  rewrite filter_app, (filter_none P (take r l)) by done.
  by rewrite (filter_all P (drop r l)).
Qed.

Lemma del_range_take_drop (left n : nat) (l : list (Z * Z)) :
  left + n ≤ length l →
  foldl (λ l i, delete i l) l (reverse (seq left n)) = take left l ++ drop (left + n) l.
Proof.
  revert l. induction n as [|n IH]; intros l Hlen.
  - simpl. by rewrite Nat.add_0_r, take_drop.
  - rewrite seq_S, reverse_snoc. simpl. rewrite delete_take_drop.
    rewrite IH by (rewrite length_app, length_take, length_drop; lia).
    rewrite take_app_le by (rewrite length_take; lia).
    rewrite take_take, Nat.min_l by lia. f_equal.
    rewrite drop_app_length' by (rewrite length_take; lia).
    f_equal. lia.
Qed.

Lemma del_range_spec (left right : nat) (l : list (Z * Z)) :
  left ≤ right ≤ length l → del_range left right l = take left l ++ drop right l.
Proof.
  intros H. unfold del_range. rewrite del_range_take_drop by lia.
  do 2 f_equal. lia.
Qed.

(** Sorted lists are split by the tests of [bisect_left] and
    [bisect_right]. *)
Lemma sorted_split_left (l : list (Z * Z)) (x : key) i j e e' :
  StronglySorted plt l → i ≤ j → l !! i = Some e → l !! j = Some e' →
  key_lt (key_of e') x = true → key_lt (key_of e) x = true.
Proof.
  intros Hs Hij Hi Hj Hlt. destruct (decide (i = j)) as [->|Hne]; [congruence|].
  apply key_lt_klt. apply key_lt_klt in Hlt.
  eapply klt_trans; [|exact Hlt]. apply klt_key_of.
  eapply (StronglySorted_lookup_lt plt l i j); eauto. lia.
Qed.

Lemma sorted_split_right (l : list (Z * Z)) (x : key) i j e e' :
  StronglySorted plt l → i ≤ j → l !! i = Some e → l !! j = Some e' →
  negb (key_lt x (key_of e')) = true → negb (key_lt x (key_of e)) = true.
Proof.
  intros Hs Hij Hi Hj Hlt. destruct (decide (i = j)) as [->|Hne]; [congruence|].
  apply negb_true_iff. apply negb_true_iff in Hlt.
  destruct (key_lt x (key_of e)) eqn:E; [|done].
  rewrite <- Hlt. symmetry. apply key_lt_klt. apply key_lt_klt in E.
  eapply klt_trans; [exact E|]. apply klt_key_of.
  eapply (StronglySorted_lookup_lt plt l i j); eauto. lia.
Qed.

(** [bisect.insort] keeps an increasing list increasing; it adds the
    posting and nothing else. *)
Lemma insort_Permutation (l : list (Z * Z)) (x : Z * Z) : insort l x ≡ₚ x :: l.
Proof.
  unfold insort. rewrite <- Permutation_middle. by rewrite take_drop.
Qed.

Lemma insort_sorted (l : list (Z * Z)) (x : Z * Z) :
  StronglySorted plt l → x ∉ l → StronglySorted plt (insort l x).
Proof.
  intros Hs Hx. unfold insort, bisect_right.
  destruct (bisect_loop_cut (λ e, negb (key_lt (key_of x) (key_of e))) l)
    as (Ht & Hd & _).
  { intros i j e e'. by apply sorted_split_right. }
  set (r := bisect_loop _ l 0 (length l)) in *.
  assert (Hl : l = take r l ++ drop r l) by (by rewrite take_drop).
  rewrite Hl in Hs, Hx. apply StronglySorted_app in Hs as (Hcross & Hs1 & Hs2).
  apply StronglySorted_app. split; [|split; [done|]].
  - intros e1 e2 H1 [->|H2]%elem_of_cons; [|by apply Hcross].
    rewrite Forall_forall in Ht. specialize (Ht e1 H1).
    apply negb_true_iff in Ht.
    destruct (plt_trichotomy e1 x) as [?|[->|Hlt]]; [done| |].
    + exfalso. apply Hx, elem_of_app. by left.
    + apply klt_key_of, key_lt_klt in Hlt. congruence.
  - apply SSorted_cons; [done|]. rewrite Forall_forall in Hd |- *.
    intros e He. specialize (Hd e He). apply negb_false_iff in Hd.
    by apply klt_key_of, key_lt_klt.
Qed.

(** The range deleted by the removal loops is exactly the postings of the
    document. *)
Lemma filter_doc_sorted (d : Z) (l : list (Z * Z)) :
  StronglySorted plt l →
  filter (λ e, e.1 < d)%Z l ++ filter (λ e, d < e.1)%Z l = filter (λ e, e.1 ≠ d) l.
Proof.
  induction 1 as [|x l Hs IH Hall]; [by rewrite !filter_nil|].
  destruct (Z.lt_trichotomy x.1 d) as [Hlt|[Heq|Hgt]].
  - rewrite (filter_cons_True (λ e, e.1 < d)%Z) by done.
    rewrite (filter_cons_False (λ e, d < e.1)%Z) by lia.
    rewrite (filter_cons_True (λ e, e.1 ≠ d)) by lia.
    by rewrite <- app_comm_cons, IH.
  - rewrite (filter_cons_False (λ e, e.1 < d)%Z) by lia.
    rewrite (filter_cons_False (λ e, d < e.1)%Z) by lia.
    by rewrite (filter_cons_False (λ e, e.1 ≠ d)) by (intros ?; done).
  - assert (Forall (λ e, d < e.1)%Z l) as Hbig.
    { eapply Forall_impl; [exact Hall|]. intros e [?|[? _]]; lia. }
    rewrite (filter_cons_False (λ e, e.1 < d)%Z) by lia.
    rewrite (filter_cons_True (λ e, d < e.1)%Z) by done.
    rewrite (filter_cons_True (λ e, e.1 ≠ d)) by lia.
    rewrite (filter_none (λ e, e.1 < d)%Z).
    + rewrite app_nil_l. f_equal. rewrite filter_all by done.
      symmetry. apply filter_all.
      eapply Forall_impl; [exact Hbig|]. simpl. lia.
    + eapply Forall_impl; [exact Hbig|]. simpl. lia.
Qed.

Lemma remove_range_spec (d : Z) (l : list (Z * Z)) :
  StronglySorted plt l → Forall (λ e, 0 ≤ e.2)%Z l →
  del_range (bisect_left l (d, Pos 0)) (bisect_right l (d, PosInf)) l
  = filter (λ e, e.1 ≠ d) l.
Proof.
  intros Hs Hpos. unfold bisect_left, bisect_right.
  destruct (bisect_loop_cut (λ e, key_lt (key_of e) (d, Pos 0)) l) as (Ht1 & Hd1 & Hl1).
  { intros i j e e'. by apply sorted_split_left. }
  destruct (bisect_loop_cut (λ e, negb (key_lt (d, PosInf) (key_of e))) l)
    as (Ht2 & Hd2 & Hl2).
  { intros i j e e'. by apply sorted_split_right. }
  set (left := bisect_loop (λ e, key_lt (key_of e) (d, Pos 0)) l 0 (length l)) in *.
  set (right := bisect_loop (λ e, negb (key_lt (d, PosInf) (key_of e))) l 0 (length l)) in *.
  assert (Hlow : ∀ e, e ∈ l → key_lt (key_of e) (d, Pos 0) = true ↔ (e.1 < d)%Z).
  { intros e He. rewrite Forall_forall in Hpos. specialize (Hpos e He).
    rewrite key_lt_klt. unfold klt, key_of. simpl. rewrite Z.ltb_lt. lia. }
  assert (Hhigh : ∀ e, negb (key_lt (d, PosInf) (key_of e)) = false ↔ (d < e.1)%Z).
  { intros e. rewrite negb_false_iff, key_lt_klt. unfold klt, key_of. simpl.
    split; [intros [?|[_ ?]]; [done|done] | by left]. }
  assert (Hlr : left ≤ right).
  { destruct (decide (left ≤ right)) as [?|Hgt]; [done|]. exfalso.
    destruct (lookup_lt_is_Some_2 l right) as [e He]; [lia|].
    assert (e ∈ take left l) as H1.
    { apply list_elem_of_lookup. exists right. rewrite lookup_take_lt by lia. done. }
    assert (e ∈ drop right l) as H2.
    { apply list_elem_of_lookup. exists 0. rewrite lookup_drop, Nat.add_0_r. done. }
    rewrite Forall_forall in Ht1, Hd2.
    specialize (Ht1 e H1). specialize (Hd2 e H2).
    apply Hlow in Ht1; [|by eapply list_elem_of_lookup_2].
    apply Hhigh in Hd2. lia. }
  rewrite del_range_spec by lia. rewrite <- filter_doc_sorted by done.
  rewrite Forall_forall in Ht1, Hd1, Ht2, Hd2.
  f_equal.
  - apply take_filter; apply Forall_forall; intros e He.
    + apply Hlow; [|by apply Ht1]. rewrite <- (take_drop left l).
      apply elem_of_app. by left.
    + intros Hlt. apply Hlow in Hlt.
      * specialize (Hd1 e He). simpl in Hd1. congruence.
      * rewrite <- (take_drop left l). apply elem_of_app. by right.
  - apply drop_filter; apply Forall_forall; intros e He.
    + intros Hlt. apply Hhigh in Hlt. specialize (Ht2 e He). simpl in Ht2. congruence.
    + apply Hhigh. by apply Hd2.
Qed.

(** ** Well-formed indexes *)

(** Every posting list is non-empty, increasing in (document id, position),
    and holds no negative position. *)
Definition index_ok (idx : index) : Prop :=
  ∀ w l, idx !! w = Some l →
         l ≠ [] ∧ StronglySorted plt l ∧ Forall (λ e, 0 ≤ e.2)%Z l.

Lemma index_ok_empty : index_ok ∅.
Proof. intros w l H. by rewrite lookup_empty in H. Qed.

Lemma postings_sorted idx w : index_ok idx → StronglySorted plt (postings idx w).
Proof.
  intros Hok. unfold postings. destruct (idx !! w) as [l|] eqn:E; simpl.
  - by apply (Hok w l).
  - constructor.
Qed.

Lemma postings_nonneg idx w : index_ok idx → Forall (λ e, 0 ≤ e.2)%Z (postings idx w).
Proof.
  intros Hok. unfold postings. destruct (idx !! w) as [l|] eqn:E; simpl.
  - by apply (Hok w l).
  - constructor.
Qed.

Lemma StronglySorted_filter {A} (R : relation A) (P : A → Prop)
  `{∀ x, Decision (P x)} (l : list A) :
  StronglySorted R l → StronglySorted R (filter P l).
Proof.
  induction 1 as [|x l Hs IH Hall]; [constructor|].
  rewrite filter_cons. case_decide; [|done].
  constructor; [done|]. rewrite Forall_forall in Hall |- *.
  intros y [_ Hy]%list_elem_of_filter. by apply Hall.
Qed.

Lemma Forall_filter_keeps {A} (Q P : A → Prop) `{∀ x, Decision (P x)} (l : list A) :
  Forall Q l → Forall Q (filter P l).
Proof.
  rewrite !Forall_forall. intros Hall y [_ Hy]%list_elem_of_filter. by apply Hall.
Qed.

Lemma postings_insert idx w l w' :
  postings (<[w := l]> idx) w' = if decide (w' = w) then l else postings idx w'.
Proof.
  unfold postings. case_decide as Hw.
  - subst. by rewrite lookup_insert_eq.
  - by rewrite lookup_insert_ne.
Qed.

Lemma postings_delete idx w w' :
  postings (delete w idx) w' = if decide (w' = w) then [] else postings idx w'.
Proof.
  unfold postings. case_decide as Hw.
  - subst. by rewrite lookup_delete_eq.
  - by rewrite lookup_delete_ne.
Qed.

Lemma remove_postings_spec d idx w :
  index_ok idx →
  index_ok (remove_postings d idx w) ∧
  ∀ w', postings (remove_postings d idx w) w'
        = if decide (w' = w) then filter (λ e, e.1 ≠ d) (postings idx w)
          else postings idx w'.
Proof.
  intros Hok. unfold remove_postings.
  rewrite remove_range_spec by auto using postings_sorted, postings_nonneg.
  pose proof (postings_sorted idx w Hok) as Hs.
  pose proof (postings_nonneg idx w Hok) as Hp.
  destruct (filter (λ e, e.1 ≠ d) (postings idx w)) as [|e l] eqn:E.
  - split.
    + intros w' l' Hl'. apply lookup_delete_Some in Hl' as [_ Hl']. by apply (Hok w').
    + intros w'. rewrite postings_delete. by case_decide.
  - split.
    + intros w' l' Hl'. apply lookup_insert_Some in Hl' as [[<- <-]|[_ Hl']].
      * rewrite <- E. split; [by rewrite E|].
        split; [by apply StronglySorted_filter | by apply Forall_filter_keeps].
      * by apply (Hok w').
    + intros w'. rewrite postings_insert. by case_decide.
Qed.

Lemma insert_posting_spec d idx n w :
  index_ok idx → (d, Z.of_nat n) ∉ postings idx w →
  index_ok (insert_posting d idx (n, w)) ∧
  ∀ w' e, e ∈ postings (insert_posting d idx (n, w)) w'
          ↔ e ∈ postings idx w' ∨ (w' = w ∧ e = (d, Z.of_nat n)).
Proof.
  intros Hok Hnew. unfold insert_posting. simpl. split.
  - intros w' l' Hl'. apply lookup_insert_Some in Hl' as [[<- <-]|[_ Hl']].
    + split; [|split].
      * intros Hnil. pose proof (insort_Permutation (postings idx w) (d, Z.of_nat n)) as Hp.
        rewrite Hnil in Hp. by apply Permutation_nil_cons in Hp.
      * apply insort_sorted; [by apply postings_sorted | done].
      * rewrite insort_Permutation. constructor; [simpl; lia | by apply postings_nonneg].
    + by apply (Hok w').
  - intros w' e. rewrite postings_insert. case_decide as Hw.
    + subst. rewrite insort_Permutation, elem_of_cons. naive_solver.
    + naive_solver.
Qed.

Lemma unindex_fold_spec d ws idx :
  index_ok idx →
  index_ok (foldl (remove_postings d) idx ws) ∧
  ∀ w', postings (foldl (remove_postings d) idx ws) w'
        = if decide (w' ∈ ws) then filter (λ e, e.1 ≠ d) (postings idx w')
          else postings idx w'.
Proof.
  revert idx. induction ws as [|w ws IH]; intros idx Hok; cbn [foldl].
  - split; [done|]. intros w'. case_decide as H; [by apply elem_of_nil in H | done].
  - destruct (remove_postings_spec d idx w Hok) as [Hok1 Hp1].
    destruct (IH _ Hok1) as [Hok2 Hp2]. split; [done|].
    intros w'. rewrite Hp2, Hp1.
    destruct (decide (w' = w)) as [->|Hne].
    + rewrite (decide_True (P := w ∈ w :: ws)) by (by left).
      case_decide; [|done]. rewrite list_filter_filter.
      apply list_filter_iff. naive_solver.
    + destruct (decide (w' ∈ ws)) as [Hin|Hout].
      * by rewrite decide_True by (by right).
      * rewrite decide_False; [done|]. by intros [?|?]%elem_of_cons.
Qed.

Lemma lookup_enumerate_from {A} (k : nat) (l : list A) i :
  enumerate_from k l !! i = (λ x, (k + i, x)) <$> l !! i.
Proof.
  revert k i. induction l as [|x l IH]; intros k [|i]; simpl; try done.
  - by rewrite Nat.add_0_r.
  - rewrite IH. destruct (l !! i); simpl; [|done]. do 2 f_equal. lia.
Qed.

Lemma index_fold_spec d tokens k idx :
  index_ok idx →
  (∀ w p, (d, p) ∈ postings idx w → (p < Z.of_nat k)%Z) →
  index_ok (foldl (insert_posting d) idx (enumerate_from k tokens)) ∧
  ∀ w' e, e ∈ postings (foldl (insert_posting d) idx (enumerate_from k tokens)) w'
          ↔ e ∈ postings idx w'
            ∨ ∃ n, tokens !! n = Some w' ∧ e = (d, Z.of_nat (k + n)).
Proof.
  revert k idx. induction tokens as [|t tokens IH]; intros k idx Hok Hnew; simpl.
  - split; [done|]. intros w' e. split; [by left | intros [?|(n & Hn & _)]; done].
  - destruct (insert_posting_spec d idx k t Hok) as [Hok1 Hp1].
    { intros Hin. apply Hnew in Hin. lia. }
    destruct (IH (S k) _ Hok1) as [Hok2 Hp2].
    { intros w p [Hin|[_ [= ->]]]%Hp1; [apply Hnew in Hin|]; lia. }
    split; [done|]. intros w' e. rewrite Hp2, Hp1. split.
    + intros [[?|[-> ->]]|(n & Hn & ->)].
      * by left.
      * right. exists 0. split; [done|]. do 2 f_equal. lia.
      * right. exists (S n). split; [done|]. do 2 f_equal. lia.
    + intros [?|([|n] & Hn & ->)].
      * by left; left.
      * simpl in Hn. injection Hn as ->. left. right. split; [done|].
        do 2 f_equal. lia.
      * right. exists n. split; [done|]. do 2 f_equal. lia.
Qed.

Lemma add_word_fold d tokens (ws : gmap Z (gset string)) d' :
  default ∅ (foldl (add_word d) ws tokens !! d')
  = if decide (d' = d) then default ∅ (ws !! d) ∪ list_to_set tokens
    else default ∅ (ws !! d').
Proof.
  revert ws. induction tokens as [|t tokens IH]; intros ws; simpl.
  - case_decide; [subst; set_solver | done].
  - rewrite IH. unfold add_word. case_decide.
    + rewrite lookup_insert_eq. simpl. set_solver.
    + by rewrite lookup_insert_ne.
Qed.

(** ** The index of one field against the live documents *)

Section IndexInvariant.

Variable tokenize : string → list string.

Definition words_of (f : field) (doc : option Information) : gset string :=
  match doc with
  | Some doc => list_to_set (tokenize (text f doc))
  | None => ∅
  end.

(** [live] gives the live document of an id.  The index holds exactly the
    postings of the tokens of the live documents, and the word sets are
    their sets of tokens. *)
Record field_inv (live : Z → option Information) (f : field)
    (idx : index) (ws : gmap Z (gset string)) : Prop := {
  fi_ok : index_ok idx;
  fi_postings : ∀ w d p,
    (d, p) ∈ postings idx w
    ↔ ∃ doc n, live d = Some doc ∧ p = Z.of_nat n ∧ tokenize (text f doc) !! n = Some w;
  fi_words : ∀ d, default ∅ (ws !! d) = words_of f (live d);
}.

Lemma field_inv_ext live live' f idx ws :
  (∀ d, live d = live' d) → field_inv live f idx ws → field_inv live' f idx ws.
Proof.
  intros Hext [Hok Hp Hw]. split; [done| |].
  - intros w d p. rewrite Hp. by rewrite Hext.
  - intros d. by rewrite Hw, Hext.
Qed.

Lemma field_inv_empty f : field_inv (λ _, None) f ∅ ∅.
Proof.
  split; [apply index_ok_empty | |].
  - intros w d p. unfold postings. rewrite lookup_empty. simpl.
    split; [by intros ?%elem_of_nil | by intros (? & ? & ? & _)].
  - intros d. by rewrite lookup_empty.
Qed.

Lemma field_inv_unindex live f idx ws d wl ws' :
  field_inv live f idx ws →
  (∀ w, w ∈ wl ↔ w ∈ default ∅ (ws !! d)) →
  (∀ d', default ∅ (ws' !! d')
         = if decide (d' = d) then ∅ else default ∅ (ws !! d')) →
  field_inv (λ d', if decide (d' = d) then None else live d') f
            (foldl (remove_postings d) idx wl) ws'.
Proof.
  intros [Hok Hp Hw] Hwl Hws'.
  destruct (unindex_fold_spec d wl idx Hok) as [Hok' Hp'].
  split; [done| |].
  - intros w d' p. rewrite Hp'.
    assert ((d', p) ∈ postings idx w ∧ d' ≠ d
            ↔ ∃ doc n, (if decide (d' = d) then None else live d') = Some doc
                       ∧ p = Z.of_nat n ∧ tokenize (text f doc) !! n = Some w) as <-.
    { rewrite Hp. case_decide; naive_solver. }
    case_decide as Hin.
    + rewrite list_elem_of_filter. simpl. naive_solver.
    + split; [|by intros [? _]]. intros Hd. split; [done|]. intros ->.
      apply Hin, Hwl. rewrite Hw.
      apply Hp in Hd as (doc & n & -> & _ & Hn). simpl.
      apply elem_of_list_to_set. by eapply list_elem_of_lookup_2.
  - intros d'. rewrite Hws'. case_decide; [done | apply Hw].
Qed.

Lemma field_inv_index live f idx ws d doc :
  field_inv live f idx ws → live d = None →
  field_inv (λ d', if decide (d' = d) then Some doc else live d') f
            (foldl (insert_posting d) idx (enumerate (tokenize (text f doc))))
            (foldl (add_word d) ws (tokenize (text f doc))).
Proof.
  intros [Hok Hp Hw] Hd. unfold enumerate.
  destruct (index_fold_spec d (tokenize (text f doc)) 0 idx Hok) as [Hok' Hp'].
  { intros w p Hin. apply Hp in Hin as (doc' & n & Hl & _). congruence. }
  split; [done| |].
  - intros w d' p. rewrite Hp', Hp. case_decide as Hdd.
    + subst d'. rewrite Hd. split.
      * intros [(? & ? & ? & _)|(n & Hn & [= ->])]; [done|]. eauto.
      * intros (doc' & n & [= <-] & -> & Hn). right. eauto.
    + split; [|by left]. intros [?|(n & _ & [= ? _])]; done.
  - intros d'. rewrite add_word_fold. case_decide; [|apply Hw].
    rewrite Hw, Hd. simpl. by rewrite (left_id_L ∅ (∪)).
Qed.

Lemma field_inv_unique live f idx idx' ws ws' :
  field_inv live f idx ws → field_inv live f idx' ws' → idx = idx'.
Proof.
  intros [Hok Hp _] [Hok' Hp' _].
  assert (Hpost : ∀ w, postings idx w = postings idx' w).
  { intros w. apply StronglySorted_plt_ext; auto using postings_sorted.
    intros [d p]. by rewrite Hp, Hp'. }
  apply map_eq. intros w. specialize (Hpost w). unfold postings in Hpost.
  destruct (idx !! w) as [l|] eqn:E, (idx' !! w) as [l'|] eqn:E'; simpl in *.
  - by subst.
  - subst. by destruct (Hok w [] E) as [? _].
  - subst. by destruct (Hok' w [] E') as [? _].
  - done.
Qed.

End IndexInvariant.

(** ** The loops over one field, in closed form *)

Lemma index_tokens_spec f d tokens h :
  index_tokens f d tokens h
  = set_words f (foldl (add_word d) (get_words f h) tokens)
      (set_index f (foldl (insert_posting d) (get_index f h) (enumerate tokens)) h).
Proof.
  unfold index_tokens, enumerate. generalize 0. revert h.
  induction tokens as [|t tokens IH]; intros h k; cbn [enumerate_from foldl].
  - by destruct f, h.
  - rewrite IH. by destruct f, h.
Qed.

Lemma unindex_words_spec f d wl h :
  unindex_words f d wl h
  = set_index f (foldl (remove_postings d) (get_index f h) wl) h.
Proof.
  unfold unindex_words. revert h.
  induction wl as [|w wl IH]; intros h; cbn [foldl].
  - by destruct f, h.
  - rewrite IH. by destruct f, h.
Qed.

(** ** Reading the document store *)

Lemma py_index_valid (len : nat) (d : Z) :
  (1 ≤ d ≤ Z.of_nat len)%Z → py_index len (d - 1) = Some (Z.to_nat (d - 1)).
Proof. intros H. unfold py_index. by rewrite decide_True by lia. Qed.

Lemma documents_getitem_valid d h :
  (1 ≤ d ≤ Z.of_nat (length (documents h)))%Z →
  ∃ slot, documents h !! Z.to_nat (d - 1) = Some slot ∧
          documents_getitem (d - 1) h = (Return slot, h).
Proof.
  intros Hd. destruct (lookup_lt_is_Some_2 (documents h) (Z.to_nat (d - 1))) as [slot Hs];
    [lia|].
  exists slot. split; [done|].
  unfold documents_getitem, bind, get. simpl.
  by rewrite py_index_valid, Hs.
Qed.

Lemma get_document_Some d h doc :
  get_document d h = Some doc ↔
  (1 ≤ d ≤ Z.of_nat (length (documents h)))%Z ∧
  documents h !! Z.to_nat (d - 1) = Some (Some doc) ∧ deleted doc = false.
Proof.
  unfold get_document. case_decide as Hr.
  - split; [done | intros (? & _); lia].
  - destruct (documents h !! Z.to_nat (d - 1)) as [[doc'|]|] eqn:E.
    + destruct (deleted doc') eqn:Ed.
      * split; [done | intros (_ & [= ->] & ?); congruence].
      * split; [intros [= ->]; split; [lia | done] | by intros (_ & [= ->] & _)].
    + split; [done | by intros (_ & ? & _)].
    + split; [done | by intros (_ & ? & _)].
Qed.

(** ** The states a hub can be in *)

Section HubFacts.

Variable tokenize : string → list string.
Variable hash : string → Z.
Variable iter_words : gset string → list string.
Variable iter_ids : gset Z → list Z.
Hypothesis iter_words_perm : ∀ X, iter_words X ≡ₚ elements X.
Hypothesis iter_ids_perm : ∀ X, iter_ids X ≡ₚ elements X.

Record hub_wf (h : InformationHub) : Prop := {
  (** a stored document carries the id of its slot *)
  wf_ids : ∀ i doc, documents h !! i = Some (Some doc) → id doc = Z.of_nat (S i);
  (** an id of the reuse pool names a slot that holds no live document *)
  wf_pool : ∀ x, x ∈ deleted_ids h →
                 get_document x h = None ∧ (1 ≤ x ≤ Z.of_nat (length (documents h)))%Z;
  (** the next id to mint lies beyond the store *)
  wf_next : (Z.of_nat (length (documents h)) < group_prefix h * 1000 + next_id h)%Z;
  (** both indexes describe the live documents *)
  wf_fields : ∀ f, field_inv tokenize (λ d, get_document d h) f
                     (get_index f h) (get_words f h);
}.

Lemma elem_of_iter_ids x X : x ∈ iter_ids X ↔ x ∈ X.
Proof. rewrite iter_ids_perm. apply elem_of_elements. Qed.

Lemma elem_of_iter_words x X : x ∈ iter_words X ↔ x ∈ X.
Proof. rewrite iter_words_perm. apply elem_of_elements. Qed.

Lemma iter_ids_NoDup X : NoDup (iter_ids X).
Proof. rewrite iter_ids_perm. apply NoDup_elements. Qed.

Lemma new_hub_wf gid : hub_wf (new_hub hash gid).
Proof.
  split; simpl.
  - intros i doc H. by rewrite lookup_nil in H.
  - intros x Hx. by apply not_elem_of_empty in Hx.
  - pose proof (Z.mod_pos_bound (Z.abs (hash gid)) 1000). lia.
  - intros f. eapply field_inv_ext; [|destruct f; apply field_inv_empty].
    intros d. unfold get_document. simpl. case_decide as Hr; [done|].
    exfalso. apply Hr. lia.
Qed.

(** *** Allocation *)

Lemma allocate_id_pool h :
  deleted_ids h ≠ ∅ →
  ∃ x, x ∈ deleted_ids h ∧
       _allocate_id iter_ids h
       = (Return x, set_deleted_ids (deleted_ids h ∖ {[x]}) h).
Proof.
  clear iter_words_perm.
  intros Hne. unfold _allocate_id, bind, get. simpl.
  rewrite decide_True by done.
  destruct (iter_ids (deleted_ids h)) as [|x l] eqn:E.
  - exfalso. apply Hne. apply set_eq. intros y.
    rewrite <- elem_of_iter_ids, E. set_solver.
  - exists x. split; [|done]. apply elem_of_iter_ids. rewrite E. by left.
Qed.

Lemma allocate_id_mint h :
  deleted_ids h = ∅ → (next_id h ≤ 999)%Z →
  _allocate_id iter_ids h
  = (Return (group_prefix h * 1000 + next_id h)%Z, set_next_id (next_id h + 1) h).
Proof.
  intros He Hn. unfold _allocate_id, bind, get. simpl.
  rewrite decide_False by (intros ?; done). simpl.
  by rewrite decide_False by lia.
Qed.

Lemma allocate_id_overflow h :
  deleted_ids h = ∅ → (next_id h > 999)%Z →
  _allocate_id iter_ids h = (Raise OverflowError, set_next_id (next_id h + 1) h).
Proof.
  intros He Hn. unfold _allocate_id, bind, get. simpl.
  rewrite decide_False by (intros ?; done). simpl.
  by rewrite decide_True by lia.
Qed.

(** The document store after [pad] and [documents[doc_id - 1] = doc]. *)
Definition install (d : Z) (doc : Information) (h : InformationHub) : InformationHub :=
  set_documents
    (<[Z.to_nat (d - 1) := Some doc]> (documents (pad_documents d h)))
    (pad_documents d h).

Lemma add_document_run t c h d h1 :
  _allocate_id iter_ids h = (Return d, h1) → (1 ≤ d)%Z →
  add_document tokenize iter_ids t c h
  = (Return d,
     mkHub (documents (install d (mkInformation t c d false) h1))
           (next_id h1) (group_id h1) (group_prefix h1) (deleted_ids h1)
           (foldl (insert_posting d) (title_index h1) (enumerate (tokenize t)))
           (foldl (insert_posting d) (content_index h1) (enumerate (tokenize c)))
           (foldl (add_word d) (doc_title_words h1) (tokenize t))
           (foldl (add_word d) (doc_content_words h1) (tokenize c))).
Proof.
  intros Ha Hd. unfold add_document. unfold bind at 1. rewrite Ha.
  unfold bind at 1, modify at 1. unfold bind at 1.
  unfold documents_setitem, bind at 1, get at 1.
  rewrite py_index_valid.
  - unfold modify, bind, ret. rewrite !index_tokens_spec. by destruct h1.
  - unfold pad_documents. simpl. rewrite length_app, length_replicate. lia.
Qed.

Lemma length_install d doc h :
  length (documents (install d doc h))
  = (length (documents h) + Z.to_nat (d - Z.of_nat (length (documents h))))%nat.
Proof.
  unfold install, pad_documents. simpl.
  by rewrite length_insert, length_app, length_replicate.
Qed.

Lemma lookup_install d doc h i :
  (1 ≤ d)%Z →
  documents (install d doc h) !! i
  = if decide (i = Z.to_nat (d - 1)) then Some (Some doc)
    else if decide (i < length (documents h)) then documents h !! i
    else if decide (i < Z.to_nat d) then Some None else None.
Proof.
  intros Hd. unfold install, pad_documents. simpl.
  set (k := Z.to_nat (d - Z.of_nat (length (documents h)))).
  case_decide as Hi.
  - subst i. apply list_lookup_insert_eq. rewrite length_app, length_replicate. lia.
  - rewrite list_lookup_insert_ne by done. case_decide as Hlen.
    + by rewrite lookup_app_l.
    + rewrite lookup_app_r by lia. case_decide.
      * apply lookup_replicate_2. lia.
      * apply lookup_ge_None. rewrite length_replicate. lia.
Qed.

Lemma get_document_install d doc h d' :
  (1 ≤ d)%Z → deleted doc = false →
  get_document d' (install d doc h)
  = if decide (d' = d) then Some doc else get_document d' h.
Proof.
  intros Hd Hdel. unfold get_document at 1.
  rewrite length_install, lookup_install by done.
  destruct (decide (d' = d)) as [->|Hdd].
  - rewrite decide_False by lia. rewrite decide_True by done. by rewrite Hdel.
  - unfold get_document.
    destruct (decide (d' < 1)%Z) as [Hlow|Hlow].
    { rewrite !decide_True by lia. done. }
    rewrite (decide_False (P := Z.to_nat (d' - 1) = Z.to_nat (d - 1))) by lia.
    destruct (decide (d' ≤ Z.of_nat (length (documents h)))%Z) as [Hin|Hout].
    + rewrite (decide_False (P := (d' < 1 ∨ _)%Z)) by lia.
      rewrite (decide_True (P := Z.to_nat (d' - 1) < length (documents h))) by lia.
      by rewrite (decide_False (P := (d' < 1 ∨ _)%Z)) by lia.
    + rewrite (decide_True (P := (d' < 1 ∨ d' > Z.of_nat (length (documents h)))%Z)) by lia.
      case_decide; [done|]. rewrite decide_False by lia. by case_decide.
Qed.

Lemma get_document_documents h h' d :
  documents h = documents h' → get_document d h = get_document d h'.
Proof. intros H. unfold get_document. by rewrite H. Qed.

(** Installing and indexing a document at an id that is not live keeps
    the hub well formed. *)
Lemma install_indexed_wf h1 d t c :
  (∀ i doc, documents h1 !! i = Some (Some doc) → id doc = Z.of_nat (S i)) →
  (∀ x, x ∈ deleted_ids h1 →
        x ≠ d ∧ get_document x h1 = None ∧
        (1 ≤ x ≤ Z.of_nat (length (documents h1)))%Z) →
  (Z.of_nat (length (documents h1)) < group_prefix h1 * 1000 + next_id h1)%Z →
  (d < group_prefix h1 * 1000 + next_id h1)%Z →
  (∀ f, field_inv tokenize (λ d, get_document d h1) f (get_index f h1) (get_words f h1)) →
  (1 ≤ d)%Z → get_document d h1 = None →
  hub_wf
    (mkHub (documents (install d (mkInformation t c d false) h1))
           (next_id h1) (group_id h1) (group_prefix h1) (deleted_ids h1)
           (foldl (insert_posting d) (title_index h1) (enumerate (tokenize t)))
           (foldl (insert_posting d) (content_index h1) (enumerate (tokenize c)))
           (foldl (add_word d) (doc_title_words h1) (tokenize t))
           (foldl (add_word d) (doc_content_words h1) (tokenize c))).
Proof.
  intros Hids Hpool Hnext Hdn Hf Hd Hdead.
  set (doc := mkInformation t c d false).
  assert (Hget : ∀ d' X1 X2 X3 X4 X5 X6 X7 X8,
            get_document d' (mkHub (documents (install d doc h1)) X1 X2 X3 X4 X5 X6 X7 X8)
            = if decide (d' = d) then Some doc else get_document d' h1).
  { intros. rewrite <- (get_document_install d doc h1 d') by done.
    by apply get_document_documents. }
  set (docs' := documents (install d doc h1)) in *.
  split; simpl.
  - intros i doc' Hi. unfold docs' in Hi. rewrite lookup_install in Hi by done.
    case_decide as H1; [injection Hi as <-; simpl; lia|].
    case_decide; [by apply Hids|]. by case_decide.
  - intros x Hx. destruct (Hpool x Hx) as (Hne & Hg & Hr).
    rewrite Hget, decide_False by done. split; [done|].
    unfold docs'. rewrite length_install. lia.
  - unfold docs'. rewrite length_install. lia.
  - intros f. eapply field_inv_ext.
    { intros d'. symmetry. apply Hget. }
    destruct f; simpl.
    + apply (field_inv_index tokenize _ Title _ _ d doc (Hf Title) Hdead).
    + apply (field_inv_index tokenize _ Content _ _ d doc (Hf Content) Hdead).
Qed.

Lemma add_document_wf h t c : hub_wf h → hub_wf (add_document tokenize iter_ids t c h).2.
Proof.
  intros [Hids Hpool Hnext Hf].
  destruct (decide (deleted_ids h = ∅)) as [He|Hne].
  - destruct (decide (next_id h ≤ 999)%Z) as [Hn|Hn].
    + pose proof (allocate_id_mint h He Hn) as Ha.
      rewrite (add_document_run t c h _ _ Ha) by lia. cbn [snd].
      apply (install_indexed_wf (set_next_id (next_id h + 1) h)); simpl; try done.
      * intros x Hx. rewrite He in Hx. by apply not_elem_of_empty in Hx.
      * lia.
      * lia.
      * lia.
      * unfold get_document. simpl. rewrite decide_True; [done|]. lia.
    + pose proof (allocate_id_overflow h He ltac:(lia)) as Ha.
      unfold add_document, bind. rewrite Ha. simpl.
      split; simpl; try done. lia.
  - destruct (allocate_id_pool h Hne) as (x & Hx & Ha).
    destruct (Hpool x Hx) as [Hdead Hr].
    rewrite (add_document_run t c h _ _ Ha) by lia. cbn [snd].
    apply (install_indexed_wf (set_deleted_ids (deleted_ids h ∖ {[x]}) h)); simpl; try done.
    + intros y [Hy Hne']%elem_of_difference. split; [set_solver|]. by apply Hpool.
    + lia.
    + lia.
Qed.

(** *** Deleting and updating *)

Lemma get_document_update_slot d doc' h d' :
  (1 ≤ d ≤ Z.of_nat (length (documents h)))%Z →
  get_document d' (set_documents (<[Z.to_nat (d - 1) := Some doc']> (documents h)) h)
  = if decide (d' = d) then (if deleted doc' then None else Some doc')
    else get_document d' h.
Proof.
  intros Hd. unfold get_document. simpl. rewrite length_insert.
  destruct (decide (d' = d)) as [->|Hne].
  - rewrite decide_False by lia. by rewrite list_lookup_insert_eq by lia.
  - case_decide; [done|]. by rewrite list_lookup_insert_ne by lia.
Qed.

Lemma delete_document_run d h doc :
  get_document d h = Some doc →
  delete_document iter_words d h
  = (Return true,
     mkHub (<[Z.to_nat (d - 1) := Some (set_deleted true doc)]> (documents h))
           (next_id h) (group_id h) (group_prefix h) (deleted_ids h ∪ {[d]})
           (foldl (remove_postings d) (title_index h)
                  (iter_words (default ∅ (doc_title_words h !! d))))
           (foldl (remove_postings d) (content_index h)
                  (iter_words (default ∅ (doc_content_words h !! d))))
           (delete d (doc_title_words h)) (delete d (doc_content_words h))).
Proof.
  intros (Hr & Hs & Hdel)%get_document_Some.
  destruct (documents_getitem_valid d h Hr) as (slot & Hs' & Hget).
  rewrite Hs in Hs'. injection Hs' as <-.
  unfold delete_document. unfold bind at 1, get at 1. cbv beta iota.
  rewrite decide_False by lia. unfold bind at 1. rewrite Hget, Hdel.
  unfold bind at 1. unfold documents_setitem at 1, bind at 1, get at 1.
  rewrite py_index_valid by done.
  unfold unindex, words_getitem, bind, modify, get, ret. simpl.
  rewrite !unindex_words_spec. destruct h. simpl.
  by rewrite !delete_insert_eq.
Qed.

Lemma delete_document_not_found d h :
  get_document d h = None → delete_document iter_words d h = (Return false, h).
Proof.
  intros Hnone. unfold delete_document. unfold bind at 1, get at 1. cbv beta iota.
  case_decide as Hr; [done|].
  destruct (documents_getitem_valid d h) as (slot & Hs & Hget); [lia|].
  unfold bind at 1. rewrite Hget. destruct slot as [doc|]; [|done].
  destruct (deleted doc) eqn:Hdel; [done|].
  assert (get_document d h = Some doc) as Hsome; [|congruence].
  apply get_document_Some. split; [lia | done].
Qed.

(** The document that [update_document] stores. *)
Definition updated (new_title new_content : option string) (doc : Information)
  : Information :=
  let doc := match new_title with Some t => set_text Title t doc | None => doc end in
  match new_content with Some c => set_text Content c doc | None => doc end.

Lemma update_document_run d nt nc h doc :
  get_document d h = Some doc →
  update_document tokenize iter_words d nt nc h
  = (Return true,
     mkHub (<[Z.to_nat (d - 1) := Some (updated nt nc doc)]> (documents h))
           (next_id h) (group_id h) (group_prefix h) (deleted_ids h)
           (foldl (insert_posting d)
              (foldl (remove_postings d) (title_index h)
                     (iter_words (default ∅ (doc_title_words h !! d))))
              (enumerate (tokenize (title (updated nt nc doc)))))
           (foldl (insert_posting d)
              (foldl (remove_postings d) (content_index h)
                     (iter_words (default ∅ (doc_content_words h !! d))))
              (enumerate (tokenize (content (updated nt nc doc)))))
           (foldl (add_word d) (<[d := ∅]> (doc_title_words h))
                  (tokenize (title (updated nt nc doc))))
           (foldl (add_word d) (<[d := ∅]> (doc_content_words h))
                  (tokenize (content (updated nt nc doc))))).
Proof.
  intros (Hr & Hs & Hdel)%get_document_Some.
  destruct (documents_getitem_valid d h Hr) as (slot & Hs' & Hget).
  rewrite Hs in Hs'. injection Hs' as <-.
  unfold update_document. unfold bind at 1, get at 1. cbv beta iota.
  rewrite decide_False by lia. unfold bind at 1. rewrite Hget, Hdel.
  fold (updated nt nc doc).
  unfold unindex, words_getitem, documents_setitem, bind, modify, get, ret.
  rewrite !unindex_words_spec. simpl.
  rewrite py_index_valid by done.
  rewrite !index_tokens_spec. destruct h. simpl.
  by rewrite !insert_insert_eq.
Qed.

Lemma update_document_not_found d nt nc h :
  get_document d h = None →
  update_document tokenize iter_words d nt nc h = (Return false, h).
Proof.
  intros Hnone. unfold update_document. unfold bind at 1, get at 1. cbv beta iota.
  case_decide as Hr; [done|].
  destruct (documents_getitem_valid d h) as (slot & Hs & Hget); [lia|].
  unfold bind at 1. rewrite Hget. destruct slot as [doc|]; [|done].
  destruct (deleted doc) eqn:Hdel; [done|].
  assert (get_document d h = Some doc) as Hsome; [|congruence].
  apply get_document_Some. split; [lia | done].
Qed.

Lemma id_updated nt nc doc : id (updated nt nc doc) = id doc.
Proof. by destruct nt, nc. Qed.

Lemma deleted_updated nt nc doc : deleted (updated nt nc doc) = deleted doc.
Proof. by destruct nt, nc. Qed.

Lemma slot_update_ids (docs : list (option Information)) d doc doc' :
  (∀ i doc, docs !! i = Some (Some doc) → id doc = Z.of_nat (S i)) →
  docs !! Z.to_nat (d - 1) = Some (Some doc) → id doc' = id doc →
  ∀ i doc0, <[Z.to_nat (d - 1) := Some doc']> docs !! i = Some (Some doc0) →
            id doc0 = Z.of_nat (S i).
Proof.
  intros Hids Hs Hid i doc0 Hi.
  destruct (decide (i = Z.to_nat (d - 1))) as [->|Hne].
  - rewrite list_lookup_insert_eq in Hi by (by eapply lookup_lt_Some).
    injection Hi as <-. rewrite Hid. by apply Hids.
  - rewrite list_lookup_insert_ne in Hi by done. by apply Hids.
Qed.

Lemma delete_document_wf h d : hub_wf h → hub_wf (delete_document iter_words d h).2.
Proof.
  intros Hwf. destruct (get_document d h) as [doc|] eqn:Hlive.
  2:{ by rewrite delete_document_not_found. }
  rewrite (delete_document_run d h doc Hlive). cbn [snd].
  destruct Hwf as [Hids Hpool Hnext Hf].
  pose proof Hlive as (Hr & Hs & Hdel)%get_document_Some.
  assert (Hget : ∀ d' X1 X2 X3 X4 X5 X6 X7 X8,
            get_document d'
              (mkHub (<[Z.to_nat (d - 1) := Some (set_deleted true doc)]> (documents h))
                     X1 X2 X3 X4 X5 X6 X7 X8)
            = if decide (d' = d) then None else get_document d' h).
  { intros.
    rewrite (get_document_documents _
               (set_documents (<[Z.to_nat (d - 1) := Some (set_deleted true doc)]>
                                 (documents h)) h)) by done.
    by rewrite get_document_update_slot by done. }
  split; simpl.
  - by apply (slot_update_ids _ d doc).
  - intros x Hx. rewrite Hget, length_insert. case_decide as Hxd; [by subst|].
    apply Hpool. set_solver.
  - by rewrite length_insert.
  - intros f. eapply field_inv_ext; [intros d'; symmetry; apply Hget|].
    destruct f; simpl.
    + eapply (field_inv_unindex tokenize _ Title); [apply (Hf Title)| |].
      * intros w. apply elem_of_iter_words.
      * intros d'. case_decide as Hdd.
        -- subst. by rewrite lookup_delete_eq.
        -- by rewrite lookup_delete_ne.
    + eapply (field_inv_unindex tokenize _ Content); [apply (Hf Content)| |].
      * intros w. apply elem_of_iter_words.
      * intros d'. case_decide as Hdd.
        -- subst. by rewrite lookup_delete_eq.
        -- by rewrite lookup_delete_ne.
Qed.

Lemma update_document_fields h d nt nc doc f :
  hub_wf h → get_document d h = Some doc →
  field_inv tokenize
    (λ d', if decide (d' = d) then Some (updated nt nc doc) else get_document d' h) f
    (foldl (insert_posting d)
       (foldl (remove_postings d) (get_index f h)
              (iter_words (default ∅ (get_words f h !! d))))
       (enumerate (tokenize (text f (updated nt nc doc)))))
    (foldl (add_word d) (<[d := ∅]> (get_words f h))
       (tokenize (text f (updated nt nc doc)))).
Proof.
  intros [_ _ _ Hf] Hlive.
  eapply field_inv_ext;
    [|apply (field_inv_index tokenize
               (λ d', if decide (d' = d) then None else get_document d' h))].
  - intros d'. simpl. by case_decide.
  - eapply field_inv_unindex; [apply Hf| |].
    + intros w. apply elem_of_iter_words.
    + intros d'. case_decide as Hdd.
      * subst. by rewrite lookup_insert_eq.
      * by rewrite lookup_insert_ne.
  - simpl. by rewrite decide_True.
Qed.

Lemma update_document_wf h d nt nc :
  hub_wf h → hub_wf (update_document tokenize iter_words d nt nc h).2.
Proof.
  intros Hwf. destruct (get_document d h) as [doc|] eqn:Hlive.
  2:{ by rewrite update_document_not_found. }
  rewrite (update_document_run d nt nc h doc Hlive). cbn [snd].
  pose proof (λ f, update_document_fields h d nt nc doc f Hwf Hlive) as Hfields.
  destruct Hwf as [Hids Hpool Hnext Hf].
  pose proof Hlive as (Hr & Hs & Hdel)%get_document_Some.
  assert (Hget : ∀ d' X1 X2 X3 X4 X5 X6 X7 X8,
            get_document d'
              (mkHub (<[Z.to_nat (d - 1) := Some (updated nt nc doc)]> (documents h))
                     X1 X2 X3 X4 X5 X6 X7 X8)
            = if decide (d' = d) then Some (updated nt nc doc) else get_document d' h).
  { intros. rewrite <- (deleted_updated nt nc doc) in Hdel.
    rewrite (get_document_documents _
               (set_documents (<[Z.to_nat (d - 1) := Some (updated nt nc doc)]>
                                 (documents h)) h)) by done.
    rewrite get_document_update_slot by done. by rewrite Hdel. }
  split; simpl.
  - apply (slot_update_ids _ d doc); [done | done | apply id_updated].
  - intros x Hx. rewrite Hget, length_insert. destruct (Hpool x Hx) as [Hnone ?].
    case_decide as Hxd; [subst; congruence | done].
  - by rewrite length_insert.
  - intros f. eapply field_inv_ext; [intros d'; symmetry; apply Hget|].
    destruct f; [apply (Hfields Title) | apply (Hfields Content)].
Qed.

(** *** Search *)

Lemma fmap_omap_total {A B} (g : A → option B) (l : list A) :
  (∀ x, x ∈ l → is_Some (g x)) → g <$> l = Some <$> omap g l.
Proof.
  induction l as [|x l IH]; intros Hall; [done|].
  destruct (Hall x) as [y Hy]; [by left|].
  rewrite fmap_cons. cbn [omap list_omap]. rewrite Hy, fmap_cons.
  f_equal. apply IH. intros z Hz. apply Hall. by right.
Qed.

Lemma NoDup_omap_inj {A B} (g : A → option B) (l : list A) :
  (∀ x y z, x ∈ l → y ∈ l → g x = Some z → g y = Some z → x = y) →
  NoDup l → NoDup (omap g l).
Proof.
  intros Hinj Hnd. induction Hnd as [|x l Hx Hnd IH]; simpl; [constructor|].
  assert (NoDup (omap g l)) as IH'.
  { apply IH. intros a b z Ha Hb. apply Hinj; by right. }
  destruct (g x) as [z|] eqn:Hgx; [|done].
  constructor; [|done]. intros (y & Hy & Hgy)%list_elem_of_omap.
  apply Hx. rewrite (Hinj x y z); [done | by left | by right | done | done].
Qed.

Lemma live_id h d doc : hub_wf h → get_document d h = Some doc → id doc = d.
Proof.
  intros [Hids _ _ _] (Hr & Hs & _)%get_document_Some.
  rewrite (Hids _ _ Hs). lia.
Qed.

Lemma elem_of_matches h f term d :
  hub_wf h →
  d ∈ matches (get_index f h) term
  ↔ ∃ doc, get_document d h = Some doc ∧ term ∈ tokenize (text f doc).
Proof.
  intros [_ _ _ Hf]. unfold matches.
  rewrite elem_of_list_to_set, list_elem_of_fmap. split.
  - intros ([d' p] & -> & Hin). simpl.
    apply (fi_postings _ _ _ _ _ (Hf f)) in Hin as (doc & n & Hl & _ & Hn).
    exists doc. split; [done|]. by eapply list_elem_of_lookup_2.
  - intros (doc & Hl & (n & Hn)%list_elem_of_lookup_1).
    exists (d, Z.of_nat n). split; [done|].
    apply (fi_postings _ _ _ _ _ (Hf f)). eauto.
Qed.

Lemma filter_deleted_live l h :
  (∀ d, d ∈ l → is_Some (get_document d h)) → _filter_deleted l h = (Return l, h).
Proof.
  induction l as [|d l IH]; intros Hall; [done|].
  destruct (Hall d) as [doc (Hr & Hs & Hdel)%get_document_Some]; [by left|].
  destruct (documents_getitem_valid d h Hr) as (slot & Hs' & Hget).
  rewrite Hs in Hs'. injection Hs' as <-.
  cbn [_filter_deleted]. unfold bind at 1, get at 1. cbv beta iota.
  rewrite decide_True by lia. unfold bind at 1. unfold bind at 1.
  rewrite Hget. unfold ret at 1. rewrite Hdel. cbn [negb].
  unfold bind at 1. rewrite IH; [done|]. intros z Hz. apply Hall. by right.
Qed.

Lemma collect_live l h :
  (∀ d, d ∈ l → is_Some (get_document d h)) →
  collect l h = (Return ((λ d, get_document d h) <$> l), h).
Proof.
  induction l as [|d l IH]; intros Hall; [done|].
  destruct (Hall d) as [doc Hlive]; [by left|].
  pose proof Hlive as (Hr & Hs & Hdel)%get_document_Some.
  destruct (documents_getitem_valid d h Hr) as (slot & Hs' & Hget).
  rewrite Hs in Hs'. injection Hs' as <-.
  cbn [collect]. unfold bind at 1. rewrite Hget.
  unfold bind at 1. rewrite IH by (intros z Hz; apply Hall; by right).
  unfold ret. simpl. by rewrite Hlive.
Qed.

End HubFacts.

(** ** Reachable states *)

(** An iteration order of sets: it lists the elements of the set. *)
Definition enumerates `{Countable A} (iter : gset A → list A) : Prop :=
  ∀ X, iter X ≡ₚ elements X.

Section Reachable.

Variable tokenize : string → list string.
Variable hash : string → Z.

(** The states reachable from a fresh hub by the three mutating
    operations, whether a call succeeds, returns [False] or raises.  Every
    call iterates its sets in an order of its own. *)
Inductive reachable : InformationHub → Prop :=
| reach_new gid : reachable (new_hub hash gid)
| reach_add iter_ids h t c :
    enumerates iter_ids → reachable h →
    reachable (add_document tokenize iter_ids t c h).2
| reach_update iter_words h d t c :
    enumerates iter_words → reachable h →
    reachable (update_document tokenize iter_words d t c h).2
| reach_delete iter_words h d :
    enumerates iter_words → reachable h →
    reachable (delete_document iter_words d h).2.

(** Every reachable state is well formed. *)
Lemma reachable_wf h : reachable h → hub_wf tokenize h.
Proof.
  induction 1 as [gid | iter_ids h t c Hi _ IH | iter_words h d t c Hi _ IH
                  | iter_words h d Hi _ IH].
  - apply new_hub_wf.
  - by apply (add_document_wf tokenize elements iter_ids (λ X, reflexivity _) Hi).
  - by apply (update_document_wf tokenize iter_words Hi).
  - by apply (delete_document_wf tokenize iter_words elements Hi (λ X, reflexivity _)).
Qed.

(** The orders in which the call under study iterates. *)
Variable iter_words : gset string → list string.
Variable iter_ids : gset Z → list Z.
Hypothesis iter_words_perm : enumerates iter_words.
Hypothesis iter_ids_perm : enumerates iter_ids.

(** *** Properties of the operations *)

(** C8.  In every reachable state, every posting list of both indexes is
    strictly increasing in (document id, position), and [bisect.insort] of a
    posting that the list does not hold yields an increasing list again that
    holds the same postings and the new one. *)
Theorem posting_lists_sorted (h : InformationHub) (f : field) (w : string)
    (l : list (Z * Z)) :
  reachable h → get_index f h !! w = Some l →
  StronglySorted plt l ∧
  ∀ x, x ∉ l → StronglySorted plt (insort l x) ∧ insort l x ≡ₚ x :: l.
Proof.
  clear iter_words_perm iter_ids_perm.
  intros Hr Hl. apply reachable_wf in Hr. destruct Hr as [_ _ _ Hf].
  destruct (fi_ok _ _ _ _ _ (Hf f) w l Hl) as (_ & Hs & _).
  split; [done|]. intros x Hx.
  split; [by apply insort_sorted | apply insort_Permutation].
Qed.

(** C7.  In a reachable state with allocation capacity left, [add_document]
    returns an id under which [get_document] finds the new document, with
    the given title and content and not deleted. *)
Theorem add_document_then_get (h : InformationHub) (t c : string) :
  reachable h → (deleted_ids h ≠ ∅ ∨ (next_id h ≤ 999)%Z) →
  ∃ d h', add_document tokenize iter_ids t c h = (Return d, h') ∧
          get_document d h' = Some (mkInformation t c d false).
Proof.
  clear iter_words_perm.
  intros Hr Hcap. apply reachable_wf in Hr. destruct Hr as [Hids Hpool Hnext Hf].
  assert (∃ d h1, _allocate_id iter_ids h = (Return d, h1) ∧ (1 ≤ d)%Z)
    as (d & h1 & Ha & Hd).
  { destruct (decide (deleted_ids h = ∅)) as [He|Hne].
    - destruct Hcap as [?|Hn]; [done|].
      eexists _, _. split; [by apply allocate_id_mint|]. lia.
    - destruct (allocate_id_pool iter_ids iter_ids_perm h Hne) as (x & Hx & Ha).
      exists x. eexists. split; [done|]. destruct (Hpool x Hx). lia. }
  eexists d, _. split; [by apply add_document_run|].
  rewrite (get_document_documents _ (install d (mkInformation t c d false) h1)) by done.
  rewrite get_document_install by done. by rewrite decide_True.
Qed.

(** C5 (amended).  In a reachable state [add_document] takes its id from
    the reuse pool when the pool is not empty, and otherwise mints
    [group_prefix * 1000 + next_id]; when that sequence number exceeds 999
    it raises [OverflowError], and the hub is as before except that
    [next_id] has been advanced by one. *)
Theorem add_document_allocation (h : InformationHub) (t c : string) :
  reachable h →
  (deleted_ids h ≠ ∅ →
   ∃ x h', x ∈ deleted_ids h ∧
           add_document tokenize iter_ids t c h = (Return x, h') ∧
           deleted_ids h' = deleted_ids h ∖ {[x]} ∧ next_id h' = next_id h) ∧
  (deleted_ids h = ∅ → (next_id h ≤ 999)%Z →
   ∃ h', add_document tokenize iter_ids t c h
         = (Return (group_prefix h * 1000 + next_id h)%Z, h') ∧
         deleted_ids h' = ∅ ∧ next_id h' = (next_id h + 1)%Z) ∧
  (deleted_ids h = ∅ → (next_id h > 999)%Z →
   add_document tokenize iter_ids t c h
   = (Raise OverflowError,
      mkHub (documents h) (next_id h + 1) (group_id h) (group_prefix h)
            (deleted_ids h) (title_index h) (content_index h)
            (doc_title_words h) (doc_content_words h))).
Proof.
  clear iter_words_perm.
  intros Hr. apply reachable_wf in Hr. destruct Hr as [Hids Hpool Hnext Hf].
  split; [|split].
  - intros Hne. destruct (allocate_id_pool iter_ids iter_ids_perm h Hne) as (x & Hx & Ha).
    exists x. eexists. split; [done|]. destruct (Hpool x Hx).
    split; [apply (add_document_run tokenize iter_ids t c h _ _ Ha); lia|]. done.
  - intros He Hn. pose proof (allocate_id_mint iter_ids h He Hn) as Ha.
    eexists. split; [apply (add_document_run tokenize iter_ids t c h _ _ Ha); lia|]. done.
  - intros He Hn. unfold add_document, bind.
    by rewrite (allocate_id_overflow iter_ids h He Hn).
Qed.

(** C9.  On a live document, [update_document] with both arguments omitted
    returns [True]; the document store and both indexes are as before, and
    so is every per-document word set wherever it is read. *)
Theorem update_document_identity (h : InformationHub) (d : Z) (doc : Information) :
  reachable h → get_document d h = Some doc →
  ∃ h', update_document tokenize iter_words d None None h = (Return true, h') ∧
        documents h' = documents h ∧
        get_document d h' = Some doc ∧
        title_index h' = title_index h ∧
        content_index h' = content_index h ∧
        next_id h' = next_id h ∧ deleted_ids h' = deleted_ids h ∧
        ∀ f d', default ∅ (get_words f h' !! d') = default ∅ (get_words f h !! d').
Proof.
  clear iter_ids_perm.
  intros Hr Hlive. apply reachable_wf in Hr.
  pose proof (λ f, update_document_fields tokenize iter_words iter_words_perm
                     h d None None doc f Hr Hlive) as Hfields.
  destruct Hr as [Hids Hpool Hnext Hf].
  pose proof Hlive as (Hrange & Hs & Hdel)%get_document_Some.
  eexists. split; [by apply update_document_run|].
  change (updated None None doc) with doc in *. simpl.
  rewrite list_insert_id by done.
  assert (Hsame : ∀ f idx ws,
            field_inv tokenize
              (λ d', if decide (d' = d) then Some doc else get_document d' h) f idx ws →
            idx = get_index f h ∧
            ∀ d', default ∅ (ws !! d') = default ∅ (get_words f h !! d')).
  { intros f idx ws Hinv.
    assert (field_inv tokenize (λ d', get_document d' h) f idx ws) as Hinv'.
    { eapply field_inv_ext; [|exact Hinv]. intros d'. simpl.
      case_decide; [by subst|done]. }
    split; [by eapply field_inv_unique|].
    intros d'. by rewrite (fi_words _ _ _ _ _ Hinv'), (fi_words _ _ _ _ _ (Hf f)). }
  destruct (Hsame Title _ _ (Hfields Title)) as [HiT HwT].
  destruct (Hsame Content _ _ (Hfields Content)) as [HiC HwC].
  simpl in HiT, HiC, HwT, HwC.
  split; [done|]. split.
  { rewrite <- Hlive. by apply get_document_documents. }
  split; [done|]. split; [done|]. split; [done|]. split; [done|].
  intros [] d'; simpl; [apply HwT | apply HwC].
Qed.

(** C6.  In a reachable state [search] returns, without raising and without
    writing, a list of documents [docs1 ++ docs2] without repetition, every
    one of them live (found by [get_document] under its id, hence not
    deleted).  When the query has a first token, [docs1] are exactly the
    live documents with that token in the title, and [docs2] exactly those
    with the token in the content but not in the title. *)
Theorem search_ranked (h : InformationHub) (keyword : string) :
  reachable h →
  ∃ docs1 docs2,
    search tokenize iter_ids keyword h = (Return (Some <$> (docs1 ++ docs2)), h) ∧
    NoDup (docs1 ++ docs2) ∧
    (∀ doc, doc ∈ docs1 ++ docs2 →
            get_document (id doc) h = Some doc ∧ deleted doc = false) ∧
    (∀ term, head (tokenize keyword) = Some term →
       (∀ doc, doc ∈ docs1 ↔
               get_document (id doc) h = Some doc ∧ term ∈ tokenize (title doc)) ∧
       (∀ doc, doc ∈ docs2 ↔
               get_document (id doc) h = Some doc ∧
               (term ∉ tokenize (title doc)) ∧ term ∈ tokenize (content doc))).
Proof.
  clear iter_words_perm.
  intros Hr. apply reachable_wf in Hr. unfold search.
  unfold bind at 1, get at 1. cbv beta iota.
  destruct (tokenize keyword) as [|term rest] eqn:Htok.
  { exists [], []. split; [done|]. split; [constructor|].
    split; [by intros doc ?%elem_of_nil|]. by intros term [=]. }
  set (tm := matches (title_index h) term).
  set (co := matches (content_index h) term ∖ tm).
  assert (Htm : ∀ d, d ∈ tm ↔ ∃ doc, get_document d h = Some doc
                                     ∧ term ∈ tokenize (title doc)).
  { intros d. apply (elem_of_matches tokenize h Title term d Hr). }
  assert (Hco : ∀ d, d ∈ co ↔ ∃ doc, get_document d h = Some doc
                                     ∧ (term ∉ tokenize (title doc))
                                     ∧ term ∈ tokenize (content doc)).
  { intros d. unfold co. rewrite elem_of_difference, Htm.
    rewrite (elem_of_matches tokenize h Content term d Hr). simpl. split.
    - intros [(doc & Hl & Hc) Hnot]. exists doc. split; [done|]. split; [|done].
      intros Ht. apply Hnot. eauto.
    - intros (doc & Hl & Hnt & Hc). split; [eauto|].
      intros (doc' & Hl' & Ht). congruence. }
  assert (Hlive1 : ∀ d, d ∈ iter_ids tm → is_Some (get_document d h)).
  { intros d (doc & Hl & _)%(elem_of_iter_ids _ iter_ids_perm)%Htm. eauto. }
  assert (Hlive2 : ∀ d, d ∈ iter_ids co → is_Some (get_document d h)).
  { intros d (doc & Hl & _)%(elem_of_iter_ids _ iter_ids_perm)%Hco. eauto. }
  unfold bind at 1. rewrite (filter_deleted_live _ _ Hlive1).
  unfold bind at 1. rewrite (filter_deleted_live _ _ Hlive2).
  unfold bind at 1. rewrite (collect_live _ _ Hlive1).
  unfold bind at 1. rewrite (collect_live _ _ Hlive2).
  unfold ret.
  exists (omap (λ d, get_document d h) (iter_ids tm)),
         (omap (λ d, get_document d h) (iter_ids co)).
  assert (Hmem : ∀ X doc, doc ∈ omap (λ d, get_document d h) (iter_ids X)
                          ↔ id doc ∈ X ∧ get_document (id doc) h = Some doc).
  { intros X doc. rewrite list_elem_of_omap. split.
    - intros (d & Hd%(elem_of_iter_ids _ iter_ids_perm) & Hl).
      rewrite (live_id tokenize h d doc Hr Hl). done.
    - intros [Hd Hl]. exists (id doc).
      by rewrite (elem_of_iter_ids _ iter_ids_perm). }
  split; [|split; [|split]].
  - rewrite fmap_app, !(fmap_omap_total (λ d, get_document d h)) by done. done.
  - rewrite <- omap_app. apply NoDup_omap_inj.
    + intros x y z _ _ Hx Hy.
      by rewrite <- (live_id tokenize h x z Hr Hx), <- (live_id tokenize h y z Hr Hy).
    + apply NoDup_app. split; [by apply iter_ids_NoDup|].
      split; [|by apply iter_ids_NoDup].
      intros d Hd%(elem_of_iter_ids _ iter_ids_perm)
               Hd'%(elem_of_iter_ids _ iter_ids_perm).
      unfold co in Hd'. set_solver.
  - intros doc [[_ Hl]%Hmem|[_ Hl]%Hmem]%elem_of_app;
      (split; [done|]); by apply get_document_Some in Hl as (_ & _ & ?).
  - intros term' [= <-]. split.
    + intros doc. rewrite Hmem, Htm. split.
      * intros [(doc' & Hl' & Ht) Hl]. split; [done|]. congruence.
      * intros [Hl Ht]. eauto.
    + intros doc. rewrite Hmem, Hco. split.
      * intros [(doc' & Hl' & Ht) Hl]. split; [done|]. by replace doc with doc' by congruence.
      * intros [Hl Ht]. eauto.
Qed.

End Reachable.

(** *** A concrete hub *)

(** [\w] on ASCII text: a letter, a digit or the underscore. *)
Definition is_word_char (a : ascii) : bool :=
  let n := nat_of_ascii a in
  ((48 <=? n) && (n <=? 57) || (65 <=? n) && (n <=? 90)
   || (n =? 95) || (97 <=? n) && (n <=? 122))%nat.

(** [str.lower] on an ASCII character. *)
Definition lower (a : ascii) : ascii :=
  let n := nat_of_ascii a in
  if ((65 <=? n) && (n <=? 90))%nat then ascii_of_nat (n + 32) else a.

Definition flush (cur : list ascii) : list string :=
  match cur with
  | [] => []
  | _ => [String.string_of_list_ascii (rev cur)]
  end.

(** [re.findall(r'\b\w+\b', text.lower())] on ASCII text: the maximal runs
    of word characters, in lower case; [cur] is the run being read, last
    character first. *)
Fixpoint word_runs (s : string) (cur : list ascii) : list string :=
  match s with
  | EmptyString => flush cur
  | String a s' =>
    if is_word_char a then word_runs s' (lower a :: cur)
    else flush cur ++ word_runs s' []
  end.

Definition ascii_tokenize (s : string) : list string := word_runs s [].

(** A process in which [hash(group_id)] is a multiple of 1000. *)
Definition hash_zero (gid : string) : Z := 0.

Definition hub_new : InformationHub := new_hub hash_zero "team".

(** Three documents, the third deleted again. *)
Definition hub_library : InformationHub :=
  let h1 := (add_document ascii_tokenize elements
               "Invoice March" "Pay 50k to vendor" hub_new).2 in
  let h2 := (add_document ascii_tokenize elements
               "Vendor invoice list" "Contacts for March" h1).2 in
  let h3 := (add_document ascii_tokenize elements "Invoice April" "Draft" h2).2 in
  (delete_document elements 3 h3).2.

(** A hub in which the 999 sequence numbers of the group are used up. *)
Definition hub_full : InformationHub :=
  Nat.iter 999 (λ h, (add_document ascii_tokenize elements "" "" h).2) hub_new.

Definition doc_march : Information :=
  mkInformation "Invoice March" "Pay 50k to vendor" 1 false.

Definition doc_vendors : Information :=
  mkInformation "Vendor invoice list" "Contacts for March" 2 false.

Lemma elements_enumerates `{Countable A} : enumerates (elements (C := gset A)).
Proof. intros X. reflexivity. Qed.

Lemma hub_library_reachable : reachable ascii_tokenize hash_zero hub_library.
Proof.
  apply reach_delete; [apply elements_enumerates|].
  do 3 (apply reach_add; [apply elements_enumerates|]). apply reach_new.
Qed.

Lemma hub_full_reachable : reachable ascii_tokenize hash_zero hub_full.
Proof.
  unfold hub_full. generalize 999%nat. intros n.
  induction n as [|n IH]; [apply reach_new|].
  rewrite Nat.iter_succ. apply reach_add; [apply elements_enumerates | done].
Qed.

(** The tokenizer on a text with punctuation, capitals and an underscore. *)
Lemma ascii_tokenize_example :
  ascii_tokenize "Invoice March, Pay_50k  to-vendor!"
  = ["invoice"; "march"; "pay_50k"; "to"; "vendor"].
Proof. reflexivity. Qed.

(** A search in the library: the title match (document 2) comes before the
    content match (document 1); the deleted document 3 is not found under a
    word of its title, and its id is in the reuse pool. *)
Lemma search_example :
  search ascii_tokenize elements "Vendor?" hub_library
  = (Return [Some doc_vendors; Some doc_march], hub_library) ∧
  search ascii_tokenize elements "april" hub_library = (Return [], hub_library) ∧
  search ascii_tokenize elements "..." hub_library = (Return [], hub_library) ∧
  elements (deleted_ids hub_library) = [3%Z].
Proof. split; [by vm_compute|]. split; [by vm_compute|]. split; by vm_compute. Qed.

Lemma search_ranked_witness :
  ∃ docs, search ascii_tokenize elements "Vendor?" hub_library
          = (Return (Some <$> docs), hub_library) ∧
          NoDup docs ∧
          ∀ doc, doc ∈ docs → deleted doc = false.
Proof.
  destruct (search_ranked ascii_tokenize hash_zero elements elements_enumerates
              hub_library "Vendor?" hub_library_reachable)
    as (docs1 & docs2 & Hrun & Hnd & Hlive & _).
  exists (docs1 ++ docs2). split; [done|]. split; [done|].
  intros doc Hdoc. by destruct (Hlive doc Hdoc).
Defined.

Lemma posting_lists_sorted_witness :
  title_index hub_library !! "invoice" = Some [(1, 0); (2, 1)]%Z ∧
  StronglySorted plt [(1, 0); (2, 1)]%Z ∧
  StronglySorted plt (insort [(1, 0); (2, 1)]%Z (1, 4)%Z).
Proof.
  assert (title_index hub_library !! "invoice" = Some [(1, 0); (2, 1)]%Z) as Hl
    by (by vm_compute).
  destruct (posting_lists_sorted ascii_tokenize hash_zero hub_library Title
              "invoice" _ hub_library_reachable Hl) as [Hs Hins].
  split; [done|]. split; [done|].
  apply Hins. intros Hin. vm_compute in Hin.
  repeat (apply elem_of_cons in Hin as [Hin|Hin]; [discriminate Hin|]).
  by apply elem_of_nil in Hin.
Defined.

Lemma add_document_then_get_witness :
  ∃ d h', add_document ascii_tokenize elements "Receipt" "Paid in May" hub_library
          = (Return d, h') ∧
          get_document d h' = Some (mkInformation "Receipt" "Paid in May" d false).
Proof.
  apply (add_document_then_get ascii_tokenize hash_zero elements
           elements_enumerates hub_library "Receipt" "Paid in May"
           hub_library_reachable).
  right. by vm_compute.
Defined.

Lemma add_document_allocation_witness :
  add_document ascii_tokenize elements "Receipt" "Paid in May" hub_full
  = (Raise OverflowError,
     mkHub (documents hub_full) (next_id hub_full + 1) (group_id hub_full)
           (group_prefix hub_full) (deleted_ids hub_full) (title_index hub_full)
           (content_index hub_full) (doc_title_words hub_full)
           (doc_content_words hub_full)).
Proof.
  destruct (add_document_allocation ascii_tokenize hash_zero elements
              elements_enumerates hub_full "Receipt" "Paid in May"
              hub_full_reachable) as (_ & _ & Hover).
  apply Hover; by vm_compute.
Defined.

(** When the sequence numbers are used up, the failed [add_document] has
    advanced [next_id]: the allocation state is not as it was. *)
Lemma add_document_overflow_advances_next_id :
  reachable ascii_tokenize hash_zero hub_full ∧
  deleted_ids hub_full = ∅ ∧
  next_id hub_full = 1000%Z ∧
  ∃ h', add_document ascii_tokenize elements "Receipt" "Paid in May" hub_full
        = (Raise OverflowError, h') ∧
        next_id h' = 1001%Z ∧ h' ≠ hub_full.
Proof.
  split; [apply hub_full_reachable|]. split; [by vm_compute|].
  split; [by vm_compute|].
  exists (add_document ascii_tokenize elements "Receipt" "Paid in May" hub_full).2.
  split; [by vm_compute|]. split; [by vm_compute|].
  intros Heq. apply (f_equal next_id) in Heq. by vm_compute in Heq.
Qed.

Lemma update_document_identity_witness :
  ∃ h', update_document ascii_tokenize elements 1 None None hub_library
        = (Return true, h') ∧
        documents h' = documents hub_library ∧
        get_document 1 h' = Some doc_march ∧
        title_index h' = title_index hub_library ∧
        content_index h' = content_index hub_library.
Proof.
  destruct (update_document_identity ascii_tokenize hash_zero elements
              elements_enumerates hub_library 1 doc_march
              hub_library_reachable)
    as (h' & Hrun & Hdocs & Hget & Hti & Hci & _).
  - by vm_compute.
  - exists h'. split; [exact Hrun|]. split; [exact Hdocs|]. split; [exact Hget|].
    split; [exact Hti | exact Hci].
Defined.

(** ** Further properties of the hub operations *)

Section HubOperations.

Variable tokenize : string → list string.
Variable hash : string → Z.
Variable iter_words : gset string → list string.
Variable iter_ids : gset Z → list Z.
Hypothesis iter_words_perm : enumerates iter_words.
Hypothesis iter_ids_perm : enumerates iter_ids.

(** *** What [search] returns in a well-formed state *)

Lemma search_members h kw :
  hub_wf tokenize h →
  ∃ res, search tokenize iter_ids kw h = (Return res, h) ∧
         ∀ slot, slot ∈ res ↔
                 ∃ doc term, slot = Some doc ∧ head (tokenize kw) = Some term ∧
                             get_document (id doc) h = Some doc ∧
                             (term ∈ tokenize (title doc)
                              ∨ term ∈ tokenize (content doc)).
Proof.
  clear iter_words_perm.
  intros Hwf. unfold search. unfold bind at 1, get at 1. cbv beta iota.
  destruct (tokenize kw) as [|term rest] eqn:Htok.
  { exists []. split; [done|]. intros slot. split.
    - by intros ?%elem_of_nil.
    - by intros (? & ? & _ & [=] & _). }
  set (tm := matches (title_index h) term).
  set (co := matches (content_index h) term ∖ tm).
  assert (Htm : ∀ d, d ∈ tm ↔ ∃ doc, get_document d h = Some doc
                                     ∧ term ∈ tokenize (title doc)).
  { intros d. apply (elem_of_matches tokenize h Title term d Hwf). }
  assert (Hcm : ∀ d, d ∈ matches (content_index h) term
                     ↔ ∃ doc, get_document d h = Some doc
                              ∧ term ∈ tokenize (content doc)).
  { intros d. apply (elem_of_matches tokenize h Content term d Hwf). }
  assert (Hlive1 : ∀ d, d ∈ iter_ids tm → is_Some (get_document d h)).
  { intros d (doc & Hl & _)%(elem_of_iter_ids _ iter_ids_perm)%Htm. eauto. }
  assert (Hlive2 : ∀ d, d ∈ iter_ids co → is_Some (get_document d h)).
  { intros d Hd%(elem_of_iter_ids _ iter_ids_perm).
    apply elem_of_difference in Hd as [(doc & Hl & _)%Hcm _]. eauto. }
  unfold bind at 1. rewrite (filter_deleted_live _ _ Hlive1).
  unfold bind at 1. rewrite (filter_deleted_live _ _ Hlive2).
  unfold bind at 1. rewrite (collect_live _ _ Hlive1).
  unfold bind at 1. rewrite (collect_live _ _ Hlive2).
  unfold ret. eexists. split; [reflexivity|].
  intros slot. rewrite elem_of_app, !list_elem_of_fmap. split.
  - intros [(d & -> & Hd%(elem_of_iter_ids _ iter_ids_perm))
           |(d & -> & Hd%(elem_of_iter_ids _ iter_ids_perm))].
    + apply Htm in Hd as (doc & Hl & Ht). exists doc, term.
      rewrite Hl, (live_id tokenize h d doc Hwf Hl). auto.
    + apply elem_of_difference in Hd as [(doc & Hl & Hc)%Hcm _].
      exists doc, term.
      rewrite Hl, (live_id tokenize h d doc Hwf Hl). auto.
  - intros (doc & term' & -> & [= <-] & Hl & Hin).
    destruct (decide (id doc ∈ tm)) as [Ht|Hnt].
    + left. exists (id doc). split; [done|].
      by apply (elem_of_iter_ids _ iter_ids_perm).
    + right. exists (id doc). split; [done|].
      apply (elem_of_iter_ids _ iter_ids_perm). apply elem_of_difference.
      split; [|done]. apply Hcm. exists doc. split; [done|].
      destruct Hin as [Hin|Hin]; [|done]. exfalso. apply Hnt, Htm. eauto.
Qed.

(** *** The indexes and the documents *)

(** X10.  In every reachable state both inverted indexes describe exactly
    the live documents: [(d, p)] is a posting of the word [w] if and only
    if document [d] is live and [w] is the token at position [p] of its
    title (or content); no empty posting list is kept; and the word set
    kept for a live document is the set of its tokens, while a document
    that is not live has none. *)
Theorem index_matches_documents (h : InformationHub) (f : field) :
  reachable tokenize hash h →
  (∀ w d p, (d, p) ∈ postings (get_index f h) w
            ↔ ∃ doc n, get_document d h = Some doc ∧ p = Z.of_nat n ∧
                       tokenize (text f doc) !! n = Some w) ∧
  (∀ w, get_index f h !! w ≠ Some []) ∧
  (∀ d, default ∅ (get_words f h !! d)
        = match get_document d h with
          | Some doc => list_to_set (tokenize (text f doc))
          | None => ∅
          end).
Proof.
  clear iter_words_perm iter_ids_perm.
  intros [_ _ _ Hf]%reachable_wf. specialize (Hf f).
  split; [apply (fi_postings _ _ _ _ _ Hf)|]. split.
  - intros w Hw. by destruct (fi_ok _ _ _ _ _ Hf w [] Hw) as [? _].
  - intros d. apply (fi_words _ _ _ _ _ Hf).
Qed.

(** X11.  In every reachable state [get_document(d)] returns only a
    document that is not deleted, whose [id] field is [d], with [d] inside
    the store; so two different ids never give the same document. *)
Theorem get_document_sound (h : InformationHub) (d : Z) (doc : Information) :
  reachable tokenize hash h → get_document d h = Some doc →
  id doc = d ∧ deleted doc = false ∧
  (1 ≤ d ≤ Z.of_nat (length (documents h)))%Z ∧
  ∀ d', get_document d' h = Some doc → d' = d.
Proof.
  clear iter_words_perm iter_ids_perm.
  intros Hwf%reachable_wf Hl.
  pose proof (live_id tokenize h d doc Hwf Hl) as Hid.
  pose proof Hl as (Hr & _ & Hdel)%get_document_Some.
  split; [done|]. split; [done|]. split; [done|].
  intros d' Hl'. by rewrite <- Hid, (live_id tokenize h d' doc Hwf Hl').
Qed.

(** *** [add_document] *)

Lemma add_document_result h t c :
  hub_wf tokenize h → (deleted_ids h ≠ ∅ ∨ (next_id h ≤ 999)%Z) →
  ∃ d h', add_document tokenize iter_ids t c h = (Return d, h') ∧
          (1 ≤ d)%Z ∧
          get_document d h = None ∧
          get_document d h' = Some (mkInformation t c d false) ∧
          (∀ d', d' ≠ d → get_document d' h' = get_document d' h) ∧
          hub_wf tokenize h'.
Proof.
  clear iter_words_perm.
  intros Hwf Hcap. pose proof Hwf as [Hids Hpool Hnext Hf].
  assert (∃ d h1, _allocate_id iter_ids h = (Return d, h1) ∧ (1 ≤ d)%Z ∧
                  documents h1 = documents h ∧ get_document d h = None)
    as (d & h1 & Ha & Hd & Hdocs & Hfree).
  { destruct (decide (deleted_ids h = ∅)) as [He|Hne].
    - destruct Hcap as [?|Hn]; [done|].
      eexists _, _. split; [by apply allocate_id_mint|].
      split; [lia|]. split; [done|].
      unfold get_document. rewrite decide_True; [done|]. lia.
    - destruct (allocate_id_pool iter_ids iter_ids_perm h Hne) as (x & Hx & Ha).
      exists x. eexists. split; [done|]. destruct (Hpool x Hx).
      split; [lia|]. done. }
  pose proof (add_document_run tokenize iter_ids t c h d h1 Ha Hd) as Hrun.
  pose proof (add_document_wf tokenize elements iter_ids
                (λ X, reflexivity (elements X)) iter_ids_perm h t c Hwf) as Hwf'.
  rewrite Hrun in Hwf'. cbn [snd] in Hwf'.
  eexists d, _. split; [exact Hrun|]. split; [done|]. split; [done|].
  assert (Hget : ∀ d', get_document d'
                   (mkHub (documents (install d (mkInformation t c d false) h1))
                      (next_id h1) (group_id h1) (group_prefix h1) (deleted_ids h1)
                      (foldl (insert_posting d) (title_index h1) (enumerate (tokenize t)))
                      (foldl (insert_posting d) (content_index h1)
                         (enumerate (tokenize c)))
                      (foldl (add_word d) (doc_title_words h1) (tokenize t))
                      (foldl (add_word d) (doc_content_words h1) (tokenize c)))
                 = if decide (d' = d) then Some (mkInformation t c d false)
                   else get_document d' h).
  { intros d'.
    rewrite (get_document_documents _ (install d (mkInformation t c d false) h1))
      by done.
    rewrite get_document_install by done. case_decide; [done|].
    by apply get_document_documents. }
  split; [by rewrite Hget, decide_True|]. split; [|done].
  intros d' Hne. by rewrite Hget, decide_False.
Qed.

(** X12.  In a reachable state with capacity left, the id that
    [add_document] returns was not that of a live document, and every
    other id gives the same document (or none) after the call as before:
    adding never overwrites or disturbs a live document. *)
Theorem add_document_keeps_others (h : InformationHub) (t c : string) :
  reachable tokenize hash h → (deleted_ids h ≠ ∅ ∨ (next_id h ≤ 999)%Z) →
  ∃ d h', add_document tokenize iter_ids t c h = (Return d, h') ∧
          get_document d h = None ∧
          ∀ d', d' ≠ d → get_document d' h' = get_document d' h.
Proof.
  clear iter_words_perm.
  intros Hwf%reachable_wf Hcap.
  destruct (add_document_result h t c Hwf Hcap) as (d & h' & Hrun & _ & Hfree & _ & Hoth & _).
  by exists d, h'.
Qed.

(** X13.  In a reachable state with capacity left, a document just added
    is found by [search] under every keyword whose first token occurs in
    its title or in its content. *)
Theorem add_document_then_search (h : InformationHub) (t c kw term : string) :
  reachable tokenize hash h → (deleted_ids h ≠ ∅ ∨ (next_id h ≤ 999)%Z) →
  head (tokenize kw) = Some term →
  term ∈ tokenize t ∨ term ∈ tokenize c →
  ∃ d h' res, add_document tokenize iter_ids t c h = (Return d, h') ∧
              search tokenize iter_ids kw h' = (Return res, h') ∧
              Some (mkInformation t c d false) ∈ res.
Proof.
  clear iter_words_perm.
  intros Hwf%reachable_wf Hcap Hterm Hin.
  destruct (add_document_result h t c Hwf Hcap) as (d & h' & Hrun & _ & _ & Hget & _ & Hwf').
  destruct (search_members h' kw Hwf') as (res & Hsearch & Hres).
  exists d, h', res. split; [done|]. split; [done|].
  apply Hres. exists (mkInformation t c d false), term. done.
Qed.

(** *** [delete_document] *)

Lemma delete_document_postings h d doc f w :
  hub_wf tokenize h → get_document d h = Some doc →
  postings (foldl (remove_postings d) (get_index f h)
                  (iter_words (default ∅ (get_words f h !! d)))) w
  = filter (λ e, e.1 ≠ d) (postings (get_index f h) w).
Proof.
  clear iter_ids_perm.
  intros [_ _ _ Hf] Hl. specialize (Hf f).
  destruct (unindex_fold_spec d (iter_words (default ∅ (get_words f h !! d)))
              (get_index f h) (fi_ok _ _ _ _ _ Hf)) as [_ Hp].
  rewrite Hp. case_decide as Hw; [done|]. symmetry. apply filter_all.
  apply Forall_forall. intros [d' p] Hin Heq. simpl in Heq. subst d'.
  apply Hw. apply (elem_of_iter_words _ iter_words_perm).
  rewrite (fi_words _ _ _ _ _ Hf), Hl. simpl.
  apply (fi_postings _ _ _ _ _ Hf) in Hin as (doc' & n & Hl' & _ & Hn).
  rewrite Hl in Hl'. injection Hl' as <-.
  apply elem_of_list_to_set. by eapply list_elem_of_lookup_2.
Qed.

(** X14.  Deleting a live document of a reachable state returns [True].
    Afterwards [get_document] no longer finds it and no [search] returns
    it; every other document is as before; the id has joined the reuse
    pool; exactly the postings of that document have left the posting
    lists, the others keeping their order; and a second [delete_document]
    of the same id returns [False] and changes nothing. *)
Theorem delete_document_removes (h : InformationHub) (d : Z) (doc : Information) :
  reachable tokenize hash h → get_document d h = Some doc →
  ∃ h', delete_document iter_words d h = (Return true, h') ∧
        get_document d h' = None ∧
        (∀ d', d' ≠ d → get_document d' h' = get_document d' h) ∧
        deleted_ids h' = deleted_ids h ∪ {[d]} ∧
        next_id h' = next_id h ∧
        (∀ f w, postings (get_index f h') w
                = filter (λ e, e.1 ≠ d) (postings (get_index f h) w)) ∧
        delete_document iter_words d h' = (Return false, h') ∧
        ∀ kw, ∃ res, search tokenize iter_ids kw h' = (Return res, h') ∧
                     ∀ doc', Some doc' ∈ res → id doc' ≠ d.
Proof.
  intros Hwf%reachable_wf Hl.
  pose proof (delete_document_wf tokenize iter_words iter_ids iter_words_perm
                iter_ids_perm h d Hwf) as Hwf'.
  pose proof (delete_document_run iter_words d h doc Hl) as Hrun.
  rewrite Hrun in Hwf'. cbn [snd] in Hwf'.
  pose proof Hl as (Hr & Hs & Hdel)%get_document_Some.
  eexists. split; [exact Hrun|].
  assert (Hget : ∀ d', get_document d'
       (mkHub (<[Z.to_nat (d - 1) := Some (set_deleted true doc)]> (documents h))
          (next_id h) (group_id h) (group_prefix h) (deleted_ids h ∪ {[d]})
          (foldl (remove_postings d) (title_index h)
             (iter_words (default ∅ (doc_title_words h !! d))))
          (foldl (remove_postings d) (content_index h)
             (iter_words (default ∅ (doc_content_words h !! d))))
          (delete d (doc_title_words h)) (delete d (doc_content_words h)))
       = if decide (d' = d) then None else get_document d' h).
  { intros d'.
    rewrite (get_document_documents _
               (set_documents (<[Z.to_nat (d - 1) := Some (set_deleted true doc)]>
                                 (documents h)) h)) by done.
    by rewrite get_document_update_slot by done. }
  assert (Hgone : get_document d
       (mkHub (<[Z.to_nat (d - 1) := Some (set_deleted true doc)]> (documents h))
          (next_id h) (group_id h) (group_prefix h) (deleted_ids h ∪ {[d]})
          (foldl (remove_postings d) (title_index h)
             (iter_words (default ∅ (doc_title_words h !! d))))
          (foldl (remove_postings d) (content_index h)
             (iter_words (default ∅ (doc_content_words h !! d))))
          (delete d (doc_title_words h)) (delete d (doc_content_words h))) = None).
  { by rewrite Hget, decide_True. }
  split; [exact Hgone|]. split.
  { intros d' Hne. by rewrite Hget, decide_False. }
  split; [done|]. split; [done|]. split.
  { intros [] w; simpl.
    - apply (delete_document_postings h d doc Title w Hwf Hl).
    - apply (delete_document_postings h d doc Content w Hwf Hl). }
  split; [by apply delete_document_not_found|].
  intros kw. destruct (search_members _ kw Hwf') as (res & Hsearch & Hres).
  exists res. split; [exact Hsearch|].
  intros doc' (doc'' & term & [= <-] & _ & Hl' & _)%Hres Hid.
  rewrite Hid in Hl'. congruence.
Qed.

(** X15.  In any state, [delete_document] and [update_document] of an id
    that [get_document] does not find (out of range, an empty slot, or a
    deleted document) return [False] and leave the hub exactly as it
    was. *)
Theorem missing_document_is_left_alone (h : InformationHub) (d : Z)
    (nt nc : option string) :
  get_document d h = None →
  delete_document iter_words d h = (Return false, h) ∧
  update_document tokenize iter_words d nt nc h = (Return false, h).
Proof.
  clear iter_words_perm iter_ids_perm.
  intros Hl. split.
  - by apply delete_document_not_found.
  - by apply update_document_not_found.
Qed.

(** X16.  In a reachable state whose reuse pool is empty, deleting a live
    document and then adding a new one gives the new document the id just
    freed: the sequence counter does not move, the store does not grow,
    and the pool is empty again. *)
Theorem deleted_id_is_reused (h : InformationHub) (d : Z) (doc : Information)
    (t c : string) :
  reachable tokenize hash h → get_document d h = Some doc → deleted_ids h = ∅ →
  ∃ h1 h2, delete_document iter_words d h = (Return true, h1) ∧
           add_document tokenize iter_ids t c h1 = (Return d, h2) ∧
           get_document d h2 = Some (mkInformation t c d false) ∧
           next_id h2 = next_id h ∧
           deleted_ids h2 = ∅ ∧
           length (documents h2) = length (documents h).
Proof.
  clear iter_words_perm.
  intros Hwf%reachable_wf Hl He.
  pose proof (delete_document_run iter_words d h doc Hl) as Hrun.
  pose proof Hl as (Hr & Hs & Hdel)%get_document_Some.
  eexists. match goal with |- ∃ h2, ?P ∧ _ => assert P as Hrun' by exact Hrun end.
  set (h1 := mkHub _ _ _ _ _ _ _ _ _) in Hrun'.
  destruct (allocate_id_pool iter_ids iter_ids_perm h1) as (x & Hx & Ha).
  { unfold h1. simpl. rewrite He. set_solver. }
  assert (x = d) as -> by (unfold h1 in Hx; simpl in Hx; set_solver).
  pose proof (add_document_run tokenize iter_ids t c h1 d _ Ha ltac:(lia)) as Hadd.
  eexists. split; [exact Hrun'|]. split; [exact Hadd|].
  split.
  { rewrite (get_document_documents _
               (install d (mkInformation t c d false)
                  (set_deleted_ids (deleted_ids h1 ∖ {[d]}) h1))) by done.
    rewrite get_document_install by (done || lia). by rewrite decide_True. }
  split; [done|]. split.
  { simpl. rewrite He. set_solver. }
  change (length (documents (install d (mkInformation t c d false)
                               (set_deleted_ids (deleted_ids h1 ∖ {[d]}) h1)))
          = length (documents h)).
  rewrite length_install.
  change (documents (set_deleted_ids (deleted_ids h1 ∖ {[d]}) h1))
    with (<[Z.to_nat (d - 1) := Some (set_deleted true doc)]> (documents h)).
  rewrite length_insert. lia.
Qed.

(** *** [update_document] *)

Lemma updated_eq nt nc doc :
  deleted doc = false →
  updated nt nc doc
  = mkInformation (default (title doc) nt) (default (content doc) nc) (id doc) false.
Proof. intros Hd. destruct doc, nt, nc; simpl in *; by subst. Qed.

(** X17.  On a live document, in any state, [update_document] returns
    [True]; the document keeps its id, takes the title and the content
    given and keeps those omitted; every other document, the sequence
    counter, the reuse pool and the size of the store are as before. *)
Theorem update_document_replaces_text (h : InformationHub) (d : Z)
    (doc : Information) (nt nc : option string) :
  get_document d h = Some doc →
  ∃ h', update_document tokenize iter_words d nt nc h = (Return true, h') ∧
        get_document d h'
        = Some (mkInformation (default (title doc) nt) (default (content doc) nc)
                              (id doc) false) ∧
        (∀ d', d' ≠ d → get_document d' h' = get_document d' h) ∧
        next_id h' = next_id h ∧ deleted_ids h' = deleted_ids h ∧
        length (documents h') = length (documents h).
Proof.
  clear iter_words_perm iter_ids_perm.
  intros Hl. pose proof Hl as (Hr & Hs & Hdel)%get_document_Some.
  eexists. split; [by apply update_document_run|].
  match goal with |- context [get_document d ?h'] =>
    assert (Hget : ∀ d', get_document d' h'
                         = if decide (d' = d) then Some (updated nt nc doc)
                           else get_document d' h)
  end.
  { intros d'.
    rewrite (get_document_documents _
               (set_documents (<[Z.to_nat (d - 1) := Some (updated nt nc doc)]>
                                 (documents h)) h)) by done.
    rewrite get_document_update_slot by done.
    by rewrite deleted_updated, Hdel. }
  split. { by rewrite Hget, decide_True, updated_eq. }
  split. { intros d' Hne. by rewrite Hget, decide_False. }
  split; [done|]. split; [done|]. simpl. by rewrite length_insert.
Qed.

(** X18.  After [update_document] on a live document of a reachable
    state, [search] returns the document, in its new version, exactly
    under the keywords whose first token occurs in the new title or the new
    content; a result with that id is never the old version. *)
Theorem update_document_reindexes (h : InformationHub) (d : Z)
    (doc : Information) (nt nc : option string) (kw term : string) :
  reachable tokenize hash h → get_document d h = Some doc →
  head (tokenize kw) = Some term →
  ∃ h' res,
    update_document tokenize iter_words d nt nc h = (Return true, h') ∧
    search tokenize iter_ids kw h' = (Return res, h') ∧
    (Some (mkInformation (default (title doc) nt) (default (content doc) nc) d false)
       ∈ res
     ↔ term ∈ tokenize (default (title doc) nt)
       ∨ term ∈ tokenize (default (content doc) nc)) ∧
    ∀ doc', Some doc' ∈ res → id doc' = d →
            doc' = mkInformation (default (title doc) nt) (default (content doc) nc)
                                 d false.
Proof.
  intros Hwf%reachable_wf Hl Hterm.
  pose proof (update_document_wf tokenize iter_words iter_words_perm h d nt nc Hwf)
    as Hwf'.
  pose proof (update_document_run tokenize iter_words d nt nc h doc Hl) as Hrun.
  rewrite Hrun in Hwf'. cbn [snd] in Hwf'.
  pose proof Hl as (Hr & Hs & Hdel)%get_document_Some.
  pose proof (live_id tokenize h d doc Hwf Hl) as Hid.
  set (h' := mkHub _ _ _ _ _ _ _ _ _) in Hrun, Hwf'.
  assert (Hget : get_document d h'
                 = Some (mkInformation (default (title doc) nt)
                           (default (content doc) nc) d false)).
  { rewrite (get_document_documents _
               (set_documents (<[Z.to_nat (d - 1) := Some (updated nt nc doc)]>
                                 (documents h)) h)) by done.
    rewrite get_document_update_slot by done.
    rewrite decide_True by done. rewrite deleted_updated, Hdel.
    by rewrite updated_eq, Hid. }
  destruct (search_members h' kw Hwf') as (res & Hsearch & Hres).
  exists h', res. split; [exact Hrun|]. split; [exact Hsearch|]. split.
  - rewrite Hres. split.
    + intros (doc' & term' & [= <-] & Hterm' & _ & Hin). simpl in Hin. congruence.
    + intros Hin. eexists _, term. done.
  - intros doc' (doc'' & term' & [= <-] & _ & Hl' & _)%Hres Hid'.
    rewrite Hid' in Hl'. congruence.
Qed.

(** *** [_filter_deleted] *)

(** X19.  For ids that are all at least 1, [_filter_deleted] never raises
    and keeps, in the order given, exactly the ids that [get_document]
    finds.  The bound matters: on an empty store the id 0 passes the test
    [doc_id <= len(self.documents)] and the look-up [documents[-1]] raises
    [IndexError]. *)
Theorem filter_deleted_keeps_live (h : InformationHub) (l : list Z) :
  ((∀ d, d ∈ l → (1 ≤ d)%Z) →
   _filter_deleted l h
   = (Return (filter (λ d, is_Some (get_document d h)) l), h)) ∧
  (documents h = [] → _filter_deleted [0%Z] h = (Raise IndexError, h)).
Proof.
  clear iter_words_perm iter_ids_perm. split.
  - induction l as [|d l IH]; intros Hpos; [done|].
    cbn [_filter_deleted]. unfold bind at 1, get at 1. cbv beta iota.
    assert (Hd : (1 ≤ d)%Z) by (apply Hpos; by left).
    assert (Hkeep :
      (if decide (d ≤ Z.of_nat (length (documents h)))%Z then
         slot <- documents_getitem (d - 1) ;;
         match slot with
         | Some doc => ret (negb (deleted doc))
         | None => ret false
         end
       else ret false) h
      = (Return (bool_decide (is_Some (get_document d h))), h)).
    { unfold get_document. case_decide as Hle.
      - rewrite decide_False by lia.
        destruct (documents_getitem_valid d h) as (slot & Hs & Hget); [lia|].
        unfold bind. rewrite Hget, Hs. destruct slot as [doc|].
        + unfold ret. by destruct (deleted doc).
        + done.
      - by rewrite decide_True by lia. }
    unfold bind at 1. rewrite Hkeep. unfold bind at 1.
    rewrite IH by (intros x Hx; apply Hpos; by right). unfold ret.
    do 2 f_equal. destruct (bool_decide _) eqn:E.
    + apply bool_decide_eq_true in E. by rewrite filter_cons_True.
    + apply bool_decide_eq_false in E. by rewrite filter_cons_False.
  - intros He.
    assert (Hget : documents_getitem (0 - 1) h = (Raise IndexError, h)).
    { unfold documents_getitem, bind, get. by rewrite He. }
    cbn [_filter_deleted]. unfold bind at 1, get at 1. cbv beta iota.
    rewrite decide_True by lia. unfold bind. by rewrite Hget.
Qed.

End HubOperations.

(** *** Ids, the reuse pool and the statistics *)

(** The document stored in slot [i], if any. *)
Definition stored (docs : list (option Information)) (i : nat) : option Information :=
  default None (docs !! i).

(** The number of sequence numbers issued so far. *)
Definition issued (h : InformationHub) : Z := Z.min (next_id h - 1) 999.

Record hub_ids (h : InformationHub) : Prop := {
  hi_prefix : (0 ≤ group_prefix h < 1000)%Z;
  hi_next : (1 ≤ next_id h)%Z;
  (** the slots that hold a document are those of the issued ids *)
  hi_slots : ∀ i, is_Some (stored (documents h) i)
                  ↔ (group_prefix h * 1000 ≤ Z.of_nat i
                     < group_prefix h * 1000 + issued h)%Z;
  (** the reuse pool holds the ids of the deleted documents *)
  hi_pool : ∀ d, d ∈ deleted_ids h
                 ↔ (1 ≤ d)%Z ∧ ∃ doc, stored (documents h) (Z.to_nat (d - 1)) = Some doc
                                      ∧ deleted doc = true;
}.

Lemma stored_Some docs i doc : stored docs i = Some doc ↔ docs !! i = Some (Some doc).
Proof.
  unfold stored. destruct (docs !! i) as [[?|]|]; simpl; split; congruence.
Qed.

Lemma stored_insert docs j (x : option Information) i :
  j < length docs →
  stored (<[j := x]> docs) i = if decide (i = j) then x else stored docs i.
Proof.
  intros Hj. unfold stored. case_decide as Hij.
  - subst. by rewrite list_lookup_insert_eq.
  - by rewrite list_lookup_insert_ne.
Qed.

Lemma stored_install d doc h i :
  (1 ≤ d)%Z →
  stored (documents (install d doc h)) i
  = if decide (i = Z.to_nat (d - 1)) then Some doc else stored (documents h) i.
Proof.
  intros Hd. unfold stored. rewrite lookup_install by done.
  case_decide; [done|]. case_decide as Hlen; [done|].
  rewrite (lookup_ge_None_2 (documents h)) by lia. by case_decide.
Qed.

Lemma get_document_stored d h doc :
  get_document d h = Some doc
  ↔ (1 ≤ d)%Z ∧ stored (documents h) (Z.to_nat (d - 1)) = Some doc
    ∧ deleted doc = false.
Proof.
  rewrite get_document_Some, stored_Some. split.
  - intros (? & ? & ?). split; [lia|done].
  - intros (? & Hs & ?). split; [|done]. apply lookup_lt_Some in Hs. lia.
Qed.

Lemma hub_ids_replace h h' j doc' :
  hub_ids h →
  group_prefix h' = group_prefix h → next_id h' = next_id h →
  (∀ i, stored (documents h') i
        = if decide (i = j) then Some doc' else stored (documents h) i) →
  is_Some (stored (documents h) j) →
  (∀ d, d ∈ deleted_ids h'
        ↔ (d ≠ Z.of_nat (S j) ∧ d ∈ deleted_ids h)
          ∨ (d = Z.of_nat (S j) ∧ deleted doc' = true)) →
  hub_ids h'.
Proof.
  intros [Hp Hn Hs Hpool] Hp' Hn' Hst Hj Hpool'. split.
  - by rewrite Hp'.
  - by rewrite Hn'.
  - intros i. unfold issued. rewrite Hp', Hn', Hst. case_decide as Hij.
    + subst i. split; [|done]. intros _. by apply Hs.
    + apply Hs.
  - intros d. rewrite Hpool', Hpool. split.
    + intros [(Hne & Hd & doc & Hdoc & Hdel)|[-> Hdel]].
      * split; [done|]. exists doc. split; [|done].
        rewrite Hst. rewrite decide_False by lia. done.
      * split; [lia|]. exists doc'. split; [|done].
        rewrite Hst. rewrite decide_True by lia. done.
    + intros (Hd & doc & Hdoc & Hdel). rewrite Hst in Hdoc.
      case_decide as Hij.
      * right. injection Hdoc as ->. split; [lia | done].
      * left. split; [lia|]. split; [done|]. by exists doc.
Qed.

Section HubIds.

Variable tokenize : string → list string.
Variable hash : string → Z.

Lemma new_hub_ids gid : hub_ids (new_hub hash gid).
Proof.
  split; simpl.
  - apply Z.mod_pos_bound. lia.
  - lia.
  - intros i. unfold issued. simpl. split; [by intros [? ?] | lia].
  - intros d. split; [by intros ?%not_elem_of_empty|].
    by intros (_ & doc & Hdoc & _).
Qed.

Lemma add_document_ids iter_ids h t c :
  enumerates iter_ids → hub_wf tokenize h → hub_ids h →
  hub_ids (add_document tokenize iter_ids t c h).2.
Proof.
  intros Hperm Hwf Hids. pose proof Hids as [Hp Hn Hs Hpool].
  destruct (decide (deleted_ids h = ∅)) as [He|Hne].
  - destruct (decide (next_id h ≤ 999)%Z) as [Hcap|Hfull].
    + pose proof (allocate_id_mint iter_ids h He Hcap) as Ha.
      rewrite (add_document_run tokenize iter_ids t c h _ _ Ha) by lia.
      cbn [snd]. set (d := (group_prefix h * 1000 + next_id h)%Z) in *.
      assert (Hst : ∀ i, stored (documents (install d (mkInformation t c d false)
                                             (set_next_id (next_id h + 1) h))) i
                         = if decide (i = Z.to_nat (d - 1))
                           then Some (mkInformation t c d false)
                           else stored (documents h) i).
      { intros i. rewrite stored_install by (unfold d; lia). done. }
      split; cbn [group_prefix next_id documents deleted_ids set_next_id].
      * done.
      * lia.
      * intros i. unfold issued. cbn [next_id]. rewrite Hst.
        specialize (Hs i). unfold issued in Hs. case_decide as Hi.
        -- split; [|done]. intros _. unfold d in Hi. lia.
        -- rewrite Hs. unfold d in Hi. lia.
      * intros d'. rewrite He. split; [by intros ?%not_elem_of_empty|].
        intros (Hd' & doc & Hdoc & Hdel). rewrite Hst in Hdoc.
        case_decide as Hi.
        -- injection Hdoc as <-. done.
        -- rewrite <- He. apply Hpool. split; [done|]. by exists doc.
    + pose proof (allocate_id_overflow iter_ids h He ltac:(lia)) as Ha.
      unfold add_document, bind. rewrite Ha. cbn [snd].
      split; cbn [group_prefix next_id documents deleted_ids set_next_id].
      * done.
      * lia.
      * intros i. rewrite Hs. unfold issued. cbn [next_id set_next_id]. lia.
      * apply Hpool.
  - destruct (allocate_id_pool iter_ids Hperm h Hne) as (x & Hx & Ha).
    pose proof Hx as (Hx1 & docx & Hdocx & Hdelx)%Hpool.
    rewrite (add_document_run tokenize iter_ids t c h _ _ Ha) by done.
    cbn [snd].
    apply (hub_ids_replace h _ (Z.to_nat (x - 1)) (mkInformation t c x false));
      [done | done | done | | by rewrite Hdocx |].
    + intros i. cbn [documents]. by rewrite stored_install.
    + intros d'. cbn [deleted_ids set_deleted_ids deleted].
      rewrite elem_of_difference, elem_of_singleton.
      replace (Z.of_nat (S (Z.to_nat (x - 1)))) with x by lia.
      naive_solver.
Qed.

Lemma delete_document_ids iter_words h d :
  hub_wf tokenize h → hub_ids h → hub_ids (delete_document iter_words d h).2.
Proof.
  intros Hwf Hids. destruct (get_document d h) as [doc|] eqn:Hl.
  2:{ by rewrite delete_document_not_found. }
  rewrite (delete_document_run iter_words d h doc Hl). cbn [snd].
  pose proof Hl as (Hr & Hsl & Hdel)%get_document_Some.
  apply (hub_ids_replace h _ (Z.to_nat (d - 1)) (set_deleted true doc));
    [done | done | done | | |].
  - intros i. cbn [documents]. rewrite stored_insert by lia. done.
  - apply stored_Some in Hsl. by rewrite Hsl.
  - intros d'. cbn [deleted_ids deleted set_deleted].
    rewrite elem_of_union, elem_of_singleton.
    replace (Z.of_nat (S (Z.to_nat (d - 1)))) with d by lia.
    destruct (decide (d' = d)); naive_solver.
Qed.

Lemma update_document_ids iter_words h d nt nc :
  hub_wf tokenize h → hub_ids h →
  hub_ids (update_document tokenize iter_words d nt nc h).2.
Proof.
  intros Hwf Hids. destruct (get_document d h) as [doc|] eqn:Hl.
  2:{ by rewrite update_document_not_found. }
  rewrite (update_document_run tokenize iter_words d nt nc h doc Hl). cbn [snd].
  pose proof Hl as (Hr & Hsl & Hdel)%get_document_Some.
  apply (hub_ids_replace h _ (Z.to_nat (d - 1)) (updated nt nc doc));
    [done | done | done | | |].
  - intros i. cbn [documents]. rewrite stored_insert by lia. done.
  - apply stored_Some in Hsl. by rewrite Hsl.
  - intros d'. cbn [deleted_ids]. rewrite deleted_updated, Hdel.
    replace (Z.of_nat (S (Z.to_nat (d - 1)))) with d by lia.
    split; [|naive_solver]. intros Hd'. left. split; [|done].
    intros ->. destruct (wf_pool _ _ Hwf d Hd') as [Hnone _]. congruence.
Qed.

Lemma reachable_ids h : reachable tokenize hash h → hub_ids h.
Proof.
  intros Hr. induction Hr as [gid | iter_ids h t c Hi Hr IH
                              | iter_words h d t c Hi Hr IH
                              | iter_words h d Hi Hr IH].
  - apply new_hub_ids.
  - apply add_document_ids; [done | by eapply reachable_wf | done].
  - apply update_document_ids; [by eapply reachable_wf | done].
  - apply delete_document_ids; [by eapply reachable_wf | done].
Qed.

End HubIds.

(** *** [get_stats] *)

Record Stats : Type := mkStats {
  total_documents : nat;
  deleted_documents : nat;
  unique_title_words : nat;
  unique_content_words : nat;
}.

(** [doc is not None and not doc.deleted] *)
Definition active (slot : option Information) : option Information :=
  match slot with
  | Some doc => if deleted doc then None else Some doc
  | None => None
  end.

(** [[doc for doc in self.documents if doc is not None and not doc.deleted]] *)
Definition active_docs (h : InformationHub) : list Information :=
  omap active (documents h).

Definition get_stats (h : InformationHub) : Stats :=
  {| total_documents := length (active_docs h);
     deleted_documents := size (deleted_ids h);
     unique_title_words := size (title_index h);
     unique_content_words := size (content_index h) |}.

(** The documents in the store, deleted or not. *)
Definition stored_docs (docs : list (option Information)) : list Information :=
  omap (λ slot, slot) docs.

(** The ids of the deleted documents of a store whose first slot has the
    id [k + 1]. *)
Fixpoint dead_ids (k : nat) (docs : list (option Information)) : list Z :=
  match docs with
  | [] => []
  | slot :: docs' =>
    match slot with
    | Some doc => if deleted doc then Z.of_nat (S k) :: dead_ids (S k) docs'
                  else dead_ids (S k) docs'
    | None => dead_ids (S k) docs'
    end
  end.

Lemma elem_of_dead_ids k docs d :
  d ∈ dead_ids k docs
  ↔ ∃ i doc, d = Z.of_nat (k + S i) ∧ stored docs i = Some doc ∧ deleted doc = true.
Proof.
  revert k. induction docs as [|slot docs IH]; intros k; cbn [dead_ids].
  - split; [by intros ?%elem_of_nil | by intros (i & doc & _ & ? & _)].
  - assert (Htail : d ∈ dead_ids (S k) docs
                    ↔ ∃ i doc, d = Z.of_nat (k + S (S i))
                               ∧ stored (slot :: docs) (S i) = Some doc
                               ∧ deleted doc = true).
    { rewrite IH. split; intros (i & doc & -> & ? & ?); exists i, doc;
        (split; [lia | done]). }
    assert (Hsplit : (∃ i doc, d = Z.of_nat (k + S i)
                               ∧ stored (slot :: docs) i = Some doc
                               ∧ deleted doc = true)
                     ↔ (∃ doc, d = Z.of_nat (S k) ∧ slot = Some doc
                               ∧ deleted doc = true)
                       ∨ d ∈ dead_ids (S k) docs).
    { rewrite Htail. split.
      - intros ([|i] & doc & -> & Hs & Hd).
        + left. exists doc. split; [f_equal; lia | done].
        + right. by exists i, doc.
      - intros [(doc & -> & -> & Hd)|(i & doc & ? & ? & ?)].
        + exists 0, doc. split; [f_equal; lia | done].
        + by exists (S i), doc. }
    rewrite Hsplit. destruct slot as [doc|].
    + destruct (deleted doc) eqn:Hd.
      * rewrite elem_of_cons. split.
        -- intros [->|?]; [left; by exists doc | by right].
        -- intros [(doc' & -> & _ & _)|?]; [by left | by right].
      * split; [by right|]. intros [(doc' & _ & [= <-] & ?)|?]; [congruence | done].
    + split; [by right|]. by intros [(doc' & _ & ? & _)|?].
Qed.

Lemma dead_ids_NoDup k docs : NoDup (dead_ids k docs).
Proof.
  revert k. induction docs as [|slot docs IH]; intros k; cbn [dead_ids].
  - constructor.
  - destruct slot as [doc|]; [|apply IH]. destruct (deleted doc); [|apply IH].
    constructor; [|apply IH].
    intros (i & doc' & Heq & _)%elem_of_dead_ids. lia.
Qed.

Lemma count_docs k docs :
  length (stored_docs docs) = (length (omap active docs) + length (dead_ids k docs))%nat.
Proof.
  unfold stored_docs.
  revert k. induction docs as [|slot docs IH]; intros k; [done|].
  cbn [omap list_omap dead_ids]. destruct slot as [doc|]; simpl.
  - destruct (deleted doc); simpl; rewrite (IH (S k)); lia.
  - apply IH.
Qed.

(** A store whose occupied slots are those from [a] to [a + k - 1] holds
    [k] documents. *)
Lemma count_range docs (a k : nat) :
  (∀ i, is_Some (stored docs i) ↔ a ≤ i < a + k) → length (stored_docs docs) = k.
Proof.
  unfold stored_docs.
  revert a k. induction docs as [|slot docs IH]; intros a k Hr.
  - destruct k as [|k]; [done|]. destruct (Hr a) as [_ Hs].
    destruct Hs as [? Hs]; [lia|]. done.
  - assert (Ht : ∀ i, stored (slot :: docs) (S i) = stored docs i) by done.
    assert (H0 : stored (slot :: docs) 0 = slot) by done.
    pose proof (Hr 0) as Hr0. rewrite H0 in Hr0.
    destruct a as [|a].
    + destruct k as [|k].
      * destruct slot as [doc|]; [destruct Hr0 as [Hr0 _]; destruct Hr0; [done|lia]|].
        simpl. apply (IH 0 0). intros i. rewrite <- Ht, Hr. lia.
      * destruct slot as [doc|]; [|destruct Hr0 as [_ [? ?]]; [lia|done]].
        simpl. f_equal. apply (IH 0 k). intros i. rewrite <- Ht, Hr. lia.
    + destruct slot as [doc|]; [destruct Hr0 as [Hr0 _]; destruct Hr0; [done|lia]|].
      simpl. apply (IH a k). intros i. rewrite <- Ht, Hr. lia.
Qed.

Section Statistics.

Variable tokenize : string → list string.
Variable hash : string → Z.

Lemma pool_is_dead_ids h :
  hub_ids h → deleted_ids h = list_to_set (dead_ids 0 (documents h)).
Proof.
  intros [_ _ _ Hpool]. apply set_eq. intros d.
  rewrite elem_of_list_to_set, Hpool, elem_of_dead_ids. split.
  - intros (Hd & doc & Hs & Hdel). exists (Z.to_nat (d - 1)), doc.
    split; [lia | done].
  - intros (i & doc & -> & Hs & Hdel). split; [lia|]. exists doc.
    split; [|done]. by replace (Z.to_nat (Z.of_nat (0 + S i) - 1)) with i by lia.
Qed.

Lemma stats_total h :
  hub_ids h →
  (total_documents (get_stats h) + deleted_documents (get_stats h))%nat
  = Z.to_nat (issued h).
Proof.
  intros Hids. pose proof Hids as [Hp Hn Hs _]. unfold get_stats. simpl.
  rewrite (pool_is_dead_ids h Hids), size_list_to_set by apply dead_ids_NoDup.
  unfold active_docs. rewrite <- (count_docs 0).
  apply (count_range _ (Z.to_nat (group_prefix h * 1000))).
  intros i. rewrite Hs. unfold issued. lia.
Qed.

(** X20.  In every reachable state the live documents and the deleted
    ones awaiting reuse, as [get_stats] counts them, together number the
    sequence numbers issued so far, [min(next_id - 1, 999)]: a hub never
    holds more than 999 documents. *)
Theorem get_stats_counts_issued_ids (h : InformationHub) :
  reachable tokenize hash h →
  (total_documents (get_stats h) + deleted_documents (get_stats h))%nat
  = Z.to_nat (Z.min (next_id h - 1) 999) ∧
  (total_documents (get_stats h) + deleted_documents (get_stats h) ≤ 999)%nat.
Proof.
  intros Hids%reachable_ids. rewrite (stats_total h Hids). unfold issued.
  split; [done | lia].
Qed.

(** X21.  In a reachable state [add_document] raises [OverflowError]
    exactly when the hub holds 999 live documents; otherwise it returns an
    id. *)
Theorem add_document_overflows_when_full (iter_ids : gset Z → list Z)
    (h : InformationHub) (t c : string) :
  enumerates iter_ids → reachable tokenize hash h →
  ((∃ h', add_document tokenize iter_ids t c h = (Raise OverflowError, h'))
   ↔ total_documents (get_stats h) = 999%nat) ∧
  ((∃ d h', add_document tokenize iter_ids t c h = (Return d, h'))
   ↔ (total_documents (get_stats h) < 999)%nat).
Proof.
  intros Hperm Hr. pose proof (reachable_wf _ _ _ Hr) as Hwf.
  pose proof (reachable_ids _ _ _ Hr) as Hids.
  pose proof (stats_total h Hids) as Htot. pose proof Hids as [Hp Hn _ _].
  unfold issued in Htot.
  assert (Hsize : deleted_documents (get_stats h) = 0%nat ↔ deleted_ids h = ∅).
  { unfold get_stats. simpl. split.
    - intros H. apply leibniz_equiv. by apply size_empty_inv.
    - intros ->. apply size_empty. }
  destruct (decide (deleted_ids h = ∅ ∧ (next_id h > 999)%Z)) as [[He Hfull]|Hcap].
  - assert (Hrun : add_document tokenize iter_ids t c h
                   = (Raise OverflowError, set_next_id (next_id h + 1) h)).
    { unfold add_document, bind. by rewrite (allocate_id_overflow iter_ids h He Hfull). }
    apply Hsize in He. split; split.
    + intros _. lia.
    + intros _. eauto.
    + intros (d & h' & Hret). congruence.
    + intros Hlt. lia.
  - assert (Hcap' : deleted_ids h ≠ ∅ ∨ (next_id h ≤ 999)%Z).
    { destruct (decide (deleted_ids h = ∅)) as [He|Hne]; [|by left].
      right. destruct (decide (next_id h ≤ 999)%Z) as [Hle|Hgt]; [done|].
      exfalso. apply Hcap. split; [done | lia]. }
    assert (Hret : ∃ d h', add_document tokenize iter_ids t c h = (Return d, h')).
    { destruct (decide (deleted_ids h = ∅)) as [He|Hne].
      - destruct Hcap' as [?|Hle]; [done|].
        pose proof (allocate_id_mint iter_ids h He Hle) as Ha.
        eexists _, _. apply (add_document_run tokenize iter_ids t c h _ _ Ha). lia.
      - destruct (allocate_id_pool iter_ids Hperm h Hne) as (x & Hx & Ha).
        destruct (wf_pool _ _ Hwf x Hx) as [_ ?].
        eexists _, _. apply (add_document_run tokenize iter_ids t c h _ _ Ha). lia. }
    assert (Hlt : (total_documents (get_stats h) < 999)%nat).
    { destruct (decide (deleted_ids h = ∅)) as [He|Hne].
      - destruct Hcap' as [?|Hle]; [done|]. lia.
      - assert (deleted_documents (get_stats h) ≠ 0%nat) by (by rewrite Hsize).
        lia. }
    split; split.
    + intros (h' & Hraise). destruct Hret as (d & h'' & Hret). congruence.
    + intros Heq. lia.
    + done.
    + done.
Qed.

(** The words of the live documents in one field. *)
Definition vocabulary (f : field) (h : InformationHub) : gset string :=
  ⋃ ((λ doc, list_to_set (tokenize (text f doc))) <$> active_docs h).

Lemma elem_of_active_docs h doc :
  doc ∈ active_docs h ↔ ∃ d, get_document d h = Some doc.
Proof.
  unfold active_docs. rewrite list_elem_of_omap. split.
  - intros (slot & (i & Hi)%list_elem_of_lookup_1 & Hact).
    destruct slot as [doc'|]; [|done]. simpl in Hact.
    destruct (deleted doc') eqn:Hd; [done|]. injection Hact as ->.
    exists (Z.of_nat (S i)). apply get_document_Some.
    pose proof (lookup_lt_Some _ _ _ Hi).
    replace (Z.to_nat (Z.of_nat (S i) - 1)) with i by lia.
    split; [lia | done].
  - intros (d & (Hr & Hs & Hd)%get_document_Some). exists (Some doc).
    split; [by eapply list_elem_of_lookup_2|]. simpl. by rewrite Hd.
Qed.

Lemma dom_index h f :
  hub_wf tokenize h → dom (get_index f h) = vocabulary f h.
Proof.
  intros [_ _ _ Hf]. specialize (Hf f). apply set_eq. intros w.
  unfold vocabulary. rewrite elem_of_dom, elem_of_union_list. split.
  - intros [l Hl]. destruct (fi_ok _ _ _ _ _ Hf w l Hl) as (Hne & _).
    destruct l as [|[d p] l]; [done|].
    assert ((d, p) ∈ postings (get_index f h) w) as Hin.
    { unfold postings. rewrite Hl. by left. }
    apply (fi_postings _ _ _ _ _ Hf) in Hin as (doc & n & Hlive & _ & Hn).
    exists (list_to_set (tokenize (text f doc))). split.
    + apply list_elem_of_fmap. exists doc. split; [done|].
      apply elem_of_active_docs. by exists d.
    + apply elem_of_list_to_set. by eapply list_elem_of_lookup_2.
  - intros (X & (doc & -> & (d & Hlive)%elem_of_active_docs)%list_elem_of_fmap & Hw).
    apply elem_of_list_to_set, list_elem_of_lookup_1 in Hw as [n Hn].
    assert ((d, Z.of_nat n) ∈ postings (get_index f h) w) as Hin.
    { apply (fi_postings _ _ _ _ _ Hf). by exists doc, n. }
    unfold postings in Hin. destruct (get_index f h !! w) as [l|]; [by exists l|].
    by apply elem_of_nil in Hin.
Qed.

(** X22.  In every reachable state [unique_title_words] and
    [unique_content_words] of [get_stats] are the numbers of distinct
    words in the titles, and in the contents, of the live documents. *)
Theorem get_stats_counts_vocabulary (h : InformationHub) :
  reachable tokenize hash h →
  unique_title_words (get_stats h) = size (vocabulary Title h) ∧
  unique_content_words (get_stats h) = size (vocabulary Content h).
Proof.
  intros Hwf%reachable_wf. unfold get_stats. simpl.
  rewrite <- (dom_index h Title Hwf), <- (dom_index h Content Hwf).
  by rewrite !size_dom.
Qed.

(** X23.  In every reachable state the reuse pool holds exactly the ids
    of the deleted documents still in the store, and every id in use, live
    or deleted, is the group prefix times 1000 plus a sequence number
    between 1 and 999 that has been issued. *)
Theorem ids_and_reuse_pool (h : InformationHub) :
  reachable tokenize hash h →
  (0 ≤ group_prefix h < 1000)%Z ∧
  (∀ d, d ∈ deleted_ids h
        ↔ (1 ≤ d)%Z ∧ ∃ doc, documents h !! Z.to_nat (d - 1) = Some (Some doc)
                             ∧ deleted doc = true) ∧
  (∀ d, is_Some (get_document d h) ∨ d ∈ deleted_ids h →
        (group_prefix h * 1000 + 1 ≤ d ≤ group_prefix h * 1000 + 999)%Z
        ∧ (d < group_prefix h * 1000 + next_id h)%Z).
Proof.
  intros [Hp Hn Hs Hpool]%reachable_ids. split; [done|]. split.
  - intros d. rewrite Hpool. by setoid_rewrite stored_Some.
  - intros d Hd.
    assert (is_Some (stored (documents h) (Z.to_nat (d - 1))) ∧ (1 ≤ d)%Z) as [Hst Hd1].
    { destruct Hd as [[doc Hl]|Hin].
      - apply get_document_stored in Hl as (? & -> & _). done.
      - apply Hpool in Hin as (? & doc & -> & _). done. }
    apply Hs in Hst. unfold issued in Hst. lia.
Qed.

End Statistics.

(** *** Concrete hubs for the properties above *)

(** Two documents, none deleted. *)
Definition hub_pair : InformationHub :=
  (add_document ascii_tokenize elements "Vendor invoice list" "Contacts for March"
     (add_document ascii_tokenize elements "Invoice March" "Pay 50k to vendor"
        hub_new).2).2.

Lemma hub_pair_reachable : reachable ascii_tokenize hash_zero hub_pair.
Proof. do 2 (apply reach_add; [apply elements_enumerates|]). apply reach_new. Qed.

Lemma index_matches_documents_witness :
  (1, 0)%Z ∈ postings (get_index Title hub_library) "invoice"
  ↔ ∃ doc n, get_document 1 hub_library = Some doc ∧ 0%Z = Z.of_nat n ∧
             ascii_tokenize (text Title doc) !! n = Some "invoice".
Proof.
  destruct (index_matches_documents ascii_tokenize hash_zero hub_library Title
              hub_library_reachable) as [H _].
  exact (H "invoice" 1%Z 0%Z).
Defined.

Lemma get_document_sound_witness :
  id doc_march = 1%Z ∧
  ∀ d', get_document d' hub_library = Some doc_march → d' = 1%Z.
Proof.
  destruct (get_document_sound ascii_tokenize hash_zero hub_library 1 doc_march
              hub_library_reachable) as (H1 & _ & _ & H4).
  - by vm_compute.
  - split; [exact H1 | exact H4].
Defined.

Lemma add_document_keeps_others_witness :
  ∃ d h', add_document ascii_tokenize elements "Receipt" "Paid in May" hub_library
          = (Return d, h') ∧
          get_document d hub_library = None ∧
          get_document 1 h' = Some doc_march.
Proof.
  destruct (add_document_keeps_others ascii_tokenize hash_zero elements
              elements_enumerates hub_library
              "Receipt" "Paid in May" hub_library_reachable)
    as (d & h' & Hrun & Hfree & Hoth).
  - right. by vm_compute.
  - exists d, h'. split; [exact Hrun|]. split; [exact Hfree|].
    rewrite Hoth; [by vm_compute|].
    intros <-. vm_compute in Hfree. discriminate Hfree.
Defined.

Lemma add_document_then_search_witness :
  ∃ d h' res,
    add_document ascii_tokenize elements "Receipt" "Paid in May" hub_library
    = (Return d, h') ∧
    search ascii_tokenize elements "MAY!" h' = (Return res, h') ∧
    Some (mkInformation "Receipt" "Paid in May" d false) ∈ res.
Proof.
  apply (add_document_then_search ascii_tokenize hash_zero elements
           elements_enumerates hub_library
           "Receipt" "Paid in May" "MAY!" "may" hub_library_reachable).
  - right. by vm_compute.
  - by vm_compute.
  - right. apply (bool_decide_unpack _). by vm_compute.
Defined.

Lemma delete_document_removes_witness :
  ∃ h', delete_document elements 1 hub_pair = (Return true, h') ∧
        get_document 1 h' = None ∧
        get_document 2 h' = Some doc_vendors ∧
        delete_document elements 1 h' = (Return false, h').
Proof.
  destruct (delete_document_removes ascii_tokenize hash_zero elements elements
              elements_enumerates elements_enumerates hub_pair 1 doc_march
              hub_pair_reachable)
    as (h' & Hrun & Hgone & Hoth & _ & _ & _ & Hagain & _).
  - by vm_compute.
  - exists h'. split; [exact Hrun|]. split; [exact Hgone|].
    split; [|exact Hagain]. rewrite Hoth by done. by vm_compute.
Defined.

Lemma missing_document_is_left_alone_witness :
  delete_document elements 3 hub_library = (Return false, hub_library) ∧
  update_document ascii_tokenize elements 3 (Some "Invoice May") None hub_library
  = (Return false, hub_library).
Proof.
  apply (missing_document_is_left_alone ascii_tokenize elements hub_library 3).
  by vm_compute.
Defined.

Lemma deleted_id_is_reused_witness :
  ∃ h1 h2, delete_document elements 2 hub_pair = (Return true, h1) ∧
           add_document ascii_tokenize elements "Receipt" "Paid" h1 = (Return 2%Z, h2) ∧
           get_document 2 h2 = Some (mkInformation "Receipt" "Paid" 2 false) ∧
           next_id h2 = 3%Z.
Proof.
  destruct (deleted_id_is_reused ascii_tokenize hash_zero elements elements
              elements_enumerates hub_pair 2 doc_vendors "Receipt" "Paid"
              hub_pair_reachable)
    as (h1 & h2 & Hdel & Hadd & Hget & Hnext & _).
  - by vm_compute.
  - by vm_compute.
  - exists h1, h2. split; [exact Hdel|]. split; [exact Hadd|].
    split; [exact Hget|]. rewrite Hnext. by vm_compute.
Defined.

Lemma update_document_replaces_text_witness :
  ∃ h', update_document ascii_tokenize elements 1 (Some "Bill March") None hub_library
        = (Return true, h') ∧
        get_document 1 h'
        = Some (mkInformation "Bill March" "Pay 50k to vendor" 1 false).
Proof.
  destruct (update_document_replaces_text ascii_tokenize elements hub_library 1
              doc_march (Some "Bill March") None)
    as (h' & Hrun & Hget & _).
  - by vm_compute.
  - exists h'. split; [exact Hrun | exact Hget].
Defined.

Lemma update_document_reindexes_witness :
  ∃ h' res,
    update_document ascii_tokenize elements 1 (Some "Bill March") None hub_library
    = (Return true, h') ∧
    search ascii_tokenize elements "invoice" h' = (Return res, h') ∧
    Some (mkInformation "Bill March" "Pay 50k to vendor" 1 false) ∉ res.
Proof.
  destruct (update_document_reindexes ascii_tokenize hash_zero elements elements
              elements_enumerates elements_enumerates hub_library 1 doc_march
              (Some "Bill March") None "invoice" "invoice" hub_library_reachable)
    as (h' & res & Hrun & Hsearch & Hiff & _).
  - by vm_compute.
  - by vm_compute.
  - exists h', res. split; [exact Hrun|]. split; [exact Hsearch|].
    intros Hin. apply Hiff in Hin. vm_compute in Hin.
    destruct Hin as [Hin|Hin];
      repeat (apply elem_of_cons in Hin as [Hin|Hin]; [discriminate Hin|]);
      by apply elem_of_nil in Hin.
Defined.

Lemma get_stats_counts_issued_ids_witness :
  (total_documents (get_stats hub_library)
   + deleted_documents (get_stats hub_library))%nat = 3%nat.
Proof.
  destruct (get_stats_counts_issued_ids ascii_tokenize hash_zero hub_library
              hub_library_reachable) as [H _].
  rewrite H. by vm_compute.
Defined.

Lemma add_document_overflows_when_full_witness :
  (∃ h', add_document ascii_tokenize elements "Receipt" "Paid" hub_full
         = (Raise OverflowError, h')) ∧
  total_documents (get_stats hub_full) = 999%nat.
Proof.
  destruct (add_document_overflows_when_full ascii_tokenize hash_zero elements
              hub_full "Receipt" "Paid" elements_enumerates hub_full_reachable)
    as [[_ H] _].
  assert (Hfull : total_documents (get_stats hub_full) = 999%nat) by by vm_compute.
  split; [exact (H Hfull) | exact Hfull].
Defined.

Lemma get_stats_counts_vocabulary_witness :
  unique_title_words (get_stats hub_library) = 4%nat.
Proof.
  destruct (get_stats_counts_vocabulary ascii_tokenize hash_zero hub_library
              hub_library_reachable) as [H _].
  rewrite H. by vm_compute.
Defined.

Lemma ids_and_reuse_pool_witness :
  3%Z ∈ deleted_ids hub_library
  ↔ (1 ≤ 3)%Z ∧ ∃ doc, documents hub_library !! Z.to_nat (3 - 1) = Some (Some doc)
                       ∧ deleted doc = true.
Proof.
  destruct (ids_and_reuse_pool ascii_tokenize hash_zero hub_library
              hub_library_reachable) as (_ & H & _).
  exact (H 3%Z).
Defined.

(** *** The tokenizer on ASCII text *)

(** [str.upper] on an ASCII character. *)
Definition upper (a : ascii) : ascii :=
  let n := nat_of_ascii a in
  if ((97 <=? n) && (n <=? 122))%nat then ascii_of_nat (n - 32) else a.

(** [str.lower] and [str.upper] apply to every character of a text. *)
Fixpoint map_chars (f : ascii → ascii) (s : string) : string :=
  match s with
  | EmptyString => EmptyString
  | String a s' => String (f a) (map_chars f s')
  end.

(** A character a token can hold: a word character that [str.lower] leaves
    alone. *)
Definition token_char (a : ascii) : Prop := is_word_char a = true ∧ lower a = a.

Lemma lower_token_char a : is_word_char a = true → token_char (lower a).
Proof.
  destruct a as [[] [] [] [] [] [] [] []]; vm_compute; intros H;
    first [discriminate H | done].
Qed.

Lemma lower_fold (f : ascii → ascii) :
  (∀ a, is_word_char (f a) = is_word_char a ∧ lower (f a) = lower a) →
  ∀ s cur, word_runs (map_chars f s) cur = word_runs s cur.
Proof.
  intros Hf. induction s as [|a s IH]; intros cur; [done|].
  simpl. destruct (Hf a) as [-> ->]. by rewrite !IH.
Qed.

Lemma lower_same_class a :
  is_word_char (lower a) = is_word_char a ∧ lower (lower a) = lower a.
Proof. destruct a as [[] [] [] [] [] [] [] []]; by vm_compute. Qed.

Lemma upper_same_class a :
  is_word_char (upper a) = is_word_char a ∧ lower (upper a) = lower a.
Proof. destruct a as [[] [] [] [] [] [] [] []]; by vm_compute. Qed.

Lemma word_runs_tokens s cur w :
  Forall token_char cur → w ∈ word_runs s cur →
  w ≠ EmptyString ∧ Forall token_char (String.list_ascii_of_string w).
Proof.
  assert (Hflush : ∀ cur, Forall token_char cur → w ∈ flush cur →
            w ≠ EmptyString ∧ Forall token_char (String.list_ascii_of_string w)).
  { intros [|a cur'] Hcur Hw; [by apply elem_of_nil in Hw|].
    apply list_elem_of_singleton in Hw. subst w.
    rewrite String.list_ascii_of_string_of_list_ascii. split.
    - intros Heq. apply (f_equal String.list_ascii_of_string) in Heq.
      rewrite String.list_ascii_of_string_of_list_ascii in Heq. simpl in Heq.
      by destruct (rev cur').
    - apply Forall_forall. intros x Hx. rewrite Forall_forall in Hcur.
      apply Hcur. apply list_elem_of_In. apply in_rev.
      by apply list_elem_of_In. }
  revert cur. induction s as [|a s IH]; intros cur Hcur; simpl.
  - by apply (Hflush cur).
  - destruct (is_word_char a) eqn:Ha.
    + apply IH. constructor; [by apply lower_token_char|done].
    + intros [Hw|Hw]%elem_of_app; [by apply (Hflush cur)|]. by apply (IH []).
Qed.


End Hub.
